(** * AI Room Designer: the generation pipeline and the comparison compositor

    A shallow embedding of
      - [src/services/geminiService.ts]  (image codec helper, generation client),
      - [src/App.tsx]                    (the orchestrator [handleGenerate]),
      - the result card's [createComparisonImage] (comparison compositor),
    together with the properties of the specification that concern them,
    and of
      - [src/components/DecorImageManager.tsx] (the decor image list and its
        preview URLs),
      - [src/hooks/useAudioPlayer.ts]          (the choice of the voice),
      - the commentary call of the client and the downloads of the result
        card,
    with further properties of the pipeline.

    Asynchronous functions are embedded as resumptions ([task]): a task is
    either settled or suspended on one external operation with the
    continuation that the event loop runs when the operation completes.
    The orchestrator is a pool of such tasks driven by a schedule of
    completions chosen by the environment. *)

From Stdlib Require Import List String Ascii Bool Arith ZArith QArith Qpower Lia.
From Stdlib Require Import Floats.SpecFloat.
Import ListNotations.
Local Open Scope string_scope.
Local Open Scope list_scope.

Set Implicit Arguments.

(* ===================================================================== *)
(** ** JavaScript values, strings and thrown values *)
(* ===================================================================== *)

Module JS.

(** Member names that [App.tsx] reads from a design idea. *)
Inductive prop_name := PDescription | PImage.

(** The JavaScript values that flow through the pipeline: [undefined],
    string primitives and plain objects (a member that is absent reads as
    [undefined]). *)
Inductive jsval :=
| JUndefined
| JString (s : string)
| JObject (members : prop_name -> jsval).

(** A thrown value: an [Error] instance with its [message], or anything
    else ([err instanceof Error] is false). *)
Inductive thrown :=
| JsError (message : string)
| JsNonError.

(** A settled promise, or the result of a synchronous computation that
    may throw. *)
Inductive settled (A : Type) :=
| Fulfilled (a : A)
| Rejected (e : thrown).
Arguments Rejected {A} e.

(** ToBoolean on the values above. *)
Definition truthy (v : jsval) : bool :=
  match v with
  | JUndefined => false
  | JString s => negb (String.eqb s "")
  | JObject _ => true
  end.

Definition TypeError_read_of_undefined (p : string) : thrown :=
  JsError ("Cannot read properties of undefined (reading '" ++ p ++ "')").

Definition TypeError_not_iterable (what : string) : thrown :=
  JsError (what ++ " is not iterable").

Definition prop_name_text (p : prop_name) : string :=
  match p with PDescription => "description" | PImage => "image" end.

(** Member access [v.p].  A string primitive has neither a [description]
    nor an [image] member, so the access yields [undefined]; on
    [undefined] the access throws. *)
Definition get_prop (v : jsval) (p : prop_name) : settled jsval :=
  match v with
  | JUndefined => Rejected (TypeError_read_of_undefined (prop_name_text p))
  | JString _ => Fulfilled JUndefined
  | JObject members => Fulfilled (members p)
  end.

(** A JavaScript string is a sequence of UTF-16 code units.  A well-formed
    one is represented by its UTF-8 encoding, one byte per [ascii], which
    is also what a string literal of this file denotes. *)

(** The UTF-8 encoding of a code point of the Basic Multilingual Plane. *)
Definition utf8 (cp : N) : string :=
  if (cp <? 128)%N then
    String (ascii_of_N cp) EmptyString
  else if (cp <? 2048)%N then
    String (ascii_of_N (192 + cp / 64))
      (String (ascii_of_N (128 + cp mod 64)) EmptyString)
  else
    String (ascii_of_N (224 + cp / 4096))
      (String (ascii_of_N (128 + (cp / 64) mod 64))
         (String (ascii_of_N (128 + cp mod 64)) EmptyString)).

(** The code points that [String.prototype.trim] strips: WhiteSpace (TAB,
    VT, FF, SPACE, NBSP, ZWNBSP and the space separators U+1680,
    U+2000..U+200A, U+202F, U+205F, U+3000) and LineTerminator (LF, CR, LS,
    PS). *)
Definition WhiteSpace : list N :=
  [0x9; 0xB; 0xC; 0x20; 0xA0; 0xFEFF; 0x1680;
   0x2000; 0x2001; 0x2002; 0x2003; 0x2004; 0x2005; 0x2006; 0x2007; 0x2008;
   0x2009; 0x200A; 0x202F; 0x205F; 0x3000]%N.

Definition LineTerminator : list N := [0xA; 0xD; 0x2028; 0x2029]%N.

Definition white_space : list string := map utf8 (WhiteSpace ++ LineTerminator).

(** [s] starts with the bytes of [w]. *)
Fixpoint starts_with (w s : string) : bool :=
  match w with
  | EmptyString => true
  | String a w' =>
      match s with
      | EmptyString => false
      | String b s' => Ascii.eqb a b && starts_with w' s'
      end
  end.

(** The number of bytes of the white space code point that [s] starts
    with; 0 when it starts with none. *)
Definition white_space_prefix (s : string) : nat :=
  match find (fun w => starts_with w s) white_space with
  | Some w => String.length w
  | None => O
  end.

(** [s] consists of white space code points only; [skip] bytes of a code
    point that has been recognised are still to be passed. *)
Fixpoint all_white_space_from (skip : nat) (s : string) : bool :=
  match s with
  | EmptyString => true
  | String _ s' =>
      match skip with
      | S n => all_white_space_from n s'
      | O =>
          match white_space_prefix s with
          | O => false
          | S n => all_white_space_from n s'
          end
      end
  end.

Definition all_white_space (s : string) : bool := all_white_space_from 0 s.

Fixpoint trimStart_from (skip : nat) (s : string) : string :=
  match s with
  | EmptyString => EmptyString
  | String _ s' =>
      match skip with
      | S n => trimStart_from n s'
      | O =>
          match white_space_prefix s with
          | O => s
          | S n => trimStart_from n s'
          end
      end
  end.

Definition trimStart (s : string) : string := trimStart_from 0 s.

(** The string is cut where only white space follows.  (No encoding of a
    white space code point starts with a continuation byte, so the cut
    falls between two code points.) *)
Fixpoint trimEnd (s : string) : string :=
  match s with
  | EmptyString => EmptyString
  | String c s' => if all_white_space s then EmptyString else String c (trimEnd s')
  end.

(** [s.trim()] *)
Definition trim (s : string) : string := trimEnd (trimStart s).

(** [s.split(sep)] for a one-character separator. *)
Fixpoint split (sep : ascii) (s : string) : list string :=
  match s with
  | EmptyString => [EmptyString]
  | String c s' =>
      if Ascii.eqb c sep then EmptyString :: split sep s'
      else match split sep s' with
           | h :: t => String c h :: t
           | [] => [String c EmptyString]
           end
  end.

(** Array indexing [a[i]]: [undefined] out of range. *)
Definition index (a : list string) (i : nat) : jsval :=
  match nth_error a i with
  | Some s => JString s
  | None => JUndefined
  end.

Definition dq : string := String (ascii_of_nat 34) EmptyString.
Definition nl : string := String (ascii_of_nat 10) EmptyString.

End JS.
Import JS.

(* ===================================================================== *)
(** ** The types of the model SDK that the client uses *)
(* ===================================================================== *)

Module GenAI.

Inductive Modality := IMAGE | TEXT | AUDIO.

(** [Blob]: inline binary data (base64 text) with its mime type. *)
Record Blob := { data : jsval; mimeType : string }.

(** [Part]: every member is optional. *)
Record Part := { inlineData : option Blob; text : option string }.

Record Content := { parts : option (list Part) }.

Record Candidate := { content : option Content }.

Record GenerateContentResponse := { candidates : option (list Candidate) }.

Record GenerateContentConfig := { responseModalities : list Modality }.

Record GenerateContentParameters := {
  model : string;
  contents : Content;
  config : option GenerateContentConfig
}.

End GenAI.
Import GenAI.

(** A [File]: an immutable blob.  [dataURL] is what a [FileReader] holds in
    [reader.result] when [readAsDataURL] has ended: the data URL, or [None]
    ([null]) when the read failed. *)
Record File := { name : string; type : string; dataURL : option string }.

(* ===================================================================== *)
(** ** Asynchronous tasks *)
(* ===================================================================== *)

(** The external operations a task can be suspended on. *)
Inductive ext_op :=
| OpRead (f : File)                              (* reader.readAsDataURL(file) *)
| OpReadAll (fs : list File)                     (* the reads of one Promise.all *)
| OpModel (req : GenerateContentParameters).     (* ai.models.generateContent(req) *)

Inductive task (A : Type) : Type :=
| Settled (r : settled A)
| AwaitRead (f : File) (k : option string -> task A)
| AwaitReadAll (fs : list File) (k : list (option string) -> task A)
| AwaitModel (req : GenerateContentParameters)
             (k : settled GenerateContentResponse -> task A).

Definition ret {A} (a : A) : task A := Settled (Fulfilled a).
Definition throw {A} (e : thrown) : task A := Settled (Rejected e).

Fixpoint bind {A B} (t : task A) (f : A -> task B) : task B :=
  match t with
  | Settled (Fulfilled a) => f a
  | Settled (Rejected e) => Settled (Rejected e)
  | AwaitRead file k => AwaitRead file (fun r => bind (k r) f)
  | AwaitReadAll files k => AwaitReadAll files (fun rs => bind (k rs) f)
  | AwaitModel req k => AwaitModel req (fun o => bind (k o) f)
  end.

(** [try { t } catch (error) { handler error }] *)
Fixpoint try_catch {A} (t : task A) (handler : thrown -> task A) : task A :=
  match t with
  | Settled (Fulfilled a) => Settled (Fulfilled a)
  | Settled (Rejected e) => handler e
  | AwaitRead file k => AwaitRead file (fun r => try_catch (k r) handler)
  | AwaitReadAll files k => AwaitReadAll files (fun rs => try_catch (k rs) handler)
  | AwaitModel req k => AwaitModel req (fun o => try_catch (k o) handler)
  end.

(** Lifting a synchronous computation that may throw. *)
Definition lift {A} (r : settled A) : task A := Settled r.

Declare Scope task_scope.
Delimit Scope task_scope with task.
Notation "x <- t ;; k" := (bind t (fun x => k))
  (at level 61, t at next level, right associativity) : task_scope.
Local Open Scope task_scope.

(** [await ai.models.generateContent(req)] *)
Definition generateContent (req : GenerateContentParameters)
  : task GenerateContentResponse :=
  AwaitModel req (fun o => Settled o).

(** The operation a task is suspended on, if any. *)
Definition pending_op {A} (t : task A) : option ext_op :=
  match t with
  | Settled _ => None
  | AwaitRead f _ => Some (OpRead f)
  | AwaitReadAll fs _ => Some (OpReadAll fs)
  | AwaitModel req _ => Some (OpModel req)
  end.

(** Running one task to its end: reads complete with the file's data URL,
    model calls with the next outcome of [os]. *)
Fixpoint exec {A} (t : task A) (os : list (settled GenerateContentResponse))
  : option (settled A) :=
  match t with
  | Settled r => Some r
  | AwaitRead f k => exec (k (dataURL f)) os
  | AwaitReadAll fs k => exec (k (map dataURL fs)) os
  | AwaitModel _ k =>
      match os with
      | [] => None
      | o :: os' => exec (k o) os'
      end
  end.

(* ===================================================================== *)
(** ** Image codec helper and generation client (geminiService.ts) *)
(* ===================================================================== *)

(** The object [{ inlineData: { data, mimeType } }] that both helpers build. *)
Record GenerativePart := { part_inlineData : Blob }.

Definition as_Part (p : GenerativePart) : Part :=
  {| inlineData := Some (part_inlineData p); text := None |}.

Definition text_part (s : string) : Part :=
  {| inlineData := None; text := Some s |}.

(** The [reader.onloadend] handler: what [base64EncodedDataPromise] is
    resolved with.  The promise is created with [resolve] only. *)
Definition onloadend (result : option string) : jsval :=
  match result with
  | Some dataUrl => index (split "," dataUrl) 1
  | None => JString ""
  end.

Definition fileToGenerativePart (file : File) : task GenerativePart :=
  AwaitRead file (fun result =>
    ret {| part_inlineData := {| data := onloadend result; mimeType := type file |} |}).

(** [Promise.all(files.map(fileToGenerativePart))]: every read is started
    at once and none of the member promises can reject, so the promise is
    fulfilled, when the reads have ended, with the parts in the order of
    [files].  With no file there is nothing to wait for. *)
Definition fileToGenerativeParts (files : list File) : task (list GenerativePart) :=
  match files with
  | [] => ret []
  | _ :: _ =>
      AwaitReadAll files (fun results =>
        ret (map (fun fr : File * option string =>
                    {| part_inlineData :=
                         {| data := onloadend (snd fr); mimeType := type (fst fr) |} |})
                 (combine files results)))
  end.

Definition image_model : string := "gemini-2.5-flash-image-preview".

Definition image_and_text : option GenerateContentConfig :=
  Some {| responseModalities := [IMAGE; TEXT] |}.

Definition enhance_prompt : string :=
  "
    You are a silent, AI-powered image enhancement tool. Your ONLY task is to take the provided image of a room and improve its quality.
    - **Actions:** Upscale, sharpen, denoise, and perform professional color and lighting correction.
    - **Strict Rule:** The content, objects, and structure of the room MUST remain IDENTICAL. Do not add, remove, or change anything.
    - **Output:** Your output MUST be ONLY the enhanced image. Do not provide any text, confirmation, or description.
    ".

Definition enhance_request (imagePart : GenerativePart) : GenerateContentParameters :=
  {| model := image_model;
     contents := {| parts := Some [as_Part imagePart; text_part enhance_prompt] |};
     config := image_and_text |}.

(** [part.inlineData?.data] *)
Definition inlineData_data (part : Part) : jsval :=
  match inlineData part with
  | Some blob => data blob
  | None => JUndefined
  end.

(** [response.candidates?.[0]] *)
Definition first_candidate (response : GenerateContentResponse) : option Candidate :=
  match candidates response with
  | Some (c :: _) => Some c
  | _ => None
  end.

(** [response.candidates?.[0]?.content?.parts?.find(part => part.inlineData?.data)] *)
Definition find_image_part (response : GenerateContentResponse) : option Part :=
  match first_candidate response with
  | Some candidate =>
      match content candidate with
      | Some c =>
          match parts c with
          | Some ps => find (fun part => truthy (inlineData_data part)) ps
          | None => None
          end
      | None => None
      end
  | None => None
  end.

Definition enhanceImage (imageFile : File) : task jsval :=
  imagePart <- fileToGenerativePart imageFile ;;
  try_catch
    (response <- generateContent (enhance_request imagePart) ;;
     let imagePartResponse := find_image_part response in
     match imagePartResponse with
     | Some part =>
         if truthy (inlineData_data part) then ret (inlineData_data part)
         else throw (JsError "Model did not return an enhanced image.")
     | None => throw (JsError "Model did not return an enhanced image.")
     end)
    (fun error =>
       originalImagePart <- fileToGenerativePart imageFile ;;
       ret (data (part_inlineData originalImagePart))).

Definition decor_prompt (stylePrompt : string) : string :=
  "
    You are an expert interior designer AI specializing in photo-realistic virtual staging.
    Your task is to integrate the provided decor items into the room image, following the user's style prompt precisely.

    **Crucial Rule: You MUST NOT alter the room's fundamental structure.** 
    - Do NOT change the position of walls, doors, windows, or any permanent fixtures.
    - Do NOT change the flooring or ceiling.
    - The room's layout, perspective, and architecture must remain identical to the original "
    ++ dq
    ++ "room image"
    ++ dq
    ++ ".
    - Your role is to add or replace movable decor items, not to remodel the space.

    Based on the user's style prompt of "
    ++ dq
    ++ stylePrompt
    ++ dq
    ++ ", realistically place the provided decor items into the room. 
    
    **Output ONLY the new image.** Do not output any text or description.
  ".

Definition decor_request (roomImagePart : GenerativePart)
    (decorImageParts : list GenerativePart) (stylePrompt : string)
  : GenerateContentParameters :=
  {| model := image_model;
     contents :=
       {| parts := Some ([text_part "Here is the image of the room:";
                          as_Part roomImagePart;
                          text_part "Here are the decor items to incorporate:"]
                         ++ map as_Part decorImageParts
                         ++ [text_part (decor_prompt stylePrompt)]) |};
     config := image_and_text |}.

(** The [for (const part of ...)] loop with its [break]: the data of the
    first part that has an [inlineData] member; [image] is left as it was
    when there is none. *)
Fixpoint scan_parts (ps : list Part) (image : jsval) : jsval :=
  match ps with
  | [] => image
  | part :: rest =>
      match inlineData part with
      | Some blob => data blob
      | None => scan_parts rest image
      end
  end.

(** [candidate.content.parts] is read without optional chaining, and the
    loop iterates over it. *)
Definition scan_candidate (candidate : Candidate) (image : jsval) : settled jsval :=
  match content candidate with
  | None => Rejected (TypeError_read_of_undefined "parts")
  | Some c =>
      match parts c with
      | None => Rejected (TypeError_not_iterable "candidate.content.parts")
      | Some ps => Fulfilled (scan_parts ps image)
      end
  end.

Definition no_image_message : string :=
  "The model did not return an image. Please try refining your prompt.".

Definition generateDecorIdeas (roomImage : File) (decorImages : list File)
    (stylePrompt : string) : task jsval :=
  roomImagePart <- fileToGenerativePart roomImage ;;
  decorImageParts <- fileToGenerativeParts decorImages ;;
  try_catch
    (response <- generateContent
                   (decor_request roomImagePart decorImageParts stylePrompt) ;;
     let candidate := first_candidate response in
     image <- match candidate with
              | Some c => lift (scan_candidate c (JString ""))
              | None => ret (JString "")
              end ;;
     if negb (truthy image) then throw (JsError no_image_message)
     else ret image)
    (fun error =>
       match error with
       | JsError message => throw (JsError ("Failed to generate design: " ++ message))
       | JsNonError => throw (JsError "An unknown error occurred while generating the design.")
       end).

(* ===================================================================== *)
(** ** The orchestrator (App.tsx) *)
(* ===================================================================== *)

Record Result := { enhancedBeforeImage : jsval; idea : jsval }.

(** The component state that [handleGenerate] reads and writes. *)
Record AppState := {
  roomImages : list File;
  decorImages : list File;
  stylePrompt : string;
  results : list Result;
  isLoading : bool;
  error : option string
}.

Definition setError (s : AppState) (e : option string) : AppState :=
  {| roomImages := roomImages s; decorImages := decorImages s;
     stylePrompt := stylePrompt s; results := results s;
     isLoading := isLoading s; error := e |}.

Definition setResults (s : AppState) (rs : list Result) : AppState :=
  {| roomImages := roomImages s; decorImages := decorImages s;
     stylePrompt := stylePrompt s; results := rs;
     isLoading := isLoading s; error := error s |}.

Definition setIsLoading (s : AppState) (b : bool) : AppState :=
  {| roomImages := roomImages s; decorImages := decorImages s;
     stylePrompt := stylePrompt s; results := results s;
     isLoading := b; error := error s |}.

(** The async arrow function that [roomImages.map] applies to each room
    image. *)
Definition generationPromise (decorImages : list File) (stylePrompt : string)
    (roomImage : File) : task Result :=
  enhancedBeforeImage <- enhanceImage roomImage ;;
  idea <- generateDecorIdeas roomImage decorImages stylePrompt ;;
  ret {| enhancedBeforeImage := enhancedBeforeImage; idea := idea |}.

(** [Promise.all(ps)] as seen from the current states of its members:
    rejected as soon as a member is rejected, fulfilled with the values in
    the order of [ps] when every member is fulfilled, pending otherwise. *)
Fixpoint Promise_all {A} (ps : list (task A)) : option (settled (list A)) :=
  match ps with
  | [] => Some (Fulfilled [])
  | p :: ps' =>
      match p, Promise_all ps' with
      | Settled (Rejected e), _ => Some (Rejected e)
      | _, Some (Rejected e) => Some (Rejected e)
      | Settled (Fulfilled a), Some (Fulfilled l) => Some (Fulfilled (a :: l))
      | _, _ => None
      end
  end.

(** What the event loop records. *)
Inductive event :=
| Issued (op : ext_op)              (* a chain suspended on [op] *)
| Completed (op : ext_op)           (* the environment completed [op] *)
| SettledWith (r : settled Result). (* the chain's promise settled *)

(** A run of [handleGenerate]: the component state, the promises that
    [roomImages.map] created (one chain per room image), whether
    [handleGenerate] is suspended at [await Promise.all], and the log of
    events, each with the index of its chain. *)
Record Run := {
  state : AppState;
  generationPromises : list (task Result);
  awaiting : bool;
  log : list (nat * event)
}.

(** [err instanceof Error ? err.message : 'An unknown error occurred.'] *)
Definition error_text (err : thrown) : string :=
  match err with
  | JsError message => message
  | JsNonError => "An unknown error occurred."
  end.

(** The rest of [handleGenerate] once [Promise.all] has settled: the end of
    the [try] block, or [catch], and then [finally]. *)
Definition after_await (s : AppState) (r : settled (list Result)) : AppState :=
  let s' := match r with
            | Fulfilled generatedResults => setResults s generatedResults
            | Rejected err => setError s (Some (error_text err))
            end in
  setIsLoading s' false.

(** The microtasks that follow an event: if [handleGenerate] is waiting and
    [Promise.all] has settled, it resumes. *)
Definition poll (run : Run) : Run :=
  if awaiting run then
    match Promise_all (generationPromises run) with
    | Some r =>
        {| state := after_await (state run) r;
           generationPromises := generationPromises run;
           awaiting := false;
           log := log run |}
    | None => run
    end
  else run.

(** The log entry of a chain that has run up to its next suspension. *)
Definition announce (i : nat) (t : task Result) : list (nat * event) :=
  match t with
  | Settled r => [(i, SettledWith r)]
  | _ => match pending_op t with
         | Some op => [(i, Issued op)]
         | None => []
         end
  end.

Fixpoint announce_all (i : nat) (ts : list (task Result)) : list (nat * event) :=
  match ts with
  | [] => []
  | t :: ts' => announce i t ++ announce_all (S i) ts'
  end.

Definition handleGenerate (s : AppState) : Run :=
  if (List.length (roomImages s) =? 0)%nat then
    {| state := setError s (Some "Please upload at least one image of your room.");
       generationPromises := []; awaiting := false; log := [] |}
  else if String.eqb (trim (stylePrompt s)) "" then
    {| state := setError s (Some "Please provide a style prompt.");
       generationPromises := []; awaiting := false; log := [] |}
  else
    let s1 := setResults (setError (setIsLoading s true) None) [] in
    let promises :=
      map (generationPromise (decorImages s) (stylePrompt s)) (roomImages s) in
    poll {| state := s1; generationPromises := promises; awaiting := true;
            log := announce_all 0 promises |}.

(** What the environment delivers to a suspended chain.  For a chain
    suspended on the reads of one [Promise.all], [ReadEnded] stands for the
    [loadend] of the last of these reads: the earlier ones resume
    nothing. *)
Inductive reply :=
| ReadEnded                                          (* [onloadend] fires *)
| ModelSettled (o : settled GenerateContentResponse).

Definition resume {A} (t : task A) (r : reply) : option (task A) :=
  match t, r with
  | AwaitRead f k, ReadEnded => Some (k (dataURL f))
  | AwaitReadAll fs k, ReadEnded => Some (k (map dataURL fs))
  | AwaitModel _ k, ModelSettled o => Some (k o)
  | _, _ => None
  end.

Fixpoint update {A} (i : nat) (x : A) (l : list A) : list A :=
  match l, i with
  | [], _ => []
  | _ :: l', O => x :: l'
  | y :: l', S i' => y :: update i' x l'
  end.

(** One turn of the event loop: the pending operation of chain [i]
    completes with [r], the chain runs to its next suspension, and the
    microtasks run.  Nothing can be delivered to a chain that does not wait
    for it. *)
Definition deliver (i : nat) (r : reply) (run : Run) : option Run :=
  match nth_error (generationPromises run) i with
  | None => None
  | Some t =>
      match pending_op t, resume t r with
      | Some op, Some t' =>
          Some (poll {| state := state run;
                        generationPromises := update i t' (generationPromises run);
                        awaiting := awaiting run;
                        log := log run ++ (i, Completed op) :: announce i t' |})
      | _, _ => None
      end
  end.

Definition schedule := list (nat * reply).

Fixpoint deliver_all (sched : schedule) (run : Run) : option Run :=
  match sched with
  | [] => Some run
  | (i, r) :: sched' =>
      match deliver i r run with
      | Some run' => deliver_all sched' run'
      | None => None
      end
  end.

(** A click on "Generate Designs" in state [s], followed by the
    completions of [sched]. *)
Definition run_handleGenerate (s : AppState) (sched : schedule) : option Run :=
  deliver_all sched (handleGenerate s).

(* ===================================================================== *)
(** ** The comparison compositor (createComparisonImage of the result card) *)
(* ===================================================================== *)

Module Compositor.

(** JavaScript numbers are IEEE 754 binary64 values. *)
Definition number := spec_float.
Definition prec : Z := 53.
Definition emax : Z := 1024.

Definition of_Z (n : Z) : number := binary_normalize prec emax n 0 false.
Definition mul : number -> number -> number := SFmul prec emax.
Definition div : number -> number -> number := SFdiv prec emax.
Definition add : number -> number -> number := SFadd prec emax.

(** A decoded [Image] element: its [width] and [height] are integers
    ([unsigned long] attributes, read as numbers without a fraction). *)
Record HTMLImage := { width : Z; height : Z }.

Inductive source := BEFORE | AFTER.

(** The calls on the 2D context, in the order they are made. *)
Inductive draw_op :=
| DrawImage (img : source) (dx dy dw dh : number)
| FillRect (fillStyle : string) (x y w h : number)
| FillText (fillStyle : string) (label : string) (x y : number).

Record Canvas := {
  canvas_width : Z;
  canvas_height : Z;
  ops : list draw_op
}.

(** Assigning a number to [canvas.width], an [unsigned long]: NaN and the
    infinities become 0, any other value is truncated toward zero and
    reduced modulo 2^32.  (A canvas takes dimensions up to 2^31 - 1; the
    properties below are stated in that range.) *)
Definition to_unsigned_long (x : number) : Z :=
  match x with
  | S754_finite s m e =>
      let t := if (0 <=? e)%Z then (Zpos m * 2 ^ e)%Z
               else (Zpos m / 2 ^ (- e))%Z in
      ((if s then - t else t) mod 2 ^ 32)%Z
  | _ => 0%Z
  end.

Definition label_box : string := "rgba(0, 0, 0, 0.6)".

(** The body of [onImageLoad] when [loadedCount] has reached 2.
    [has_context] tells whether [canvas.getContext('2d')] returned a
    context. *)
Definition onImageLoad (before after : HTMLImage) (has_context : bool)
  : settled Canvas :=
  let height := Z.max (height before) (height after) in
  let beforeScaledWidth :=
    mul (of_Z (width before)) (div (of_Z height) (of_Z (Compositor.height before))) in
  let afterScaledWidth :=
    mul (of_Z (width after)) (div (of_Z height) (of_Z (Compositor.height after))) in
  if negb has_context then Rejected (JsError "Failed to get canvas context.")
  else
    Fulfilled
      {| canvas_width := to_unsigned_long (add beforeScaledWidth afterScaledWidth);
         canvas_height := height;
         ops :=
           [ DrawImage BEFORE (of_Z 0) (of_Z 0) beforeScaledWidth (of_Z height);
             DrawImage AFTER beforeScaledWidth (of_Z 0) afterScaledWidth (of_Z height);
             FillRect label_box (of_Z 0) (of_Z (height - 40)) (of_Z 100) (of_Z 40);
             FillText "white" "BEFORE" (of_Z 50) (of_Z (height - 20));
             FillRect label_box beforeScaledWidth (of_Z (height - 40)) (of_Z 90) (of_Z 40);
             FillText "white" "AFTER" (add beforeScaledWidth (of_Z 45))
               (of_Z (height - 20)) ] |}.

(** [before] and [after] are the decoded images, [None] for an image whose
    [onerror] fires: the promise is then rejected with the error event. *)
Definition createComparisonImage (before after : option HTMLImage)
    (has_context : bool) : settled Canvas :=
  match before, after with
  | Some b, Some a => onImageLoad b a has_context
  | _, _ => Rejected JsNonError
  end.

(** The width an image has when it is rescaled in proportion to the
    height [H], as an exact rational. *)
Definition proportional_width (img : HTMLImage) (H : Z) : Q :=
  (inject_Z (width img) * inject_Z H / inject_Z (height img))%Q.

(** The rational that a finite number denotes. *)
Definition number_value (x : number) : Q :=
  match x with
  | S754_finite s m e =>
      let v := (inject_Z (Zpos m) * Qpower 2 e)%Q in
      if s then Qopp v else v
  | _ => 0%Q
  end.

(** The scaled width as the code computes it. *)
Definition scaled_width (img : HTMLImage) (H : Z) : number :=
  mul (of_Z (width img)) (div (of_Z H) (of_Z (height img))).

(** An image that has been decoded: both dimensions are positive and fit a
    canvas dimension. *)
Definition decodable (img : HTMLImage) : Prop :=
  (0 < width img < 2 ^ 31 /\ 0 < height img < 2 ^ 31)%Z.

End Compositor.

(* ===================================================================== *)
(** ** Vocabulary of the specification *)
(* ===================================================================== *)

(** A string that consists of white space only. *)
Definition blank (s : string) : bool := all_white_space s.

Fixpoint comma_free (s : string) : bool :=
  match s with
  | EmptyString => true
  | String c s' => negb (Ascii.eqb c ",") && comma_free s'
  end.

(** The transport payload of a file: what the codec helper puts in
    [inlineData.data]. *)
Definition original_payload (file : File) : jsval := onloadend (dataURL file).

(** The parts of the first candidate of a response, none when a level is
    absent. *)
Definition response_parts (response : GenerateContentResponse) : list Part :=
  match first_candidate response with
  | Some candidate =>
      match content candidate with
      | Some c => match parts c with Some ps => ps | None => [] end
      | None => []
      end
  | None => []
  end.

(** A part that carries image data / that has an [inlineData] member. *)
Definition has_image_data (part : Part) : bool := truthy (inlineData_data part).

Definition image_bearing (part : Part) : bool :=
  match inlineData part with Some _ => true | None => false end.

(** The enhancement call raised an error, or its response has no part with
    image data. *)
Definition enhancement_failed (o : settled GenerateContentResponse) : Prop :=
  match o with
  | Rejected _ => True
  | Fulfilled response =>
      forall part, In part (response_parts response) -> has_image_data part = false
  end.

(** The errors that [generateDecorIdeas] raises. *)
Inductive GenerationError : thrown -> Prop :=
| GenerationError_wrapped (message : string) :
    GenerationError (JsError ("Failed to generate design: " ++ message))
| GenerationError_unknown :
    GenerationError (JsError "An unknown error occurred while generating the design.").

(** The messages of the two validation failures. *)
Inductive ValidationError : string -> Prop :=
| ValidationError_no_room_images :
    ValidationError "Please upload at least one image of your room."
| ValidationError_empty_prompt :
    ValidationError "Please provide a style prompt.".

(** A design idea as the data model describes it: a description string and
    an after-image. *)
Definition is_DesignIdea (v : jsval) : Prop :=
  exists d i, get_prop v PDescription = Fulfilled (JString d)
              /\ get_prop v PImage = Fulfilled (JString i).

(** The props that [App] passes to a result card. *)
Record ResultCardProps := {
  card_description : jsval;
  beforeImage : jsval;
  afterImage : jsval
}.

Definition ResultCard_props (result : Result) : settled ResultCardProps :=
  match get_prop (idea result) PDescription, get_prop (idea result) PImage with
  | Fulfilled d, Fulfilled i =>
      Fulfilled {| card_description := d;
                   beforeImage := enhancedBeforeImage result;
                   afterImage := i |}
  | Rejected e, _ => Rejected e
  | _, Rejected e => Rejected e
  end.

(** The completions of a schedule that go to chain [i], the outcomes of the
    model calls among them, and the events of a log that belong to chain
    [i]. *)
Definition replies_to (i : nat) (sched : schedule) : list reply :=
  map snd (filter (fun c => (fst c =? i)%nat) sched).

Definition outcomes (rs : list reply) : list (settled GenerateContentResponse) :=
  flat_map (fun r => match r with ModelSettled o => [o] | ReadEnded => [] end) rs.

Definition events_of (i : nat) (l : list (nat * event)) : list event :=
  map snd (filter (fun c => (fst c =? i)%nat) l).

(** The error of the first chain that was rejected. *)
Fixpoint first_rejection (l : list (nat * event)) : option thrown :=
  match l with
  | [] => None
  | (_, SettledWith (Rejected e)) :: _ => Some e
  | _ :: l' => first_rejection l'
  end.

(** One chain run on its own: the chain after the replies [rs], and the
    events it logs meanwhile. *)
Fixpoint solo_state (t : task Result) (rs : list reply) : option (task Result) :=
  match rs with
  | [] => Some t
  | r :: rs' =>
      match pending_op t, resume t r with
      | Some _, Some t' => solo_state t' rs'
      | _, _ => None
      end
  end.

Definition announce1 (t : task Result) : list event := map snd (announce 0 t).

Fixpoint solo_log (t : task Result) (rs : list reply) : list event :=
  match rs with
  | [] => []
  | r :: rs' =>
      match pending_op t, resume t r with
      | Some op, Some t' => Completed op :: announce1 t' ++ solo_log t' rs'
      | _, _ => []
      end
  end.

Definition is_enhance_request (req : GenerateContentParameters) : Prop :=
  exists imagePart, req = enhance_request imagePart.

Definition is_decor_request (req : GenerateContentParameters) : Prop :=
  exists roomImagePart decorImageParts prompt,
    req = decor_request roomImagePart decorImageParts prompt.

(** The input passes the two checks at the head of [handleGenerate]. *)
Definition passes_validation (s : AppState) : bool :=
  negb (List.length (roomImages s) =? 0)%nat
  && negb (String.eqb (trim (stylePrompt s)) "").

(** No promise of the pool is rejected. *)
Definition none_rejected {A} (ps : list (task A)) : Prop :=
  forall e, ~ In (Settled (Rejected e)) ps.

(** What holds of a run that passed validation, at every turn of the event
    loop. *)
Definition run_invariant (run : Run) : Prop :=
  if awaiting run then
    results (state run) = [] /\ error (state run) = None
    /\ isLoading (state run) = true
    /\ Promise_all (generationPromises run) = None
    /\ first_rejection (log run) = None
  else
    isLoading (state run) = false
    /\ ((exists vs, generationPromises run = map (fun v => Settled (Fulfilled v)) vs
                    /\ results (state run) = vs /\ error (state run) = None
                    /\ first_rejection (log run) = None)
        \/ (exists e, first_rejection (log run) = Some e
                      /\ error (state run) = Some (error_text e)
                      /\ results (state run) = []
                      /\ In (Settled (Rejected e)) (generationPromises run))).

(** The claim that enhancement and design generation of one room image are
    in flight together: in some run the generation request of chain [i] is
    issued although no enhancement request of chain [i] has completed. *)
Definition issued_before_enhancement_completed (s : AppState) (i : nat) : Prop :=
  exists sched run pre post req,
    run_handleGenerate s sched = Some run
    /\ log run = pre ++ (i, Issued (OpModel req)) :: post
    /\ is_decor_request req
    /\ ~ (exists req', is_enhance_request req'
                       /\ In (i, Completed (OpModel req')) pre).

(** A response in which every level down to the parts is present. *)
Definition well_formed (response : GenerateContentResponse) : Prop :=
  match first_candidate response with
  | Some candidate =>
      exists c ps, content candidate = Some c /\ parts c = Some ps
  | None => True
  end.

(* ===================================================================== *)
(** ** Scenarios *)
(* ===================================================================== *)

Module Scenario.

Definition roomA : File :=
  {| name := "a.png"; type := "image/png";
     dataURL := Some "data:image/png;base64,QUFB" |}.

Definition roomB : File :=
  {| name := "b.jpg"; type := "image/jpeg";
     dataURL := Some "data:image/jpeg;base64,QkJC" |}.

Definition unreadable : File :=
  {| name := "gone.png"; type := "image/png"; dataURL := None |}.

(** A response with a text part and then an image part. *)
Definition image_response (base64 : string) : GenerateContentResponse :=
  {| candidates := Some
       [ {| content := Some
              {| parts := Some
                   [ {| inlineData := None; text := Some "Here you go." |};
                     {| inlineData := Some {| data := JString base64;
                                              mimeType := "image/png" |};
                        text := None |} ] |} |} ] |}.

Definition text_only_response : GenerateContentResponse :=
  {| candidates := Some
       [ {| content := Some
              {| parts := Some
                   [ {| inlineData := None; text := Some "Sorry." |} ] |} |} ] |}.

Definition earlier_result : Result :=
  {| enhancedBeforeImage := JString "T0xE"; idea := JString "SURFQQ==" |}.

(** Two room images, no decor, prompt "cozy"; an earlier batch has left a
    result on display. *)
Definition cozy : AppState :=
  {| roomImages := [roomA; roomB]; decorImages := []; stylePrompt := "cozy";
     results := [earlier_result]; isLoading := false; error := None |}.

Definition minimalist : AppState :=
  {| roomImages := [roomA]; decorImages := []; stylePrompt := "minimalist";
     results := []; isLoading := false; error := None |}.

(** The same with the prompt replaced by white space. *)
Definition blank_prompt : AppState :=
  {| roomImages := [roomA; roomB]; decorImages := [];
     stylePrompt := "  " ++ nl;
     results := [earlier_result]; isLoading := false; error := None |}.

(** The same with a prompt of an ideographic space (U+3000), an em space
    (U+2003) and a no-break space. *)
Definition wide_space_prompt : AppState :=
  {| roomImages := [roomA; roomB]; decorImages := [];
     stylePrompt := utf8 0x3000 ++ utf8 0x2003 ++ utf8 0xA0;
     results := [earlier_result]; isLoading := false; error := None |}.

Definition no_rooms : AppState :=
  {| roomImages := []; decorImages := [roomB]; stylePrompt := "cozy";
     results := []; isLoading := false; error := None |}.

(** Chain 1 (room B) runs to its end before chain 0 (room A) gets its
    first reply; every call succeeds. *)
Definition B_before_A : schedule :=
  [ (1, ReadEnded); (1, ModelSettled (Fulfilled (image_response "RUI=")));
    (1, ReadEnded); (1, ModelSettled (Fulfilled (image_response "REI=")));
    (0, ReadEnded); (0, ModelSettled (Fulfilled (image_response "RUE=")));
    (0, ReadEnded); (0, ModelSettled (Fulfilled (image_response "REE="))) ]%nat.

(** Chain 0 (room A) succeeds, then the generation call of chain 1
    (room B) returns no image. *)
Definition A_succeeds_B_fails : schedule :=
  [ (0, ReadEnded); (1, ReadEnded);
    (0, ModelSettled (Fulfilled (image_response "RUE=")));
    (1, ModelSettled (Rejected (JsError "503")));
    (0, ReadEnded); (1, ReadEnded);
    (0, ModelSettled (Fulfilled (image_response "REE=")));
    (1, ReadEnded);
    (1, ModelSettled (Fulfilled text_only_response)) ]%nat.

(** Room A alone, both calls succeed. *)
Definition A_alone : schedule :=
  [ (0, ReadEnded); (0, ModelSettled (Fulfilled (image_response "RUE=")));
    (0, ReadEnded); (0, ModelSettled (Fulfilled (image_response "REE="))) ]%nat.

Definition tall : Compositor.HTMLImage :=
  {| Compositor.width := 1; Compositor.height := 3 |}.

Definition short : Compositor.HTMLImage :=
  {| Compositor.width := 1; Compositor.height := 2 |}.

(** A before image of 27 x 3 beside an after image of 1 x 13. *)
Definition wide : Compositor.HTMLImage :=
  {| Compositor.width := 27; Compositor.height := 3 |}.

Definition narrow : Compositor.HTMLImage :=
  {| Compositor.width := 1; Compositor.height := 13 |}.

(** Two photographs of the same height. *)
Definition photo_before : Compositor.HTMLImage :=
  {| Compositor.width := 1024; Compositor.height := 768 |}.

Definition photo_after : Compositor.HTMLImage :=
  {| Compositor.width := 1365; Compositor.height := 768 |}.

End Scenario.

(* ===================================================================== *)
(** ** Derived descriptions used in the proofs *)
(* ===================================================================== *)

(** [exec] that also returns the outcomes it has not consumed. *)
Fixpoint exec_rest {A} (t : task A) (os : list (settled GenerateContentResponse))
  : option (settled A * list (settled GenerateContentResponse)) :=
  match t with
  | Settled r => Some (r, os)
  | AwaitRead f k => exec_rest (k (dataURL f)) os
  | AwaitReadAll fs k => exec_rest (k (map dataURL fs)) os
  | AwaitModel _ k =>
      match os with
      | [] => None
      | o :: os' => exec_rest (k o) os'
      end
  end.

(** What [enhanceImage] settles with, given the outcome of its model call. *)
Definition enhance_result (imageFile : File) (o : settled GenerateContentResponse)
  : jsval :=
  match o with
  | Fulfilled response =>
      match find_image_part response with
      | Some part => inlineData_data part
      | None => original_payload imageFile
      end
  | Rejected _ => original_payload imageFile
  end.

(** What [generateDecorIdeas] settles with, given the outcome of its model
    call. *)
Definition decor_result (o : settled GenerateContentResponse) : settled jsval :=
  match o with
  | Rejected (JsError message) =>
      Rejected (JsError ("Failed to generate design: " ++ message))
  | Rejected JsNonError =>
      Rejected (JsError "An unknown error occurred while generating the design.")
  | Fulfilled response =>
      match first_candidate response with
      | None => Rejected (JsError ("Failed to generate design: " ++ no_image_message))
      | Some candidate =>
          match scan_candidate candidate (JString "") with
          | Rejected (JsError message) =>
              Rejected (JsError ("Failed to generate design: " ++ message))
          | Rejected JsNonError =>
              Rejected (JsError "An unknown error occurred while generating the design.")
          | Fulfilled image =>
              if truthy image then Fulfilled image
              else Rejected (JsError ("Failed to generate design: " ++ no_image_message))
          end
      end
  end.

(** What the chain of a room image settles with, given the value of its
    enhancement and the outcome of its generation call. *)
Definition chain_result (enhanced : jsval) (o2 : settled GenerateContentResponse)
  : settled Result :=
  match decor_result o2 with
  | Fulfilled idea => Fulfilled {| enhancedBeforeImage := enhanced; idea := idea |}
  | Rejected e => Rejected e
  end.

(** The second half of a chain: design generation, then the result. *)
Definition generation_phase (roomImage : File) (decorImages : list File)
    (prompt : string) (enhanced : jsval) : task Result :=
  bind (generateDecorIdeas roomImage decorImages prompt)
       (fun idea => ret {| enhancedBeforeImage := enhanced; idea := idea |}).

(** A settled chain is in the log. *)
Definition settled_logged (run : Run) : Prop :=
  forall i r, nth_error (generationPromises run) i = Some (Settled r) ->
              In (i, SettledWith r) (log run).

(** The number 1. *)
Definition number_one : Compositor.number :=
  S754_finite false 4503599627370496 (-52).

(** The number that a positive integer below 2^53 is converted to: its
    binary digits, padded with zero bits to a mantissa of 53 digits. *)
Definition canonical (p : positive) : Compositor.number :=
  match (Zpos (digits2_pos p) - 53)%Z with
  | Zneg k => S754_finite false (Pos.iter xO p k) (Zpos (digits2_pos p) - 53)
  | _ => S754_finite false p 0
  end.

(* ===================================================================== *)
(** ** The decor image list (components/DecorImageManager.tsx) *)
(* ===================================================================== *)

Module DecorImageManager.

Section Selection.

(** [file.size], in bytes. *)
Variable size : File -> Z.

(** The predicate of [files.filter(...)] in [handleFileChange]. *)
Definition validFile (file : File) : bool :=
  existsb (fun t => String.eqb t (type file)) ["image/jpeg"; "image/png"; "image/webp"]
  && (size file <=? 4 * 1024 * 1024)%Z.

(** [handleFileChange]: [target_files] is [event.target.files] ([None] for
    [null]); the result is the list that [onImagesChange] is called with,
    [None] when it is not called. *)
Definition handleFileChange (images : list File) (target_files : option (list File))
  : option (list File) :=
  let files := match target_files with Some fs => fs | None => [] end in
  if negb (List.length files =? 0)%nat then
    let validFiles := filter validFile files in
    Some (images ++ validFiles)
  else None.

(** [l.filter((_, i) => keep i)], the first element having index [i]. *)
Fixpoint filter_index {A} (keep : nat -> bool) (i : nat) (l : list A) : list A :=
  match l with
  | [] => []
  | x :: l' =>
      if keep i then x :: filter_index keep (S i) l' else filter_index keep (S i) l'
  end.

(** [handleRemoveImage]: the list that [onImagesChange] is called with. *)
Definition handleRemoveImage (images : list File) (index : nat) : list File :=
  let newImages := filter_index (fun i => negb (i =? index)%nat) 0 images in
  newImages.

(** What the user does with the component; [App] passes [setDecorImages]
    as [onImagesChange], so the list a handler sends is the [images] of the
    next render. *)
Inductive action :=
| Select (target_files : option (list File))
| Remove (index : nat).

Definition perform (images : list File) (a : action) : list File :=
  match a with
  | Select target_files =>
      match handleFileChange images target_files with
      | Some newImages => newImages
      | None => images
      end
  | Remove index => handleRemoveImage images index
  end.

End Selection.

(** The preview effect.  An object URL is identified by the serial number
    of the [URL.createObjectURL] call that made it; the document keeps the
    URLs that have been created and not revoked. *)
Record UrlStore := { next_url : nat; live_urls : list nat }.

Definition createObjectURL (file : File) (store : UrlStore) : nat * UrlStore :=
  (next_url store,
   {| next_url := S (next_url store);
      live_urls := live_urls store ++ [next_url store] |}).

(** Revoking a URL that is not registered does nothing. *)
Definition revokeObjectURL (url : nat) (store : UrlStore) : UrlStore :=
  {| next_url := next_url store;
     live_urls := List.remove Nat.eq_dec url (live_urls store) |}.

(** [images.map(file => URL.createObjectURL(file))] *)
Fixpoint createObjectURLs (images : list File) (store : UrlStore)
  : list nat * UrlStore :=
  match images with
  | [] => ([], store)
  | file :: rest =>
      let (url, store1) := createObjectURL file store in
      let (urls, store2) := createObjectURLs rest store1 in
      (url :: urls, store2)
  end.

(** [newPreviews.forEach(url => URL.revokeObjectURL(url))] *)
Definition revokeObjectURLs (urls : list nat) (store : UrlStore) : UrlStore :=
  fold_left (fun st url => revokeObjectURL url st) urls store.

(** The mounted component: the [previews] state, the URLs that the cleanup
    function of the last effect holds, and the document's URL store. *)
Record Mounted := {
  previews : list nat;
  newPreviews : list nat;
  store : UrlStore
}.

(** The body of the effect. *)
Definition effect (images : list File) (st : UrlStore) : Mounted :=
  let (urls, st') := createObjectURLs images st in
  {| previews := urls; newPreviews := urls; store := st' |}.

Definition cleanup (m : Mounted) : UrlStore := revokeObjectURLs (newPreviews m) (store m).

(** The first render, a render with a new [images] array (the cleanup of
    the previous effect runs, then the effect), and the unmount. *)
Definition mount (images : list File) (st : UrlStore) : Mounted := effect images st.

Definition rerender (m : Mounted) (images : list File) : Mounted :=
  effect images (cleanup m).

Definition unmount (m : Mounted) : UrlStore := cleanup m.

End DecorImageManager.

(* ===================================================================== *)
(** ** The narration voice (hooks/useAudioPlayer.ts) *)
(* ===================================================================== *)

Module Speech.

Record SpeechSynthesisVoice := { lang : string; name : string }.

(** [s.startsWith(p)] and [s.includes(sub)] *)
Definition startsWith (s p : string) : bool := String.prefix p s.

Fixpoint includes (s sub : string) : bool :=
  String.prefix sub s
  || match s with
     | EmptyString => false
     | String _ s' => includes s' sub
     end.

(** The predicates of the three [voices.find(...)] calls. *)
Definition google_female (voice : SpeechSynthesisVoice) : bool :=
  startsWith (lang voice) "en-US" && includes (name voice) "Google"
  && includes (name voice) "Female".

Definition named_female (voice : SpeechSynthesisVoice) : bool :=
  startsWith (lang voice) "en-US"
  && (includes (name voice) "Zira" || includes (name voice) "Samantha"
      || includes (name voice) "Female").

Definition en_US (voice : SpeechSynthesisVoice) : bool :=
  startsWith (lang voice) "en-US".

(** [a || b] on values that are a voice object or [undefined]. *)
Definition or_else {A} (a b : option A) : option A :=
  match a with Some _ => a | None => b end.

(** [loadVoices]: the [selectedVoice] state afterwards, given the list
    that [speechSynthesis.getVoices()] returns. *)
Definition loadVoices (voices : list SpeechSynthesisVoice)
    (selectedVoice : option SpeechSynthesisVoice) : option SpeechSynthesisVoice :=
  if (0 <? List.length voices)%nat then
    let cheerfulVoice :=
      or_else (find google_female voices)
        (or_else (find named_female voices)
           (or_else (find en_US voices) (nth_error voices 0))) in
    cheerfulVoice
  else selectedVoice.

(** [x] is the first element of [l] that satisfies [p]. *)
Definition first_such {A} (p : A -> bool) (l : list A) (x : A) : Prop :=
  exists pre post,
    l = pre ++ x :: post /\ p x = true /\ forall y, In y pre -> p y = false.

End Speech.

(* ===================================================================== *)
(** ** The commentary call (geminiService.ts) *)
(* ===================================================================== *)

Definition base64ToGenerativePart (base64 : string) (mimeType : string)
  : GenerativePart :=
  {| part_inlineData := {| data := JString base64; mimeType := mimeType |} |}.

Definition commentary_prompt (stylePrompt : string) : string :=
  "
      You are an expert interior design commentator.
      You will be given a "
    ++ dq
    ++ "before"
    ++ dq
    ++ " image of a room and an "
    ++ dq
    ++ "after"
    ++ dq
    ++ " image with new decor.
      The user's style goal was: "
    ++ dq
    ++ stylePrompt
    ++ dq
    ++ ".

      Your task is to provide a brief, cheerful audio commentary (around 3-4 sentences) that compares the two images.
      - **Start** by acknowledging the transformation.
      - **Highlight** 2-3 specific, positive changes (e.g., "
    ++ dq
    ++ "Notice how the new velvet armchair adds a touch of luxury..."
    ++ dq
    ++ " or "
    ++ dq
    ++ "The addition of plants brings so much life and color to the space."
    ++ dq
    ++ ").
      - **Conclude** with a summary of the new mood or feeling of the room.
      - Keep the tone inspiring and friendly. Do not use markdown or formatting.
    ".

Definition commentary_request (originalImagePart generatedImagePart : GenerativePart)
    (stylePrompt : string) : GenerateContentParameters :=
  {| model := "gemini-2.5-flash";
     contents :=
       {| parts := Some [text_part "Before image:";
                         as_Part originalImagePart;
                         text_part "After image:";
                         as_Part generatedImagePart;
                         text_part (commentary_prompt stylePrompt)] |};
     config := None |}.

Definition fallback_commentary : string :=
  "Here is your beautiful new room design, created just for you!".

Section Commentary.

(** The [text] accessor of the SDK's response class. *)
Variable response_text : GenerateContentResponse -> jsval.

Definition generateCommentary (originalImage : File) (generatedImage : string)
    (stylePrompt : string) : task jsval :=
  originalImagePart <- fileToGenerativePart originalImage ;;
  let generatedImagePart := base64ToGenerativePart generatedImage "image/png" in
  try_catch
    (response <- generateContent
                   (commentary_request originalImagePart generatedImagePart stylePrompt) ;;
     ret (response_text response))
    (fun error => ret (JString fallback_commentary)).

End Commentary.

(* ===================================================================== *)
(** ** The downloads of the result card *)
(* ===================================================================== *)

Module ResultCard.

Import Compositor.

(** The two image elements of [createComparisonImage] and the events they
    fire.  The promise is settled by the first [resolve] or [reject]; a
    later one does nothing. *)
Inductive image_event :=
| Onload (img : source)
| Onerror (img : source).

Record Loader := { loadedCount : nat; promise : option (settled Canvas) }.

Definition settle (l : Loader) (r : settled Canvas) : Loader :=
  match promise l with
  | Some _ => l
  | None => {| loadedCount := loadedCount l; promise := Some r |}
  end.

(** The dimensions of an image element: those of the decoded image, 0 when
    there is none. *)
Definition dimensions (img : option HTMLImage) : HTMLImage :=
  match img with
  | Some i => i
  | None => {| width := 0; height := 0 |}
  end.

(** The handlers [onImageLoad] and [onerror], shared by both elements. *)
Definition fire (before after : option HTMLImage) (has_context : bool)
    (l : Loader) (ev : image_event) : Loader :=
  match ev with
  | Onload _ =>
      let l1 := {| loadedCount := S (loadedCount l); promise := promise l |} in
      if (loadedCount l1 =? 2)%nat then
        settle l1 (onImageLoad (dimensions before) (dimensions after) has_context)
      else l1
  | Onerror _ => settle l (Rejected JsNonError)
  end.

(** The one event that an element fires once its [src] is set. *)
Definition event_of (img : option HTMLImage) (which : source) : image_event :=
  match img with
  | Some _ => Onload which
  | None => Onerror which
  end.

Definition new_loader : Loader := {| loadedCount := 0; promise := None |}.

Section Downloads.

(** [canvas.toDataURL('image/png')] *)
Variable toDataURL : Canvas -> string.

(** The card's state and the downloads it has triggered, each with the
    [href] and the file name of the link that was clicked. *)
Record Card := { isDropdownOpen : bool; downloads : list (string * string) }.

Definition setIsDropdownOpen (c : Card) (b : bool) : Card :=
  {| isDropdownOpen := b; downloads := downloads c |}.

(** [downloadImage]: the link is added to the document, clicked and
    removed. *)
Definition downloadImage (c : Card) (href filename : string) : Card :=
  {| isDropdownOpen := isDropdownOpen c;
     downloads := downloads c ++ [(href, filename)] |}.

(** A value in a template literal. *)
Definition template_text (v : jsval) : string :=
  match v with
  | JUndefined => "undefined"
  | JString s => s
  | JObject _ => "[object Object]"
  end.

Definition handleDownloadAfter (afterImage : jsval) (c : Card) : Card :=
  let c1 := downloadImage c ("data:image/png;base64," ++ template_text afterImage)
              "ai-design-after.png" in
  setIsDropdownOpen c1 false.

(** [before] and [after] are what the two data URLs decode to. *)
Definition handleDownloadComparison (before after : option HTMLImage)
    (has_context : bool) (c : Card) : Card :=
  let c1 :=
    match createComparisonImage before after has_context with
    | Fulfilled canvas => downloadImage c (toDataURL canvas) "ai-design-comparison.png"
    | Rejected error => c
    end in
  setIsDropdownOpen c1 false.

Definition handleDownloadBoth (afterImage : jsval) (before after : option HTMLImage)
    (has_context : bool) (c : Card) : Card :=
  let c1 := handleDownloadAfter afterImage c in
  let c2 := handleDownloadComparison before after has_context c1 in
  setIsDropdownOpen c2 false.

End Downloads.

End ResultCard.

(* ===================================================================== *)
(** ** What the page shows (App.tsx) *)
(* ===================================================================== *)

(** [disabled={isLoading || roomImages.length === 0}] of the button that
    calls [handleGenerate]. *)
Definition generate_disabled (s : AppState) : bool :=
  isLoading s || (List.length (roomImages s) =? 0)%nat.

(** [{error && (...)}]: the alert is rendered for a non-empty message. *)
Definition alert_shown (s : AppState) : bool :=
  match error s with
  | Some message => negb (String.eqb message "")
  | None => false
  end.

(** [{results.length > 0 && (...)}]: the number of result cards. *)
Definition cards_shown (s : AppState) : nat := List.length (results s).

(** The part that the codec helper makes of a file. *)
Definition part_of (file : File) : GenerativePart :=
  {| part_inlineData := {| data := original_payload file; mimeType := type file |} |}.

(** The operations of the chain of one room image. *)
Definition chain_ops (decorImages : list File) (prompt : string) (roomImage : File)
  : list ext_op :=
  [ OpRead roomImage;
    OpModel (enhance_request (part_of roomImage));
    OpReadAll decorImages;
    OpModel (decor_request (part_of roomImage) (map part_of decorImages) prompt) ].

Definition is_model_op (op : ext_op) : bool :=
  match op with OpModel _ => true | _ => false end.

(** A completion that answers a model call. *)
Definition is_model_reply (r : reply) : bool :=
  match r with ModelSettled _ => true | ReadEnded => false end.

(** Every operation that a task issues, whatever the model returns to its
    calls, satisfies [P]. *)
Inductive issues_only {A} (P : ext_op -> Prop) : task A -> Prop :=
| issues_settled (r : settled A) : issues_only P (Settled r)
| issues_read (f : File) (k : option string -> task A) :
    P (OpRead f) -> issues_only P (k (dataURL f)) -> issues_only P (AwaitRead f k)
| issues_read_all (fs : list File) (k : list (option string) -> task A) :
    P (OpReadAll fs) -> issues_only P (k (map dataURL fs)) ->
    issues_only P (AwaitReadAll fs k)
| issues_model (req : GenerateContentParameters)
    (k : settled GenerateContentResponse -> task A) :
    P (OpModel req) -> (forall o, issues_only P (k o)) ->
    issues_only P (AwaitModel req k).

(** A task is settled after at most [reads] suspensions on reads (the
    reads of one [Promise.all] make one suspension) and [calls] answered
    model calls, whatever the model returns. *)
Inductive settles_within {A} : nat -> nat -> task A -> Prop :=
| within_settled (reads calls : nat) (r : settled A) :
    settles_within reads calls (Settled r)
| within_read (reads calls : nat) (f : File) (k : option string -> task A) :
    settles_within reads calls (k (dataURL f)) ->
    settles_within (S reads) calls (AwaitRead f k)
| within_read_all (reads calls : nat) (fs : list File)
    (k : list (option string) -> task A) :
    settles_within reads calls (k (map dataURL fs)) ->
    settles_within (S reads) calls (AwaitReadAll fs k)
| within_model (reads calls : nat) (req : GenerateContentParameters)
    (k : settled GenerateContentResponse -> task A) :
    (forall o, settles_within reads calls (k o)) ->
    settles_within reads (S calls) (AwaitModel req k).

(* ===================================================================== *)
(** ** More scenarios *)
(* ===================================================================== *)

Module Samples.

Definition sofa : File :=
  {| name := "sofa.png"; type := "image/png";
     dataURL := Some "data:image/png;base64,U09GQQ==" |}.

Definition poster : File :=
  {| name := "poster.png"; type := "image/png";
     dataURL := Some "data:image/png;base64,UE9TVEVS" |}.

Definition animation : File :=
  {| name := "lamp.gif"; type := "image/gif";
     dataURL := Some "data:image/gif;base64,TEFNUA==" |}.

(** The poster is one byte above the limit. *)
Definition size (f : File) : Z :=
  if String.eqb (name f) "poster.png" then 4194305%Z else 2048%Z.

Definition empty_store : DecorImageManager.UrlStore :=
  {| DecorImageManager.next_url := 0; DecorImageManager.live_urls := [] |}.

Definition voices : list Speech.SpeechSynthesisVoice :=
  [ {| Speech.lang := "de-DE"; Speech.name := "Anna" |};
    {| Speech.lang := "en-GB"; Speech.name := "Google UK English Female" |};
    {| Speech.lang := "en-US"; Speech.name := "Alex" |};
    {| Speech.lang := "en-US"; Speech.name := "Samantha" |} ].

(** A response whose first image part is empty and whose second image part
    carries data. *)
Definition empty_then_image : GenerateContentResponse :=
  {| candidates := Some
       [ {| content := Some
              {| parts := Some
                   [ {| inlineData := Some {| data := JString "";
                                              mimeType := "image/png" |};
                        text := None |};
                     {| inlineData := Some {| data := JString "REE=";
                                              mimeType := "image/png" |};
                        text := None |} ] |} |} ] |}.

End Samples.

Module LateCompletion.

(** The generation call of chain 1 (room B) returns no image before
    chain 0 (room A) has received anything ... *)
Definition B_fails_first : schedule :=
  [ (1, ReadEnded); (1, ModelSettled (Rejected (JsError "503")));
    (1, ReadEnded); (1, ReadEnded);
    (1, ModelSettled (Fulfilled Scenario.text_only_response)) ]%nat.

(** ... and chain 0 then runs to its end with two successful calls. *)
Definition A_completes : schedule := Scenario.A_alone.

End LateCompletion.

(* ===================================================================== *)
(** ** Strings *)
(* ===================================================================== *)

Unset Implicit Arguments.

Lemma trimStart_from_blank (s : string) : forall skip,
  all_white_space_from skip s = true -> trimStart_from skip s = "".
Proof.
  induction s as [|c s IH]; intros skip H; [reflexivity|].
  cbn [all_white_space_from trimStart_from] in *.
  destruct skip as [|n]; [|apply IH, H].
  destruct (white_space_prefix (String c s)) as [|n]; [discriminate|apply IH, H].
Qed.

Lemma trimStart_blank (s : string) : blank s = true -> trimStart s = "".
Proof. apply trimStart_from_blank. Qed.

Lemma trimEnd_empty_blank (s : string) : trimEnd s = "" -> blank s = true.
Proof.
  destruct s as [|c s]; [reflexivity|].
  cbn [trimEnd]. unfold blank.
  destruct (all_white_space (String c s)); [reflexivity|discriminate].
Qed.

Lemma trimStart_from_suffix_blank (s : string) : forall skip,
  all_white_space_from 0 (trimStart_from skip s) = all_white_space_from skip s.
Proof.
  induction s as [|c s IH]; intros skip; [reflexivity|].
  cbn [trimStart_from]. destruct skip as [|n].
  - destruct (white_space_prefix (String c s)) as [|n] eqn:Hw; [reflexivity|].
    rewrite IH. cbn [all_white_space_from]. rewrite Hw. reflexivity.
  - rewrite IH. reflexivity.
Qed.

Lemma trimStart_suffix_blank (s : string) :
  blank (trimStart s) = true -> blank s = true.
Proof.
  unfold blank, all_white_space, trimStart.
  rewrite trimStart_from_suffix_blank. auto.
Qed.

Lemma trim_blank (s : string) : trim s = "" <-> blank s = true.
Proof.
  unfold trim. split.
  - intros H. apply trimStart_suffix_blank, trimEnd_empty_blank, H.
  - intros H. rewrite (trimStart_blank s H). reflexivity.
Qed.

(** A white space code point in front of a string does not change whether
    the string is blank: every string made of white space code points is
    blank. *)
Lemma blank_white_space (w rest : string) :
  In w white_space -> blank (w ++ rest) = blank rest.
Proof.
  intros Hin. unfold blank, all_white_space.
  cbv in Hin.
  repeat (destruct Hin as [<-|Hin]; [reflexivity|]).
  contradiction.
Qed.

Lemma blank_white_spaces (ws : list string) :
  Forall (fun w => In w white_space) ws ->
  blank (fold_right append "" ws) = true.
Proof.
  induction 1 as [|w ws Hw _ IH]; [reflexivity|].
  cbn [fold_right]. rewrite (blank_white_space w _ Hw). exact IH.
Qed.

Lemma starts_with_app (w s : string) :
  starts_with w s = true -> exists rest, s = (w ++ rest)%string.
Proof.
  revert s. induction w as [|a w IH]; intros s H.
  - exists s. reflexivity.
  - destruct s as [|b s]; [discriminate|]. simpl in H.
    apply andb_true_iff in H as [Hab Hw].
    apply Ascii.eqb_eq in Hab. subst b.
    destruct (IH s Hw) as [rest ->]. exists rest. reflexivity.
Qed.

Lemma all_white_space_from_skip (u rest : string) :
  all_white_space_from (String.length u) (u ++ rest) = all_white_space_from 0 rest.
Proof. induction u as [|a u IH]; [reflexivity|exact IH]. Qed.

(** Conversely, a blank string is made of white space code points and of
    nothing else. *)
Lemma blank_inv (s : string) :
  blank s = true ->
  exists ws, Forall (fun w => In w white_space) ws /\ s = fold_right append "" ws.
Proof.
  unfold blank, all_white_space.
  assert (G : forall n s, (String.length s <= n)%nat ->
            all_white_space_from 0 s = true ->
            exists ws, Forall (fun w => In w white_space) ws
                       /\ s = fold_right append "" ws).
  { induction n as [|n IH]; intros t Hlen Hb.
    - destruct t; [|simpl in Hlen; lia]. exists []. split; [constructor|reflexivity].
    - destruct t as [|c t]; [exists []; split; [constructor|reflexivity]|].
      cbn [all_white_space_from] in Hb. unfold white_space_prefix in Hb.
      destruct (find (fun w => starts_with w (String c t)) white_space)
        as [w|] eqn:Hfind; [|discriminate].
      apply find_some in Hfind as [Hin Hpre].
      destruct (starts_with_app _ _ Hpre) as [rest Hrest].
      destruct w as [|a w]; [discriminate|].
      cbn [String.length] in Hb. simpl in Hrest. inversion Hrest; subst c t.
      rewrite all_white_space_from_skip in Hb.
      destruct (IH rest) as (ws & Hws & ->); [|exact Hb|].
      + assert (Happ : forall u v : string,
                  String.length (u ++ v) = (String.length u + String.length v)%nat).
        { induction u as [|x u IHu]; intros v; simpl; [reflexivity|].
          rewrite IHu. reflexivity. }
        simpl in Hlen. rewrite Happ in Hlen. lia.
      + exists (String a w :: ws). split; [constructor; assumption|reflexivity]. }
  apply (G (String.length s)). lia.
Qed.

Lemma trim_empty_eqb (s : string) : String.eqb (trim s) "" = blank s.
Proof.
  destruct (String.eqb_spec (trim s) "") as [E|E].
  - symmetry. apply trim_blank, E.
  - destruct (blank s) eqn:Hb; [|reflexivity].
    apply trim_blank in Hb. contradiction.
Qed.

Lemma split_comma_free (s : string) : comma_free s = true -> split "," s = [s].
Proof.
  induction s as [|c s IH]; simpl; [reflexivity|].
  intros H. apply andb_true_iff in H as [Hc Hs].
  apply negb_true_iff in Hc. rewrite Hc, (IH Hs). reflexivity.
Qed.

Lemma split_at_first_comma (header rest : string) :
  comma_free header = true ->
  split "," (header ++ "," ++ rest)%string = header :: split "," rest.
Proof.
  induction header as [|c h IH]; simpl; [reflexivity|].
  intros H. apply andb_true_iff in H as [Hc Hs].
  apply negb_true_iff in Hc. rewrite Hc.
  simpl in IH. rewrite (IH Hs). reflexivity.
Qed.

(** The payload of a well-formed data URL is its base64 text. *)
Lemma onloadend_data_url (header base64 : string) :
  comma_free header = true -> comma_free base64 = true ->
  onloadend (Some (header ++ "," ++ base64)%string) = JString base64.
Proof.
  intros Hh Hb. unfold onloadend.
  rewrite (split_at_first_comma header base64 Hh), (split_comma_free base64 Hb).
  reflexivity.
Qed.

(* ===================================================================== *)
(** ** Tasks *)
(* ===================================================================== *)

(** The codec helper on one file. *)
Lemma exec_fileToGenerativePart (file : File) :
  exec (fileToGenerativePart file) [] =
  Some (Fulfilled {| part_inlineData :=
                       {| data := original_payload file; mimeType := type file |} |}).
Proof. reflexivity. Qed.

Lemma combine_map_r {A B} (f : A -> B) (l : list A) :
  combine l (map f l) = map (fun a => (a, f a)) l.
Proof. induction l as [|a l IH]; simpl; [reflexivity|]. now rewrite IH. Qed.

Example trim_example : trim ("  cozy " ++ nl) = "cozy".
Proof. reflexivity. Qed.

(** White space beyond Latin-1 is stripped as well; a code point that is
    not white space is kept whatever its bytes. *)
Example trim_wide_spaces :
  trim (utf8 0x3000 ++ "cozy" ++ utf8 0x2003 ++ utf8 0xFEFF) = "cozy"
  /\ trim (utf8 0x3000 ++ utf8 0x2003 ++ utf8 0xA0) = ""
  /\ trim (utf8 0x3001 ++ " ") = utf8 0x3001
  /\ trim (utf8 0x85) = utf8 0x85.
Proof. repeat split; reflexivity. Qed.

Example split_data_url :
  split "," "data:image/png;base64,QUFB" = ["data:image/png;base64"; "QUFB"].
Proof. reflexivity. Qed.

Example split_without_comma : index (split "," "data:") 1 = JUndefined.
Proof. reflexivity. Qed.

(* ===================================================================== *)
(** ** The generation client *)
(* ===================================================================== *)

Lemma exec_rest_exec {A} (t : task A) os :
  exec t os = option_map fst (exec_rest t os).
Proof.
  revert os. induction t as [r|file k IH|files k IH|req k IH]; simpl; intros os; auto.
  destruct os; auto.
Qed.

(** Sequencing: the second task starts on the outcomes the first has left. *)
Lemma exec_rest_bind {A B} (t : task A) (f : A -> task B) os :
  exec_rest (bind t f) os =
  match exec_rest t os with
  | Some (Fulfilled a, os') => exec_rest (f a) os'
  | Some (Rejected e, os') => Some (Rejected e, os')
  | None => None
  end.
Proof.
  revert os. induction t as [[a|e]|file k IH|files k IH|req k IH]; simpl; intros os; auto.
  destruct os; auto.
Qed.


Lemma exec_rest_fileToGenerativePart (file : File) os :
  exec_rest (fileToGenerativePart file) os =
  Some (Fulfilled {| part_inlineData :=
                       {| data := original_payload file; mimeType := type file |} |},
        os).
Proof. reflexivity. Qed.

Lemma exec_rest_fileToGenerativeParts (files : list File) os :
  exec_rest (fileToGenerativeParts files) os =
  Some (Fulfilled
          (map (fun f => {| part_inlineData :=
                              {| data := original_payload f; mimeType := type f |} |})
               files),
        os).
Proof.
  destruct files as [|f fs]; [reflexivity|].
  unfold fileToGenerativeParts. cbn [exec_rest ret].
  rewrite combine_map_r, map_map. reflexivity.
Qed.

Lemma find_image_part_truthy response part :
  find_image_part response = Some part -> truthy (inlineData_data part) = true.
Proof.
  unfold find_image_part.
  destruct (first_candidate response) as [c|]; [|discriminate].
  destruct (content c) as [ct|]; [|discriminate].
  destruct (parts ct) as [ps|]; [|discriminate].
  intros H. apply find_some in H. apply H.
Qed.

Lemma find_image_part_response_parts response :
  find_image_part response = find has_image_data (response_parts response).
Proof.
  unfold find_image_part, response_parts.
  destruct (first_candidate response) as [c|]; [|reflexivity].
  destruct (content c) as [ct|]; [|reflexivity].
  destruct (parts ct) as [ps|]; reflexivity.
Qed.

Lemma find_all_false {A} (f : A -> bool) (l : list A) :
  (forall a, In a l -> f a = false) -> find f l = None.
Proof.
  induction l as [|a l IH]; simpl; intros H; [reflexivity|].
  rewrite (H a (or_introl eq_refl)). apply IH. intros b Hb. apply H. now right.
Qed.

(** [enhanceImage] consumes the outcome of one model call and is always
    fulfilled. *)
Lemma exec_rest_enhanceImage (imageFile : File) o os :
  exec_rest (enhanceImage imageFile) (o :: os) =
  Some (Fulfilled (enhance_result imageFile o), os).
Proof.
  unfold enhanceImage, enhance_result. simpl.
  destruct o as [response|e]; simpl; [|reflexivity].
  destruct (find_image_part response) as [part|] eqn:Hfind; simpl; [|reflexivity].
  rewrite (find_image_part_truthy _ _ Hfind). reflexivity.
Qed.

Lemma exec_rest_enhanceImage_nil (imageFile : File) :
  exec_rest (enhanceImage imageFile) [] = None.
Proof. reflexivity. Qed.

Lemma enhance_result_failed (imageFile : File) o :
  enhancement_failed o -> enhance_result imageFile o = original_payload imageFile.
Proof.
  destruct o as [response|e]; simpl; [|reflexivity].
  intros H. rewrite find_image_part_response_parts, (find_all_false _ _ H).
  reflexivity.
Qed.

(** [generateDecorIdeas] consumes the outcome of one model call. *)
Lemma exec_rest_generateDecorIdeas roomImage decorImages prompt o os :
  exec_rest (generateDecorIdeas roomImage decorImages prompt) (o :: os) =
  Some (decor_result o, os).
Proof.
  unfold generateDecorIdeas.
  rewrite exec_rest_bind, exec_rest_fileToGenerativePart.
  rewrite exec_rest_bind, exec_rest_fileToGenerativeParts.
  unfold decor_result. simpl.
  destruct o as [response|[m|]]; simpl; try reflexivity.
  destruct (first_candidate response) as [c|]; simpl; [|reflexivity].
  unfold lift.
  destruct (scan_candidate c (JString "")) as [img|[m|]]; simpl; try reflexivity.
  destruct (truthy img); reflexivity.
Qed.

Lemma exec_rest_generateDecorIdeas_nil roomImage decorImages prompt :
  exec_rest (generateDecorIdeas roomImage decorImages prompt) [] = None.
Proof.
  unfold generateDecorIdeas.
  rewrite exec_rest_bind, exec_rest_fileToGenerativePart.
  rewrite exec_rest_bind, exec_rest_fileToGenerativeParts.
  reflexivity.
Qed.

Lemma decor_result_rejected o e : decor_result o = Rejected e -> GenerationError e.
Proof.
  unfold decor_result.
  destruct o as [response|[m|]]; intros H.
  - destruct (first_candidate response) as [c|].
    + destruct (scan_candidate c (JString "")) as [img|[m|]].
      * destruct (truthy img); inversion H; constructor.
      * inversion H; constructor.
      * inversion H; constructor.
    + inversion H; constructor.
  - inversion H; constructor.
  - inversion H; constructor.
Qed.

(** The loop finds the data of the first image-bearing part. *)
Lemma scan_parts_find (ps : list Part) (init : jsval) :
  scan_parts ps init =
  match find image_bearing ps with
  | Some part => inlineData_data part
  | None => init
  end.
Proof.
  induction ps as [|p ps IH]; simpl; [reflexivity|].
  unfold image_bearing at 1, inlineData_data.
  destruct (inlineData p) as [blob|] eqn:Hp; simpl.
  - rewrite Hp. reflexivity.
  - rewrite IH. reflexivity.
Qed.

(** The whole chain of one room image: two model calls. *)
Lemma exec_generationPromise decorImages prompt roomImage o1 o2 os :
  exec (generationPromise decorImages prompt roomImage) (o1 :: o2 :: os) =
  Some (chain_result (enhance_result roomImage o1) o2).
Proof.
  rewrite exec_rest_exec. unfold generationPromise, chain_result.
  rewrite exec_rest_bind, exec_rest_enhanceImage.
  rewrite exec_rest_bind, exec_rest_generateDecorIdeas.
  destruct (decor_result o2); reflexivity.
Qed.

Lemma exec_generationPromise_short decorImages prompt roomImage os :
  (List.length os < 2)%nat ->
  exec (generationPromise decorImages prompt roomImage) os = None.
Proof.
  intros H. rewrite exec_rest_exec. unfold generationPromise.
  rewrite exec_rest_bind.
  destruct os as [|o1 [|o2 os]]; simpl in H; try lia.
  - rewrite exec_rest_enhanceImage_nil. reflexivity.
  - rewrite exec_rest_enhanceImage, exec_rest_bind,
      exec_rest_generateDecorIdeas_nil. reflexivity.
Qed.

(** A chain can only be rejected with a generation error. *)
Lemma generationPromise_rejected decorImages prompt roomImage os e :
  exec (generationPromise decorImages prompt roomImage) os = Some (Rejected e) ->
  GenerationError e.
Proof.
  destruct os as [|o1 [|o2 os]].
  - rewrite exec_generationPromise_short by (simpl; lia). discriminate.
  - rewrite exec_generationPromise_short by (simpl; lia). discriminate.
  - rewrite exec_generationPromise. unfold chain_result.
    destruct (decor_result o2) as [v|e'] eqn:Hd; intros H; inversion H; subst.
    eapply decor_result_rejected, Hd.
Qed.

(* ===================================================================== *)
(** ** The pool of chains *)
(* ===================================================================== *)

Section ListUpdate.
Context {A : Type}.

Lemma length_update (i : nat) (x : A) (l : list A) :
  List.length (update i x l) = List.length l.
Proof.
  revert i. induction l as [|y l IH]; intros [|i]; simpl; auto.
Qed.

Lemma nth_error_update_eq (i : nat) (x y : A) (l : list A) :
  nth_error l i = Some y -> nth_error (update i x l) i = Some x.
Proof.
  revert i. induction l as [|z l IH]; intros [|i]; simpl; try discriminate; auto.
Qed.

Lemma nth_error_update_neq (i j : nat) (x : A) (l : list A) :
  i <> j -> nth_error (update i x l) j = nth_error l j.
Proof.
  revert i j. induction l as [|z l IH]; intros [|i] [|j] H; simpl; auto.
  congruence.
Qed.

Lemma In_update (i : nat) (x y : A) (l : list A) :
  In y (update i x l) -> y = x \/ In y l.
Proof.
  revert i. induction l as [|z l IH]; intros [|i]; simpl; auto.
  - intros [H|H]; auto.
  - intros [H|H]; auto. destruct (IH i H); auto.
Qed.

Lemma In_update_other (i : nat) (x y z : A) (l : list A) :
  In y l -> nth_error l i = Some z -> z <> y -> In y (update i x l).
Proof.
  revert i. induction l as [|w l IH]; intros [|i]; simpl; try tauto.
  - intros [H|H] Hz Hne; [congruence|auto].
  - intros [H|H] Hz Hne; [auto|]. right. eapply IH; eauto.
Qed.
End ListUpdate.

Lemma poll_generationPromises run :
  generationPromises (poll run) = generationPromises run.
Proof.
  unfold poll. destruct (awaiting run); [|reflexivity].
  destruct (Promise_all (generationPromises run)); reflexivity.
Qed.

Lemma poll_log run : log (poll run) = log run.
Proof.
  unfold poll. destruct (awaiting run); [|reflexivity].
  destruct (Promise_all (generationPromises run)); reflexivity.
Qed.

(** What one delivery does to the pool and to the log. *)
Lemma deliver_inv i r run run' :
  deliver i r run = Some run' ->
  exists t op t',
    nth_error (generationPromises run) i = Some t
    /\ pending_op t = Some op /\ resume t r = Some t'
    /\ run' = poll {| state := state run;
                      generationPromises := update i t' (generationPromises run);
                      awaiting := awaiting run;
                      log := log run ++ (i, Completed op) :: announce i t' |}.
Proof.
  unfold deliver.
  destruct (nth_error (generationPromises run) i) as [t|]; [|discriminate].
  destruct (pending_op t) as [op|] eqn:Hop; [|discriminate].
  destruct (resume t r) as [t'|] eqn:Hres; [|discriminate].
  intros H. inversion H. exists t, op, t'. auto.
Qed.

Lemma deliver_length i r run run' :
  deliver i r run = Some run' ->
  List.length (generationPromises run') = List.length (generationPromises run).
Proof.
  intros H. apply deliver_inv in H as (t & op & t' & _ & _ & _ & ->).
  rewrite poll_generationPromises. simpl. apply length_update.
Qed.

Lemma deliver_all_length sched : forall run run',
  deliver_all sched run = Some run' ->
  List.length (generationPromises run') = List.length (generationPromises run).
Proof.
  induction sched as [|[i r] sched IH]; simpl; intros run run' H.
  - inversion H. reflexivity.
  - destruct (deliver i r run) as [run1|] eqn:Hd; [|discriminate].
    rewrite (IH _ _ H). eapply deliver_length, Hd.
Qed.

Lemma events_of_app i l1 l2 :
  events_of i (l1 ++ l2) = events_of i l1 ++ events_of i l2.
Proof. unfold events_of. rewrite filter_app, map_app. reflexivity. Qed.

Lemma events_of_announce_same i t : events_of i (announce i t) = announce1 t.
Proof.
  unfold events_of, announce1, announce.
  destruct t; simpl; rewrite Nat.eqb_refl; reflexivity.
Qed.

Lemma events_of_announce_other i j t : i <> j -> events_of i (announce j t) = [].
Proof.
  intros H. apply Nat.eqb_neq in H. rewrite Nat.eqb_sym in H.
  unfold events_of, announce.
  destruct t; simpl; rewrite H; reflexivity.
Qed.

Lemma In_events_of i e l : In e (events_of i l) -> In (i, e) l.
Proof.
  unfold events_of. intros H. apply in_map_iff in H as [[j e'] [He Hin]].
  apply filter_In in Hin as [Hin Hj]. simpl in *. apply Nat.eqb_eq in Hj.
  subst. exact Hin.
Qed.

Lemma replies_to_cons_same i r sched :
  replies_to i ((i, r) :: sched) = r :: replies_to i sched.
Proof. unfold replies_to. simpl. rewrite Nat.eqb_refl. reflexivity. Qed.

Lemma replies_to_cons_other i j r sched :
  i <> j -> replies_to i ((j, r) :: sched) = replies_to i sched.
Proof.
  intros H. apply Nat.eqb_neq in H. rewrite Nat.eqb_sym in H.
  unfold replies_to. simpl. rewrite H. reflexivity.
Qed.

(** Projection: whatever the interleaving, chain [i] goes through the
    states, and logs the events, of a run on its own with the replies that
    the schedule addresses to it. *)
Lemma deliver_all_chain sched : forall run run' i t,
  deliver_all sched run = Some run' ->
  nth_error (generationPromises run) i = Some t ->
  exists t',
    nth_error (generationPromises run') i = Some t'
    /\ solo_state t (replies_to i sched) = Some t'
    /\ events_of i (log run') =
       events_of i (log run) ++ solo_log t (replies_to i sched).
Proof.
  induction sched as [|[j r] sched IH]; simpl; intros run run' i t H Hi.
  - inversion H; subst. exists t. rewrite app_nil_r. auto.
  - destruct (deliver j r run) as [run1|] eqn:Hd; [|discriminate].
    apply deliver_inv in Hd as (tj & op & tj' & Hj & Hop & Hres & Hrun1).
    destruct (Nat.eq_dec i j) as [->|Hne].
    + rewrite Hi in Hj. inversion Hj; subst tj.
      destruct (IH run1 run' j tj' H) as (t' & Ht' & Hsolo & Hlog).
      { rewrite Hrun1, poll_generationPromises. simpl.
        eapply nth_error_update_eq, Hi. }
      exists t'. rewrite replies_to_cons_same. simpl. rewrite Hop, Hres.
      repeat split; auto.
      rewrite Hlog, Hrun1, poll_log. simpl.
      rewrite events_of_app. change ((j, Completed op) :: announce j tj')
        with ([(j, Completed op)] ++ announce j tj').
      rewrite events_of_app, events_of_announce_same.
      unfold events_of at 2. simpl. rewrite Nat.eqb_refl. simpl.
      rewrite <- !app_assoc. reflexivity.
    + destruct (IH run1 run' i t H) as (t' & Ht' & Hsolo & Hlog).
      { rewrite Hrun1, poll_generationPromises. simpl.
        rewrite nth_error_update_neq by congruence. exact Hi. }
      exists t'. rewrite replies_to_cons_other by assumption.
      repeat split; auto.
      rewrite Hlog, Hrun1, poll_log. simpl.
      rewrite events_of_app. change ((j, Completed op) :: announce j tj')
        with ([(j, Completed op)] ++ announce j tj').
      rewrite events_of_app, (events_of_announce_other i j tj' Hne).
      unfold events_of at 2. simpl.
      apply Nat.eqb_neq in Hne. rewrite Nat.eqb_sym in Hne. rewrite Hne. simpl.
      rewrite app_nil_r. reflexivity.
Qed.

(** A chain on its own, seen through [exec]. *)
Lemma solo_state_exec (rs : list reply) : forall t t' os,
  solo_state t rs = Some t' -> exec t (outcomes rs ++ os) = exec t' os.
Proof.
  induction rs as [|r rs IH]; simpl; intros t t' os H.
  - inversion H. reflexivity.
  - destruct (pending_op t) as [op|] eqn:Hop; [|discriminate].
    destruct (resume t r) as [t1|] eqn:Hres; [|discriminate].
    rewrite <- (IH _ _ os H).
    destruct t as [res|f k|fs k|req k]; destruct r as [|o];
      simpl in Hres; inversion Hres; subst; reflexivity.
Qed.

(* ===================================================================== *)
(** ** Promise.all and the state of the component *)
(* ===================================================================== *)

Lemma Promise_all_fulfilled {A} (ps : list (task A)) : forall vs,
  Promise_all ps = Some (Fulfilled vs) ->
  ps = map (fun v => Settled (Fulfilled v)) vs.
Proof.
  induction ps as [|p ps IH]; simpl; intros vs H.
  - inversion H. reflexivity.
  - destruct p as [[a|e]|f k|fs k|req k];
      destruct (Promise_all ps) as [[l|e']|]; try discriminate.
    inversion H; subst. simpl. rewrite <- (IH l eq_refl). reflexivity.
Qed.

Lemma Promise_all_rejected {A} (ps : list (task A)) e :
  Promise_all ps = Some (Rejected e) -> In (Settled (Rejected e)) ps.
Proof.
  induction ps as [|p ps IH]; simpl; intros H; [discriminate|].
  destruct p as [[a|e0]|f k|fs k|req k].
  - destruct (Promise_all ps) as [[l|e']|]; try discriminate.
    inversion H; subst. auto.
  - inversion H; subst. auto.
  - destruct (Promise_all ps) as [[l|e']|]; try discriminate.
    inversion H; subst. auto.
  - destruct (Promise_all ps) as [[l|e']|]; try discriminate.
    inversion H; subst. auto.
  - destruct (Promise_all ps) as [[l|e']|]; try discriminate.
    inversion H; subst. auto.
Qed.

Lemma Promise_all_pending_none_rejected {A} (ps : list (task A)) :
  Promise_all ps = None -> none_rejected ps.
Proof.
  unfold none_rejected.
  induction ps as [|p ps IH]; simpl; intros H e Hin; [assumption|].
  destruct Hin as [->|Hin]; [discriminate|].
  destruct (Promise_all ps) as [[l|e']|] eqn:Hps.
  - apply Promise_all_fulfilled in Hps. subst ps.
    apply in_map_iff in Hin as [v [Hv _]]. discriminate.
  - destruct p as [[a|e0]|f k|fs k|req k]; discriminate.
  - eapply IH; eauto.
Qed.

Lemma first_rejection_app l1 l2 :
  first_rejection (l1 ++ l2) =
  match first_rejection l1 with
  | Some e => Some e
  | None => first_rejection l2
  end.
Proof.
  induction l1 as [|[i ev] l1 IH]; simpl; [reflexivity|].
  destruct ev as [op|op|[v|e]]; auto.
Qed.


Lemma In_first_rejection l i e :
  In (i, SettledWith (Rejected e)) l -> first_rejection l <> None.
Proof.
  induction l as [|[j ev] l IH]; simpl; [tauto|].
  intros [H|H].
  - inversion H; subst. discriminate.
  - destruct ev as [op|op|[v|e0]]; auto. discriminate.
Qed.

(** The log entry of a chain that is not rejected holds no rejection. *)
Lemma first_rejection_announce i (t : task Result) :
  first_rejection (announce i t) =
  match t with Settled (Rejected e) => Some e | _ => None end.
Proof. destruct t as [[v|e]|f k|fs k|req k]; reflexivity. Qed.

(** The invariant is kept by every delivery. *)
Lemma deliver_invariant i r run run' :
  run_invariant run -> deliver i r run = Some run' -> run_invariant run'.
Proof.
  intros Hinv Hd.
  apply deliver_inv in Hd as (t & op & t' & Hi & Hop & Hres & ->).
  unfold run_invariant in Hinv. unfold run_invariant, poll. simpl.
  destruct (awaiting run) eqn:Haw.
  - destruct Hinv as (Hres0 & Herr & Hload & Hall & Hfirst).
    pose proof (Promise_all_pending_none_rejected _ Hall) as Hnone.
    destruct (Promise_all (update i t' (generationPromises run)))
      as [[vs|e]|] eqn:Hnew; simpl.
    + (* fulfilled *)
      split; [reflexivity|]. left. exists vs.
      pose proof (Promise_all_fulfilled _ _ Hnew) as Hps.
      repeat split; auto.
      rewrite first_rejection_app, Hfirst. simpl.
      rewrite first_rejection_announce.
      assert (Hin : In t' (update i t' (generationPromises run))).
      { eapply nth_error_In, nth_error_update_eq, Hi. }
      rewrite Hps in Hin. apply in_map_iff in Hin as [v [<- _]]. reflexivity.
    + (* rejected: the chain that has just run threw [e] *)
      split; [reflexivity|]. right. exists e.
      apply Promise_all_rejected in Hnew. pose proof Hnew as Hin.
      apply In_update in Hnew as [Ht'|Hold]; [|exfalso; eapply Hnone, Hold].
      repeat split; auto.
      rewrite first_rejection_app, Hfirst. simpl.
      rewrite first_rejection_announce, <- Ht'. reflexivity.
    + (* still pending *)
      repeat split; auto.
      rewrite first_rejection_app, Hfirst. simpl.
      rewrite first_rejection_announce.
      destruct t' as [[v|e]|f k|fs k|req k]; auto.
      exfalso. apply Promise_all_pending_none_rejected in Hnew.
      eapply Hnew, nth_error_In, nth_error_update_eq, Hi.
  - destruct Hinv as (Hload & [(vs & Hps & _)|(e & Hfirst & Herr & Hres0 & Hin)]).
    + (* every chain is settled: nothing is left to deliver *)
      exfalso. rewrite Hps in Hi.
      apply nth_error_In, in_map_iff in Hi as [v [<- _]]. discriminate.
    + split; [assumption|]. right. exists e. simpl.
      split; [|split; [assumption|split; [assumption|]]].
      * rewrite first_rejection_app, Hfirst. reflexivity.
      * eapply In_update_other; eauto. intros ->. discriminate.
Qed.

Lemma deliver_all_invariant sched : forall run run',
  run_invariant run -> deliver_all sched run = Some run' -> run_invariant run'.
Proof.
  induction sched as [|[i r] sched IH]; simpl; intros run run' Hinv H.
  - inversion H; subst. assumption.
  - destruct (deliver i r run) as [run1|] eqn:Hd; [|discriminate].
    eapply IH; [|exact H]. eapply deliver_invariant; eauto.
Qed.

(** Every chain starts by reading its room image. *)
Lemma generationPromise_head decorImages prompt roomImage :
  exists k, generationPromise decorImages prompt roomImage = AwaitRead roomImage k.
Proof. eexists. reflexivity. Qed.

Lemma Promise_all_start decorImages prompt (rooms : list File) :
  rooms <> [] ->
  Promise_all (map (generationPromise decorImages prompt) rooms) = None.
Proof.
  induction rooms as [|room rooms IH]; [congruence|]. intros _.
  destruct (generationPromise_head decorImages prompt room) as [k Hk].
  cbn [map Promise_all]. rewrite Hk.
  destruct rooms as [|room' rooms]; [reflexivity|].
  rewrite IH by discriminate. reflexivity.
Qed.

Lemma announce_all_start decorImages prompt (rooms : list File) : forall n,
  announce_all n (map (generationPromise decorImages prompt) rooms) =
  map (fun ir : nat * File => (fst ir, Issued (OpRead (snd ir))))
      (combine (seq n (List.length rooms)) rooms).
Proof.
  induction rooms as [|room rooms IH]; intros n; [reflexivity|].
  cbn [map announce_all List.length seq combine fst snd].
  rewrite IH.
  destruct (generationPromise_head decorImages prompt room) as [k ->].
  reflexivity.
Qed.

Lemma first_rejection_issued (l : list (nat * File)) :
  first_rejection (map (fun ir => (fst ir, Issued (OpRead (snd ir)))) l) = None.
Proof. induction l as [|[i f] l IH]; simpl; auto. Qed.

(** The run that a valid click starts. *)
Lemma handleGenerate_valid s :
  roomImages s <> [] -> trim (stylePrompt s) <> "" ->
  handleGenerate s =
  {| state := setResults (setError (setIsLoading s true) None) [];
     generationPromises :=
       map (generationPromise (decorImages s) (stylePrompt s)) (roomImages s);
     awaiting := true;
     log := announce_all 0
              (map (generationPromise (decorImages s) (stylePrompt s))
                   (roomImages s)) |}.
Proof.
  intros Hrooms Hprompt. unfold handleGenerate.
  destruct (roomImages s) as [|room rooms] eqn:Hr; [congruence|].
  cbn [List.length Nat.eqb].
  destruct (String.eqb_spec (trim (stylePrompt s)) "") as [E|_]; [congruence|].
  unfold poll. cbn [awaiting generationPromises].
  rewrite Promise_all_start by discriminate. reflexivity.
Qed.

Lemma handleGenerate_invariant s :
  roomImages s <> [] -> trim (stylePrompt s) <> "" ->
  run_invariant (handleGenerate s).
Proof.
  intros Hrooms Hprompt. rewrite handleGenerate_valid by assumption.
  unfold run_invariant. simpl. repeat split.
  - apply Promise_all_start, Hrooms.
  - rewrite announce_all_start. apply first_rejection_issued.
Qed.

Lemma run_handleGenerate_invariant s sched run :
  roomImages s <> [] -> trim (stylePrompt s) <> "" ->
  run_handleGenerate s sched = Some run -> run_invariant run.
Proof.
  intros Hrooms Hprompt H.
  eapply deliver_all_invariant; [|exact H].
  apply handleGenerate_invariant; assumption.
Qed.

(** A settled chain of a run holds what its room image yields on the
    outcomes that the schedule addressed to it. *)
Lemma settled_chain_exec s sched run i r :
  roomImages s <> [] -> trim (stylePrompt s) <> "" ->
  run_handleGenerate s sched = Some run ->
  nth_error (generationPromises run) i = Some (Settled r) ->
  exists roomImage,
    nth_error (roomImages s) i = Some roomImage
    /\ exec (generationPromise (decorImages s) (stylePrompt s) roomImage)
            (outcomes (replies_to i sched)) = Some r.
Proof.
  intros Hrooms Hprompt Hrun Hi. unfold run_handleGenerate in Hrun.
  pose proof (deliver_all_length _ _ _ Hrun) as Hlen.
  rewrite handleGenerate_valid in Hrun, Hlen by assumption. simpl in Hlen.
  rewrite length_map in Hlen.
  assert (Hlt : (i < List.length (roomImages s))%nat).
  { rewrite <- Hlen. apply nth_error_Some. congruence. }
  destruct (nth_error (roomImages s) i) as [roomImage|] eqn:Hroom;
    [|apply nth_error_None in Hroom; lia].
  exists roomImage. split; [reflexivity|].
  destruct (deliver_all_chain _ _ _ i
              (generationPromise (decorImages s) (stylePrompt s) roomImage) Hrun)
    as (t' & Ht' & Hsolo & _).
  { simpl. apply map_nth_error, Hroom. }
  rewrite Hi in Ht'. inversion Ht'; subst t'.
  rewrite <- (app_nil_r (outcomes _)).
  rewrite (solo_state_exec _ _ _ [] Hsolo). reflexivity.
Qed.

(* ===================================================================== *)
(** ** The order of the calls of one chain *)
(* ===================================================================== *)

Lemma enhance_request_not_decor req :
  is_enhance_request req -> is_decor_request req -> False.
Proof.
  intros [imagePart ->] (roomImagePart & decorImageParts & prompt & H).
  unfold enhance_request, decor_request in H. simpl in H. inversion H.
Qed.

(** In the log of a chain on its own, a generation request is issued only
    after an enhancement request has completed. *)
Lemma solo_decor_after_enhancement decorImages prompt roomImage rs pre post req :
  announce1 (generationPromise decorImages prompt roomImage)
    ++ solo_log (generationPromise decorImages prompt roomImage) rs
  = pre ++ Issued (OpModel req) :: post ->
  is_decor_request req ->
  exists req', is_enhance_request req' /\ In (Completed (OpModel req')) pre.
Proof.
  intros H Hreq.
  assert (Hshort : forall l,
            l = [Issued (OpRead roomImage)]
            \/ l = [Issued (OpRead roomImage); Completed (OpRead roomImage);
                    Issued (OpModel (enhance_request
                      {| part_inlineData :=
                           {| data := onloadend (dataURL roomImage);
                              mimeType := type roomImage |} |}))] ->
            l = pre ++ Issued (OpModel req) :: post -> False).
  { intros l [->| ->] Hl.
    - destruct pre as [|x [|y pre]]; simpl in Hl; inversion Hl.
    - destruct pre as [|x [|y [|z [|w pre]]]]; simpl in Hl; inversion Hl; subst.
      eapply enhance_request_not_decor; [|exact Hreq]. eexists. reflexivity. }
  destruct rs as [|[|o1] rs];
    cbn [announce1 announce generationPromise enhanceImage fileToGenerativePart
         bind try_catch pending_op map fst snd solo_log resume ret app
         generateContent] in H.
  - exfalso. eapply Hshort; [left; reflexivity|exact H].
  - destruct rs as [|[|o2] rs];
      cbn [announce1 announce generationPromise enhanceImage fileToGenerativePart
           bind try_catch pending_op map fst snd solo_log resume ret app
           generateContent] in H.
    + exfalso. eapply Hshort; [right; reflexivity|exact H].
    + exfalso. eapply Hshort; [right; reflexivity|exact H].
    + destruct pre as [|x [|y [|z [|w pre]]]]; simpl in H; inversion H; subst.
      * exfalso. eapply enhance_request_not_decor; [|exact Hreq].
        eexists. reflexivity.
      * eexists. split; [eexists; reflexivity|]. simpl. auto.
  - exfalso. eapply Hshort; [left; reflexivity|exact H].
Qed.

Lemma events_of_cons_same i e l : events_of i ((i, e) :: l) = e :: events_of i l.
Proof. unfold events_of. simpl. rewrite Nat.eqb_refl. reflexivity. Qed.

Lemma events_of_announce_all (ps : list (task Result)) : forall n i t,
  nth_error ps i = Some t -> events_of (n + i) (announce_all n ps) = announce1 t.
Proof.
  assert (Hlow : forall (qs : list (task Result)) m j, (j < m)%nat ->
                   events_of j (announce_all m qs) = []).
  { induction qs as [|q qs IHq]; intros m j Hj; [reflexivity|].
    simpl. rewrite events_of_app, events_of_announce_other by lia.
    apply IHq. lia. }
  induction ps as [|p ps IH]; intros n [|i] t Hi; simpl in Hi; try discriminate.
  - inversion Hi; subst. simpl. rewrite Nat.add_0_r.
    rewrite events_of_app, events_of_announce_same, Hlow by lia.
    apply app_nil_r.
  - simpl. rewrite events_of_app, events_of_announce_other by lia.
    replace (n + S i)%nat with (S n + i)%nat by lia. apply IH, Hi.
Qed.

(** The same in a run of the orchestrator, whatever the schedule. *)
Lemma decor_request_after_enhancement s sched run i pre post req :
  roomImages s <> [] -> trim (stylePrompt s) <> "" ->
  run_handleGenerate s sched = Some run ->
  (i < List.length (roomImages s))%nat ->
  log run = pre ++ (i, Issued (OpModel req)) :: post ->
  is_decor_request req ->
  exists req', is_enhance_request req' /\ In (i, Completed (OpModel req')) pre.
Proof.
  intros Hrooms Hprompt Hrun Hi Hlog Hreq. unfold run_handleGenerate in Hrun.
  rewrite handleGenerate_valid in Hrun by assumption.
  destruct (nth_error (roomImages s) i) as [roomImage|] eqn:Hroom;
    [|apply nth_error_None in Hroom; lia].
  destruct (deliver_all_chain _ _ _ i
              (generationPromise (decorImages s) (stylePrompt s) roomImage) Hrun)
    as (t' & _ & _ & Hev).
  { simpl. apply map_nth_error, Hroom. }
  simpl in Hev.
  rewrite (events_of_announce_all _ 0 i _
             (map_nth_error _ _ _ Hroom)) in Hev.
  rewrite Hlog, events_of_app, events_of_cons_same in Hev.
  symmetry in Hev.
  destruct (solo_decor_after_enhancement _ _ _ _ _ _ _ Hev Hreq)
    as (req' & Hreq' & Hin).
  exists req'. split; [assumption|]. apply In_events_of, Hin.
Qed.

(* ===================================================================== *)
(** ** Truncation of a number to a canvas dimension *)
(* ===================================================================== *)

Lemma number_value_nonneg_exp m e :
  (0 <= e)%Z ->
  (Compositor.number_value (S754_finite false m e)
   == inject_Z (Zpos m * 2 ^ e))%Q.
Proof.
  intros He. unfold Compositor.number_value.
  rewrite inject_Z_mult, Zpower_Qpower by assumption.
  reflexivity.
Qed.

Lemma number_value_neg_exp m e :
  (e < 0)%Z ->
  (Compositor.number_value (S754_finite false m e)
   == inject_Z (Zpos m) / inject_Z (2 ^ (- e)))%Q.
Proof.
  intros He. unfold Compositor.number_value, Qdiv.
  rewrite Zpower_Qpower by lia.
  rewrite Qpower_opp, Qinv_involutive. reflexivity.
Qed.

(** For a finite, non-negative number below 2^32 the conversion is the
    integer part. *)
Lemma to_unsigned_long_floor m e :
  (Compositor.number_value (S754_finite false m e) < inject_Z (2 ^ 32))%Q ->
  (inject_Z (Compositor.to_unsigned_long (S754_finite false m e))
     <= Compositor.number_value (S754_finite false m e)
   /\ Compositor.number_value (S754_finite false m e)
     < inject_Z (Compositor.to_unsigned_long (S754_finite false m e)) + 1)%Q.
Proof.
  intros Hlt. unfold Compositor.to_unsigned_long.
  destruct (Z.leb_spec 0 e) as [He|He].
  - pose proof (number_value_nonneg_exp m e He) as Hv.
    rewrite Hv in Hlt |- *. rewrite <- Zlt_Qlt in Hlt.
    assert (Hpos : (0 <= Z.pos m * 2 ^ e)%Z).
    { apply Z.mul_nonneg_nonneg; [lia|]. apply Z.pow_nonneg. lia. }
    rewrite Z.mod_small by lia.
    split; [apply Qle_refl|].
    rewrite <- (inject_Z_plus _ 1), <- Zlt_Qlt. lia.
  - pose proof (number_value_neg_exp m e He) as Hv.
    rewrite Hv in Hlt |- *.
    assert (Hk : (0 < 2 ^ (- e))%Z) by (apply Z.pow_pos_nonneg; lia).
    assert (HkQ : (0 < inject_Z (2 ^ (- e)))%Q).
    { change 0%Q with (inject_Z 0). rewrite <- Zlt_Qlt. exact Hk. }
    pose proof (Z.mul_div_le (Z.pos m) (2 ^ (- e)) Hk) as Hlow.
    pose proof (Z.mul_succ_div_gt (Z.pos m) (2 ^ (- e)) Hk) as Hhigh.
    assert (Hq0 : (0 <= Z.pos m / 2 ^ (- e))%Z) by (apply Z.div_pos; lia).
    assert (Hle : (inject_Z (Z.pos m / 2 ^ (- e))
                   <= inject_Z (Z.pos m) / inject_Z (2 ^ (- e)))%Q).
    { apply Qle_shift_div_l; [exact HkQ|].
      rewrite <- inject_Z_mult, <- Zle_Qle. lia. }
    assert (Hsmall : (Z.pos m / 2 ^ (- e) < 2 ^ 32)%Z).
    { rewrite Zlt_Qlt. eapply Qle_lt_trans; [exact Hle|exact Hlt]. }
    rewrite Z.mod_small by lia.
    split; [exact Hle|].
    apply Qlt_shift_div_r; [exact HkQ|].
    rewrite <- (inject_Z_plus _ 1), <- inject_Z_mult, <- Zlt_Qlt.
    unfold Z.succ in Hhigh. lia.
Qed.


(* ===================================================================== *)
(** ** Integers as binary64 numbers *)
(* ===================================================================== *)

Local Open Scope Z_scope.

Lemma digits2_pos_iter_xO (p k : positive) :
  digits2_pos (Pos.iter xO p k) = (digits2_pos p + k)%positive.
Proof.
  induction k as [|k IH] using Pos.peano_ind.
  - simpl. lia.
  - rewrite Pos.iter_succ. simpl. rewrite IH. lia.
Qed.

Lemma digits2_pos_size (p : positive) : digits2_pos p = Pos.size p.
Proof.
  induction p as [q IH|q IH|]; simpl; [rewrite IH|rewrite IH|]; reflexivity.
Qed.

Lemma digits2_pos_bound (p : positive) :
  Zpos p < 2 ^ 53 -> Zpos (digits2_pos p) <= 53.
Proof.
  intros H.
  rewrite digits2_pos_size.
  pose proof (Pos.size_le p) as Hle.
  destruct (Z.le_gt_cases (Zpos (Pos.size p)) 53) as [|Hgt]; [assumption|exfalso].
  assert (2 ^ 54 <= Zpos (2 ^ Pos.size p)).
  { rewrite Pos2Z.inj_pow. apply Z.pow_le_mono_r; lia. }
  assert (Zpos (2 ^ Pos.size p) <= Zpos (p~0)) by (apply Pos2Z.pos_le_pos, Hle).
  rewrite Pos2Z.inj_xO in *. lia.
Qed.

(** A mantissa of 53 binary digits with an exponent in range is its own
    rounding. *)
Lemma binary_round_aux_canonical (m : positive) (e : Z) :
  digits2_pos m = 53%positive -> -1074 <= e <= 971 ->
  binary_round_aux 53 1024 false (Zpos m) e loc_Exact = S754_finite false m e.
Proof.
  intros Hd He.
  unfold binary_round_aux, shr_fexp, fexp, emin. cbn [Zdigits2 shr_record_of_loc].
  rewrite Hd.
  replace (Z.max (53 + e - 53) (3 - 1024 - 53) - e) with 0 by lia.
  cbn [shr shr_m loc_of_shr_record round_nearest_even Zdigits2 shr_record_of_loc].
  rewrite Hd.
  replace (Z.max (53 + e - 53) (3 - 1024 - 53) - e) with 0 by lia.
  cbn [shr shr_m].
  destruct (Z.leb_spec e (1024 - 53)); [reflexivity|lia].
Qed.

Lemma of_Z_finite (p : positive) :
  Zpos p < 2 ^ 53 ->
  exists m e, Compositor.of_Z (Zpos p) = S754_finite false m e
              /\ digits2_pos m = 53%positive /\ -52 <= e <= 0.
Proof.
  intros Hp. pose proof (digits2_pos_bound p Hp) as Hd.
  unfold Compositor.of_Z, binary_normalize, binary_round, shl_align, fexp, emin,
    Compositor.prec, Compositor.emax.
  replace (Z.max (Z.pos (digits2_pos p) + 0 - 53) (3 - 1024 - 53) - 0)
    with (Z.pos (digits2_pos p) - 53) by lia.
  destruct (Z.pos (digits2_pos p) - 53) as [|k|k] eqn:Hk; try lia.
  - exists p, 0. split; [|split; [|lia]].
    + apply binary_round_aux_canonical; [lia|lia].
    + lia.
  - exists (Pos.iter xO p k), (Z.max (Z.pos (digits2_pos p) + 0 - 53) (3 - 1024 - 53)).
    assert (Hdig : digits2_pos (Pos.iter xO p k) = 53%positive).
    { rewrite digits2_pos_iter_xO. lia. }
    split; [|split; [exact Hdig|lia]].
    apply binary_round_aux_canonical; [exact Hdig|lia].
Qed.

Lemma div_self (m : positive) (e : Z) :
  digits2_pos m = 53%positive ->
  Compositor.div (S754_finite false m e) (S754_finite false m e) = number_one.
Proof.
  intros Hd.
  unfold Compositor.div, SFdiv, SFdiv_core_binary, fexp, emin,
    Compositor.prec, Compositor.emax.
  cbn [Zdigits2 xorb]. rewrite Hd.
  replace (Z.min (Z.max (53 + e - (53 + e) - 53) (3 - 1024 - 53)) (e - e))
    with (-53) by lia.
  replace (e - e - -53) with 53 by lia.
  rewrite Z.shiftl_mul_pow2 by lia.
  destruct (Z.div_eucl (Z.pos m * 2 ^ 53) (Z.pos m)) as [q r] eqn:Hqr.
  assert (Hq : q = 2 ^ 53).
  { transitivity (Z.pos m * 2 ^ 53 / Z.pos m).
    - unfold Z.div. rewrite Hqr. reflexivity.
    - rewrite Z.mul_comm. apply Z.div_mul. lia. }
  assert (Hr : r = 0).
  { transitivity ((Z.pos m * 2 ^ 53) mod Z.pos m).
    - unfold Z.modulo. rewrite Hqr. reflexivity.
    - rewrite Z.mul_comm. apply Z.mod_mul. lia. }
  subst q r.
  assert (Hloc : new_location (Z.pos m) 0 = loc_Exact).
  { unfold new_location, new_location_even, new_location_odd.
    destruct (Z.even (Z.pos m)); reflexivity. }
  rewrite Hloc. vm_compute. reflexivity.
Qed.

Lemma mul_one (m : positive) (e : Z) :
  digits2_pos m = 53%positive -> -1022 <= e <= 971 ->
  Compositor.mul (S754_finite false m e) number_one = S754_finite false m e.
Proof.
  intros Hd He.
  unfold Compositor.mul, number_one, SFmul. cbn [xorb].
  rewrite Pos.mul_comm. cbn [Pos.mul].
  unfold binary_round_aux, shr_fexp, fexp, emin, Compositor.prec, Compositor.emax.
  cbn [Zdigits2 digits2_pos shr_record_of_loc]. rewrite Hd.
  cbn [Pos.succ].
  replace (Z.max (105 + (e + -52) - 53) (3 - 1024 - 53) - (e + -52)) with 52 by lia.
  cbn [shr iter_pos shr_1 orb shr_m loc_of_shr_record round_nearest_even
       Zdigits2 shr_record_of_loc].
  rewrite Hd.
  replace (Z.max (53 + (e + -52 + 52) - 53) (3 - 1024 - 53) - (e + -52 + 52))
    with 0 by lia.
  cbn [shr shr_m].
  replace (e + -52 + 52) with e by lia.
  destruct (Z.leb_spec e (1024 - 53)); [reflexivity|lia].
Qed.

Lemma scaled_width_unscaled (img : Compositor.HTMLImage) :
  0 < Compositor.width img < 2 ^ 53 -> 0 < Compositor.height img < 2 ^ 53 ->
  Compositor.scaled_width img (Compositor.height img)
  = Compositor.of_Z (Compositor.width img).
Proof.
  intros Hw Hh. unfold Compositor.scaled_width.
  destruct (Compositor.width img) as [|w|w]; try lia.
  destruct (Compositor.height img) as [|h|h]; try lia.
  destruct (of_Z_finite h) as (mh & eh & -> & Hdh & Heh); [lia|].
  destruct (of_Z_finite w) as (mw & ew & -> & Hdw & Hew); [lia|].
  rewrite (div_self mh eh Hdh). apply mul_one; [exact Hdw|lia].
Qed.

Lemma Zpos_iter_xO (p k : positive) :
  Zpos (Pos.iter xO p k) = Zpos p * 2 ^ Zpos k.
Proof.
  induction k as [|k IH] using Pos.peano_ind.
  - simpl. lia.
  - rewrite Pos.iter_succ, Pos2Z.inj_xO, IH, Pos2Z.inj_succ, Z.pow_succ_r by lia.
    lia.
Qed.

Lemma iter_pos_iter {A} (f : A -> A) (n : positive) : forall x,
  iter_pos f n x = Pos.iter f x n.
Proof.
  induction n as [n IH|n IH|]; intros x; simpl.
  - rewrite !IH, 2 Pos.iter_swap. reflexivity.
  - rewrite !IH. reflexivity.
  - reflexivity.
Qed.

(** Shifting out zero bits is exact. *)
Lemma shr_zero_bits (q n : positive) :
  iter_pos shr_1 n {| shr_m := Zpos (Pos.iter xO q n); shr_r := false; shr_s := false |}
  = {| shr_m := Zpos q; shr_r := false; shr_s := false |}.
Proof.
  rewrite iter_pos_iter.
  induction n as [|n IH] using Pos.peano_ind.
  - reflexivity.
  - rewrite Pos.iter_succ_r, Pos.iter_succ. simpl. exact IH.
Qed.

Lemma of_Z_canonical (p : positive) :
  Zpos p < 2 ^ 53 -> Compositor.of_Z (Zpos p) = canonical p.
Proof.
  intros Hp. pose proof (digits2_pos_bound p Hp) as Hd.
  unfold canonical, Compositor.of_Z, binary_normalize, binary_round, shl_align, fexp, emin,
    Compositor.prec, Compositor.emax.
  replace (Z.max (Z.pos (digits2_pos p) + 0 - 53) (3 - 1024 - 53) - 0)
    with (Z.pos (digits2_pos p) - 53) by lia.
  destruct (Z.pos (digits2_pos p) - 53) as [|k|k] eqn:Hk; try lia.
  - apply binary_round_aux_canonical; [lia|lia].
  - replace (Z.max (Z.pos (digits2_pos p) + 0 - 53) (3 - 1024 - 53))
      with (Z.neg k) by lia.
    apply binary_round_aux_canonical; [|lia].
    rewrite digits2_pos_iter_xO. lia.
Qed.

(** A mantissa of 53 digits followed by [j] zero bits is rounded to
    itself. *)
Lemma binary_round_aux_shift (q j : positive) (e : Z) :
  digits2_pos q = 53%positive -> -1074 <= e -> e + Zpos j <= 971 ->
  binary_round_aux 53 1024 false (Zpos (Pos.iter xO q j)) e loc_Exact
  = S754_finite false q (e + Zpos j).
Proof.
  intros Hd He1 He2.
  unfold binary_round_aux, shr_fexp, fexp, emin.
  cbn [Zdigits2 shr_record_of_loc]. rewrite digits2_pos_iter_xO.
  replace (Z.max (Z.pos (digits2_pos q + j) + e - 53) (3 - 1024 - 53) - e)
    with (Z.pos j) by lia.
  cbn [shr]. rewrite shr_zero_bits.
  cbn [shr_m loc_of_shr_record round_nearest_even Zdigits2]. rewrite Hd.
  replace (Z.max (53 + (e + Z.pos j) - 53) (3 - 1024 - 53) - (e + Z.pos j))
    with 0 by lia.
  cbn [shr shr_m].
  destruct (Z.leb_spec (e + Z.pos j) (1024 - 53)); [reflexivity|lia].
Qed.

(** Rounding [p * 2^k] at exponent [-k] gives the canonical form of [p]. *)
Lemma binary_round_shifted (p k : positive) :
  Zpos p < 2 ^ 53 -> Zpos k <= 52 ->
  binary_round 53 1024 false (Pos.iter xO p k) (Zneg k) = canonical p.
Proof.
  intros Hp Hk. pose proof (digits2_pos_bound p Hp) as Hd.
  unfold binary_round, shl_align, fexp, emin.
  rewrite digits2_pos_iter_xO.
  replace (Z.max (Z.pos (digits2_pos p + k) + Z.neg k - 53) (3 - 1024 - 53) - Z.neg k)
    with (Z.pos (digits2_pos p) - 53 + Z.pos k) by lia.
  unfold canonical.
  destruct (Z.pos (digits2_pos p) - 53 + Z.pos k) as [|j|j] eqn:Hj.
  - (* the mantissa has 53 digits already *)
    rewrite binary_round_aux_canonical by (rewrite ?digits2_pos_iter_xO; lia).
    replace (Z.pos (digits2_pos p) - 53) with (Z.neg k) by lia.
    reflexivity.
  - (* more than 53 digits: [j] zero bits are shifted out *)
    destruct (Z.pos (digits2_pos p) - 53) as [|c|c] eqn:Hc; try lia.
    + assert (j = k) by lia. subst j.
      rewrite binary_round_aux_shift by lia.
      f_equal. lia.
    + assert (Hkj : k = (j + c)%positive) by lia.
      rewrite Hkj at 1. rewrite Pos.iter_add.
      rewrite binary_round_aux_shift by (rewrite ?digits2_pos_iter_xO; lia).
      f_equal. lia.
  - (* fewer than 53 digits: pad *)
    destruct (Z.pos (digits2_pos p) - 53) as [|c|c] eqn:Hc; try lia.
    rewrite <- Pos.iter_add.
    replace (Z.max (Z.pos (digits2_pos p + k) + Z.neg k - 53) (3 - 1024 - 53))
      with (Z.neg c) by lia.
    assert (Hc' : c = (j + k)%positive) by lia. rewrite <- Hc'.
    apply binary_round_aux_canonical; [|lia].
    rewrite digits2_pos_iter_xO. lia.
Qed.

Lemma binary_round_scaled (p s : positive) (k : Z) :
  Zpos p < 2 ^ 53 -> 0 <= k <= 52 -> Zpos s = Zpos p * 2 ^ k ->
  binary_round 53 1024 false s (- k) = canonical p.
Proof.
  intros Hp Hk Hs. destruct k as [|k|k]; try lia.
  - assert (s = p) by lia. subst s.
    rewrite <- (of_Z_canonical p Hp). reflexivity.
  - rewrite <- Zpos_iter_xO in Hs. inversion Hs.
    apply binary_round_shifted; lia.
Qed.

Lemma canonical_form (p : positive) :
  Zpos p < 2 ^ 53 ->
  exists m k, canonical p = S754_finite false m (- k)
              /\ 0 <= k <= 52 /\ Zpos m = Zpos p * 2 ^ k
              /\ digits2_pos m = 53%positive.
Proof.
  intros Hp. pose proof (digits2_pos_bound p Hp) as Hd. unfold canonical.
  destruct (Z.pos (digits2_pos p) - 53) as [|c|c] eqn:Hc; try lia.
  - exists p, 0. repeat split; try lia.
  - exists (Pos.iter xO p c), (Z.pos c). repeat split; try lia.
    + apply Zpos_iter_xO.
    + rewrite digits2_pos_iter_xO. lia.
Qed.

Lemma shl_align_value (m : positive) (e ez : Z) :
  ez <= e -> Zpos (fst (shl_align m e ez)) = Zpos m * 2 ^ (e - ez).
Proof.
  intros H. unfold shl_align.
  destruct (ez - e) as [|d|d] eqn:Hd; try lia; cbn [fst].
  - replace (e - ez) with 0 by lia. lia.
  - rewrite Zpos_iter_xO. f_equal. f_equal. lia.
Qed.

(** The sum of two positive integers is exact below 2^53. *)
Lemma add_canonical (a b : positive) :
  Zpos a + Zpos b < 2 ^ 53 ->
  Compositor.add (canonical a) (canonical b) = canonical (a + b).
Proof.
  intros Hab.
  destruct (canonical_form a) as (ma & ka & -> & Hka & Hma & _); [lia|].
  destruct (canonical_form b) as (mb & kb & -> & Hkb & Hmb & _); [lia|].
  unfold Compositor.add, SFadd, cond_Zopp.
  set (ez := Z.min (- ka) (- kb)).
  assert (Ha : Zpos (fst (shl_align ma (- ka) ez)) = Zpos ma * 2 ^ (- ka - ez))
    by (apply shl_align_value; lia).
  assert (Hb : Zpos (fst (shl_align mb (- kb) ez)) = Zpos mb * 2 ^ (- kb - ez))
    by (apply shl_align_value; lia).
  destruct (Zpos (fst (shl_align ma (- ka) ez))
            + Zpos (fst (shl_align mb (- kb) ez))) as [|s|s] eqn:Hs; try lia.
  unfold binary_normalize.
  replace ez with (- (- ez)) by lia.
  apply binary_round_scaled; try lia.
  rewrite Pos2Z.inj_add, <- Hs, Ha, Hb, Hma, Hmb.
  rewrite <- !Z.mul_assoc, <- !Z.pow_add_r by lia.
  replace (ka + (- ka - ez)) with (- ez) by lia.
  replace (kb + (- kb - ez)) with (- ez) by lia.
  lia.
Qed.

Lemma to_unsigned_long_canonical (p : positive) :
  Zpos p < 2 ^ 32 -> Compositor.to_unsigned_long (canonical p) = Zpos p.
Proof.
  intros Hp.
  destruct (canonical_form p) as (m & k & -> & Hk & Hm & _); [lia|].
  unfold Compositor.to_unsigned_long.
  destruct (Z.leb_spec 0 (- k)).
  - assert (k = 0) by lia. subst k. rewrite Hm. change (2 ^ (- 0)) with 1.
    rewrite Z.mod_small; lia.
  - rewrite Z.opp_involutive, Hm, Z.div_mul by (apply Z.pow_nonzero; lia).
    rewrite Z.mod_small; lia.
Qed.

(** Two images of the same height: the canvas is as wide as both. *)
Lemma same_height_width (before after : Compositor.HTMLImage) :
  Compositor.decodable before -> Compositor.decodable after ->
  Compositor.height before = Compositor.height after ->
  Compositor.to_unsigned_long
    (Compositor.add
       (Compositor.scaled_width before (Compositor.height before))
       (Compositor.scaled_width after (Compositor.height before)))
  = Compositor.width before + Compositor.width after.
Proof.
  intros [Hbw Hbh] [Haw Hah] Heq.
  rewrite Heq at 2.
  rewrite !scaled_width_unscaled by lia.
  destruct (Compositor.width before) as [|a|a]; try lia.
  destruct (Compositor.width after) as [|b|b]; try lia.
  rewrite !of_Z_canonical by lia.
  rewrite add_canonical by lia.
  rewrite to_unsigned_long_canonical; lia.
Qed.

Local Close Scope Z_scope.

(* ===================================================================== *)
(** ** The phases of one chain *)
(* ===================================================================== *)

Lemma solo_state_settled (r : settled Result) rs t' :
  solo_state (Settled r) rs = Some t' -> rs = [] /\ t' = Settled r.
Proof. destruct rs; simpl; intros H; inversion H; auto. Qed.

(** The reply to the generation request settles the chain at once. *)
Ltac decor_reply Hs o2 :=
  cbn [solo_state pending_op resume bind] in Hs;
  unfold chain_result, decor_result;
  destruct o2 as [response|[message|]];
  cbn [bind try_catch throw ret lift] in Hs;
  [ destruct (first_candidate response) as [c|];
    cbn [bind try_catch throw ret lift] in Hs;
    [ destruct (scan_candidate c (JString "")) as [img|[message|]];
      cbn [bind try_catch throw ret lift] in Hs;
      [ destruct (truthy img); cbn [negb bind try_catch throw ret lift] in Hs | | ]
    | cbn [truthy String.eqb negb bind try_catch throw ret lift] in Hs ]
  | | ];
  apply solo_state_settled in Hs as [_ ->]; reflexivity.

(** Design generation: the read of the room image, the reads of the decor
    images if there are any, the model call, and the chain is settled. *)
Lemma generation_phase_settles roomImage decorImages prompt enhanced rs t' o2 :
  solo_state (generation_phase roomImage decorImages prompt enhanced) rs = Some t' ->
  outcomes rs = [o2] ->
  t' = Settled (chain_result enhanced o2).
Proof.
  unfold generation_phase, generateDecorIdeas.
  intros Hs Ho.
  destruct rs as [|[|o] rs]; simpl in Ho; try discriminate.
  cbn [solo_state pending_op resume bind fileToGenerativePart ret] in Hs.
  destruct decorImages as [|f fs].
  - cbn [fileToGenerativeParts bind ret try_catch generateContent] in Hs.
    destruct rs as [|[|o] rs]; simpl in Ho; try discriminate.
    inversion Ho; subst o.
    decor_reply Hs o2.
  - cbn [fileToGenerativeParts bind ret try_catch generateContent] in Hs.
    destruct rs as [|[|o] rs]; simpl in Ho; try discriminate.
    cbn [solo_state pending_op resume bind ret try_catch generateContent] in Hs.
    destruct rs as [|[|o] rs]; simpl in Ho; try discriminate.
    inversion Ho; subst o.
    decor_reply Hs o2.
Qed.

(** A chain that has received the outcomes of its two model calls is
    settled. *)
Lemma chain_settles decorImages prompt roomImage rs t' o1 o2 :
  solo_state (generationPromise decorImages prompt roomImage) rs = Some t' ->
  outcomes rs = [o1; o2] ->
  t' = Settled (chain_result (enhance_result roomImage o1) o2).
Proof.
  intros Hs Ho.
  destruct rs as [|[|o] rs]; simpl in Ho; try discriminate.
  unfold generationPromise, enhanceImage in Hs.
  cbn [solo_state pending_op resume bind fileToGenerativePart ret try_catch
       generateContent] in Hs.
  destruct rs as [|[|o] rs]; simpl in Ho; try discriminate.
  inversion Ho as [[Ho1 Ho2]]; subst o. clear Ho.
  cbn [solo_state pending_op resume bind] in Hs.
  fold (generation_phase roomImage decorImages prompt) in Hs.
  unfold enhance_result.
  destruct o1 as [response|e]; cbn [bind try_catch throw ret] in Hs.
  - destruct (find_image_part response) as [part|] eqn:Hfind.
    + rewrite (find_image_part_truthy _ _ Hfind) in Hs.
      cbn [bind try_catch throw ret] in Hs.
      eapply generation_phase_settles; eauto.
    + cbn [bind try_catch throw ret] in Hs.
      destruct rs as [|[|o] rs]; simpl in Ho2; try discriminate.
      cbn [solo_state pending_op resume bind ret data part_inlineData] in Hs.
      eapply generation_phase_settles; eauto.
  - destruct rs as [|[|o] rs]; simpl in Ho2; try discriminate.
    cbn [solo_state pending_op resume bind ret data part_inlineData] in Hs.
    eapply generation_phase_settles; eauto.
Qed.

Lemma deliver_settled_logged i r run run' :
  settled_logged run -> deliver i r run = Some run' -> settled_logged run'.
Proof.
  intros Hc Hd.
  apply deliver_inv in Hd as (t & op & t' & Hi & Hop & Hres & ->).
  unfold settled_logged. rewrite poll_generationPromises, poll_log. simpl.
  intros j res Hj. apply in_or_app.
  destruct (Nat.eq_dec i j) as [->|Hne].
  - right. right. rewrite (nth_error_update_eq _ _ _ _ Hi) in Hj.
    inversion Hj; subst. simpl. auto.
  - left. rewrite nth_error_update_neq in Hj by assumption. apply Hc, Hj.
Qed.

Lemma deliver_all_settled_logged sched : forall run run',
  settled_logged run -> deliver_all sched run = Some run' -> settled_logged run'.
Proof.
  induction sched as [|[i r] sched IH]; simpl; intros run run' Hc H.
  - inversion H; subst. assumption.
  - destruct (deliver i r run) as [run1|] eqn:Hd; [|discriminate].
    eapply IH; [|exact H]. eapply deliver_settled_logged; eauto.
Qed.

Lemma handleGenerate_settled_logged s :
  roomImages s <> [] -> trim (stylePrompt s) <> "" ->
  settled_logged (handleGenerate s).
Proof.
  intros Hrooms Hprompt. rewrite handleGenerate_valid by assumption.
  unfold settled_logged. simpl. intros i r Hi.
  apply nth_error_In, in_map_iff in Hi as [room [Heq _]].
  destruct (generationPromise_head (decorImages s) (stylePrompt s) room) as [k Hk].
  rewrite Hk in Heq. discriminate.
Qed.

(** Once both model calls of a room image have been answered, its chain is
    settled in the pool and in the log, with what the two outcomes give. *)
Lemma answered_chain_is_settled s sched run i roomImage o1 o2 :
  roomImages s <> [] -> trim (stylePrompt s) <> "" ->
  run_handleGenerate s sched = Some run ->
  nth_error (roomImages s) i = Some roomImage ->
  outcomes (replies_to i sched) = [o1; o2] ->
  nth_error (generationPromises run) i
  = Some (Settled (chain_result (enhance_result roomImage o1) o2))
  /\ In (i, SettledWith (chain_result (enhance_result roomImage o1) o2)) (log run).
Proof.
  intros Hrooms Hprompt Hrun Hroom Hout.
  assert (Hlogged : settled_logged run).
  { eapply deliver_all_settled_logged; [|exact Hrun].
    apply handleGenerate_settled_logged; assumption. }
  unfold run_handleGenerate in Hrun.
  rewrite handleGenerate_valid in Hrun by assumption.
  destruct (deliver_all_chain _ _ _ i
              (generationPromise (decorImages s) (stylePrompt s) roomImage) Hrun)
    as (t' & Ht' & Hsolo & _).
  { simpl. apply map_nth_error, Hroom. }
  rewrite (chain_settles _ _ _ _ _ _ _ Hsolo Hout) in Ht'.
  split; [exact Ht'|]. apply Hlogged, Ht'.
Qed.

(* ===================================================================== *)
(** ** The orchestrator: properties of the specification *)
(* ===================================================================== *)

(** C1.  For a non-empty list of room images and a prompt that is not empty
    after trimming, a run that ends in success leaves a result list as long
    as the list of room images, and its i-th result is what the chain of
    the i-th room image yields on the outcomes that the model returned to
    the calls of that chain, in whatever order the schedule completes the
    calls of the batch. *)
Theorem run_results_in_input_order s sched run :
  roomImages s <> [] -> trim (stylePrompt s) <> "" ->
  run_handleGenerate s sched = Some run ->
  isLoading (state run) = false -> error (state run) = None ->
  List.length (results (state run)) = List.length (roomImages s)
  /\ forall i roomImage,
       nth_error (roomImages s) i = Some roomImage ->
       exists r,
         nth_error (results (state run)) i = Some r
         /\ exec (generationPromise (decorImages s) (stylePrompt s) roomImage)
                 (outcomes (replies_to i sched)) = Some (Fulfilled r).
Proof.
  intros Hrooms Hprompt Hrun Hload Herr.
  pose proof (run_handleGenerate_invariant _ _ _ Hrooms Hprompt Hrun) as Hinv.
  unfold run_invariant in Hinv. destruct (awaiting run).
  - destruct Hinv as (_ & _ & Hl & _). congruence.
  - destruct Hinv as (_ & [(vs & Hps & Hres & _ & _)|(e & _ & He & _)]);
      [|congruence].
    pose proof (deliver_all_length _ _ _ Hrun) as Hlen.
    rewrite handleGenerate_valid in Hlen by assumption. simpl in Hlen.
    rewrite Hps, !length_map in Hlen.
    split; [rewrite Hres; exact Hlen|].
    intros i roomImage Hroom.
    destruct (nth_error vs i) as [r|] eqn:Hr.
    + exists r. split; [rewrite Hres; exact Hr|].
      destruct (settled_chain_exec s sched run i (Fulfilled r) Hrooms Hprompt Hrun)
        as (roomImage' & Hroom' & Hexec).
      { rewrite Hps. apply map_nth_error with (f := fun v => Settled (Fulfilled v)).
        exact Hr. }
      rewrite Hroom in Hroom'. inversion Hroom'; subst. exact Hexec.
    + exfalso. apply nth_error_None in Hr.
      assert (i < List.length (roomImages s))%nat
        by (apply nth_error_Some; congruence).
      lia.
Qed.

Lemma run_results_in_input_order_witness :
  exists run,
    run_handleGenerate Scenario.cozy Scenario.B_before_A = Some run
    /\ results (state run) =
       [ {| enhancedBeforeImage := JString "RUE="; idea := JString "REE=" |};
         {| enhancedBeforeImage := JString "RUI="; idea := JString "REI=" |} ]
    /\ (List.length (results (state run)) = List.length (roomImages Scenario.cozy)
        /\ forall i roomImage,
             nth_error (roomImages Scenario.cozy) i = Some roomImage ->
             exists r,
               nth_error (results (state run)) i = Some r
               /\ exec (generationPromise (decorImages Scenario.cozy)
                          (stylePrompt Scenario.cozy) roomImage)
                       (outcomes (replies_to i Scenario.B_before_A))
                  = Some (Fulfilled r)).
Proof.
  eexists. split; [vm_compute; reflexivity|]. split; [reflexivity|].
  apply (run_results_in_input_order Scenario.cozy Scenario.B_before_A).
  - discriminate.
  - vm_compute. discriminate.
  - vm_compute. reflexivity.
  - reflexivity.
  - reflexivity.
Defined.

(** Whenever the promise of some chain has been rejected, the run has
    failed as a whole. *)
Lemma rejected_chain_fails_batch s sched run i e :
  roomImages s <> [] -> trim (stylePrompt s) <> "" ->
  run_handleGenerate s sched = Some run ->
  In (i, SettledWith (Rejected e)) (log run) ->
  results (state run) = []
  /\ isLoading (state run) = false
  /\ exists first,
       first_rejection (log run) = Some first
       /\ GenerationError first
       /\ error (state run) = Some (error_text first).
Proof.
  intros Hrooms Hprompt Hrun Hin.
  pose proof (run_handleGenerate_invariant _ _ _ Hrooms Hprompt Hrun) as Hinv.
  pose proof (In_first_rejection _ _ _ Hin) as Hsome.
  unfold run_invariant in Hinv. destruct (awaiting run).
  - destruct Hinv as (_ & _ & _ & _ & Hnone). congruence.
  - destruct Hinv as (Hload & [(vs & _ & _ & _ & Hnone)
                              |(first & Hfirst & Herr & Hres & Hmem)]);
      [congruence|].
    repeat split; auto. exists first. repeat split; auto.
    apply In_nth_error in Hmem as [j Hj].
    destruct (settled_chain_exec s sched run j (Rejected first) Hrooms Hprompt
                Hrun Hj) as (roomImage & _ & Hexec).
    eapply generationPromise_rejected, Hexec.
Qed.

(** The first rejection of a log, with its place in the log. *)
Lemma first_rejection_split (l : list (nat * event)) e :
  first_rejection l = Some e ->
  exists pre j post,
    l = pre ++ (j, SettledWith (Rejected e)) :: post
    /\ forall k e', ~ In (k, SettledWith (Rejected e')) pre.
Proof.
  induction l as [|[k ev] l IH]; simpl; [discriminate|].
  intros H.
  destruct ev as [op|op|[v|e0]].
  - destruct (IH H) as (pre & j & post & -> & Hpre).
    exists ((k, Issued op) :: pre), j, post. split; [reflexivity|].
    intros k' e' [E|Hin]; [discriminate|exact (Hpre _ _ Hin)].
  - destruct (IH H) as (pre & j & post & -> & Hpre).
    exists ((k, Completed op) :: pre), j, post. split; [reflexivity|].
    intros k' e' [E|Hin]; [discriminate|exact (Hpre _ _ Hin)].
  - destruct (IH H) as (pre & j & post & -> & Hpre).
    exists ((k, SettledWith (Fulfilled v)) :: pre), j, post. split; [reflexivity|].
    intros k' e' [E|Hin]; [discriminate|exact (Hpre _ _ Hin)].
  - inversion H; subst e0. exists [], k, l. split; [reflexivity|].
    intros k' e' [].
Qed.

(** C2.  When the design-generation call of some room image has failed
    (the chain of that room image has received the outcomes of its two
    model calls, and [generateDecorIdeas] is rejected on the second), the
    run has failed as a whole: the chain is rejected with that error, no
    result is committed (the list is empty, also when other chains
    succeeded), loading has ended, and the error shown is the message of
    the first rejection of the batch: the log holds a rejection with an
    [Error] of [generateDecorIdeas], no chain was rejected before it, and
    the message of that [Error] is the text of the alert. *)
Theorem generation_failure_fails_batch s sched run i roomImage o1 o2 e :
  roomImages s <> [] -> trim (stylePrompt s) <> "" ->
  run_handleGenerate s sched = Some run ->
  nth_error (roomImages s) i = Some roomImage ->
  outcomes (replies_to i sched) = [o1; o2] ->
  exec (generateDecorIdeas roomImage (decorImages s) (stylePrompt s)) [o2]
  = Some (Rejected e) ->
  In (i, SettledWith (Rejected e)) (log run)
  /\ results (state run) = []
  /\ isLoading (state run) = false
  /\ exists pre j message post,
       log run = pre ++ (j, SettledWith (Rejected (JsError message))) :: post
       /\ (forall k e', ~ In (k, SettledWith (Rejected e')) pre)
       /\ first_rejection (log run) = Some (JsError message)
       /\ GenerationError (JsError message)
       /\ error (state run) = Some message.
Proof.
  intros Hrooms Hprompt Hrun Hroom Hout Hfail.
  rewrite exec_rest_exec, exec_rest_generateDecorIdeas in Hfail.
  simpl in Hfail. inversion Hfail as [Hd]. clear Hfail.
  destruct (answered_chain_is_settled s sched run i roomImage o1 o2
              Hrooms Hprompt Hrun Hroom Hout) as [_ Hlog].
  unfold chain_result in Hlog. rewrite Hd in Hlog.
  split; [exact Hlog|].
  destruct (rejected_chain_fails_batch s sched run i e Hrooms Hprompt Hrun Hlog)
    as (Hres & Hload & first & Hfirst & Hgen & Herr).
  split; [exact Hres|]. split; [exact Hload|].
  destruct (first_rejection_split _ _ Hfirst) as (pre & j & post & Hsplit & Hpre).
  destruct Hgen as [message|].
  - exists pre, j, ("Failed to generate design: " ++ message)%string, post.
    repeat split; auto. constructor.
  - exists pre, j, "An unknown error occurred while generating the design.", post.
    repeat split; auto. constructor.
Qed.

Lemma generation_failure_fails_batch_witness :
  exists run,
    run_handleGenerate Scenario.cozy Scenario.A_succeeds_B_fails = Some run
    /\ nth_error (generationPromises run) 0 =
       Some (Settled (Fulfilled {| enhancedBeforeImage := JString "RUE=";
                                   idea := JString "REE=" |}))
    /\ error (state run) =
       Some "Failed to generate design: The model did not return an image. Please try refining your prompt."
    /\ (In (1%nat, SettledWith
                     (Rejected
                        (JsError ("Failed to generate design: " ++ no_image_message))))
           (log run)
        /\ results (state run) = []
        /\ isLoading (state run) = false
        /\ exists pre j message post,
             log run = pre ++ (j, SettledWith (Rejected (JsError message))) :: post
             /\ (forall k e', ~ In (k, SettledWith (Rejected e')) pre)
             /\ first_rejection (log run) = Some (JsError message)
             /\ GenerationError (JsError message)
             /\ error (state run) = Some message).
Proof.
  eexists. split; [vm_compute; reflexivity|].
  split; [reflexivity|]. split; [reflexivity|].
  apply (generation_failure_fails_batch Scenario.cozy
           Scenario.A_succeeds_B_fails _ 1 Scenario.roomB
           (Rejected (JsError "503")) (Fulfilled Scenario.text_only_response)
           (JsError ("Failed to generate design: " ++ no_image_message))).
  - discriminate.
  - vm_compute. discriminate.
  - vm_compute. reflexivity.
  - reflexivity.
  - reflexivity.
  - reflexivity.
Defined.

(** C6.  With an empty list of room images, or with a prompt that is empty
    or consists of white space only (any of the code points that [trim]
    strips), [handleGenerate] ends at once with a validation message as
    the error: the message about the room images when there is none, the
    message about the prompt otherwise.  No chain is created, no external
    call is issued then or later, and nothing else of the state changes. *)
Theorem validation_blocks_all_requests s :
  roomImages s = [] \/ blank (stylePrompt s) = true ->
  let message :=
    if (List.length (roomImages s) =? 0)%nat
    then "Please upload at least one image of your room."
    else "Please provide a style prompt." in
  ValidationError message
  /\ error (state (handleGenerate s)) = Some message
  /\ results (state (handleGenerate s)) = results s
  /\ isLoading (state (handleGenerate s)) = isLoading s
  /\ roomImages (state (handleGenerate s)) = roomImages s
  /\ decorImages (state (handleGenerate s)) = decorImages s
  /\ stylePrompt (state (handleGenerate s)) = stylePrompt s
  /\ generationPromises (handleGenerate s) = []
  /\ log (handleGenerate s) = []
  /\ awaiting (handleGenerate s) = false
  /\ forall sched run,
       run_handleGenerate s sched = Some run ->
       sched = [] /\ run = handleGenerate s.
Proof.
  intros H message.
  assert (Hstart : ValidationError message
            /\ handleGenerate s =
               {| state := setError s (Some message); generationPromises := [];
                  awaiting := false; log := [] |}).
  { subst message. unfold handleGenerate.
    destruct (roomImages s) as [|room rooms] eqn:Hr.
    - split; [constructor 1|reflexivity].
    - destruct H as [H|H]; [discriminate|].
      apply trim_blank in H. rewrite H.
      split; [constructor 2|reflexivity]. }
  destruct Hstart as (Hv & Hstart).
  split; [exact Hv|]. rewrite Hstart. cbn [state generationPromises log awaiting].
  repeat (split; [reflexivity|]).
  intros sched run Hrun. unfold run_handleGenerate in Hrun. rewrite Hstart in Hrun.
  destruct sched as [|[i r] sched]; simpl in Hrun.
  - inversion Hrun. auto.
  - unfold deliver in Hrun. simpl in Hrun. destruct i; discriminate.
Qed.

Lemma validation_blocks_all_requests_witness :
  blank (stylePrompt Scenario.wide_space_prompt) = true
  /\ ValidationError "Please provide a style prompt."
  /\ error (state (handleGenerate Scenario.wide_space_prompt))
     = Some "Please provide a style prompt."
  /\ results (state (handleGenerate Scenario.wide_space_prompt))
     = results Scenario.wide_space_prompt
  /\ isLoading (state (handleGenerate Scenario.wide_space_prompt))
     = isLoading Scenario.wide_space_prompt
  /\ roomImages (state (handleGenerate Scenario.wide_space_prompt))
     = roomImages Scenario.wide_space_prompt
  /\ decorImages (state (handleGenerate Scenario.wide_space_prompt))
     = decorImages Scenario.wide_space_prompt
  /\ stylePrompt (state (handleGenerate Scenario.wide_space_prompt))
     = stylePrompt Scenario.wide_space_prompt
  /\ generationPromises (handleGenerate Scenario.wide_space_prompt) = []
  /\ log (handleGenerate Scenario.wide_space_prompt) = []
  /\ awaiting (handleGenerate Scenario.wide_space_prompt) = false
  /\ forall sched run,
       run_handleGenerate Scenario.wide_space_prompt sched = Some run ->
       sched = [] /\ run = handleGenerate Scenario.wide_space_prompt.
Proof.
  split; [reflexivity|].
  apply (validation_blocks_all_requests Scenario.wide_space_prompt).
  right. reflexivity.
Defined.

(** The same on a prompt of spaces and a line feed, and with no room
    image. *)
Example validation_blocks_plain_blank :
  error (state (handleGenerate Scenario.blank_prompt))
  = Some "Please provide a style prompt."
  /\ log (handleGenerate Scenario.blank_prompt) = []
  /\ error (state (handleGenerate Scenario.no_rooms))
     = Some "Please upload at least one image of your room.".
Proof. repeat split; reflexivity. Qed.

(** C7, as amended.  For one room image the two operations run one after
    the other: the design-generation request of a chain is issued only
    after an enhancement request of that chain has completed.  Across room
    images the chains run concurrently: [handleGenerate] starts every chain
    (each on the read of its room image) before anything completes, and in
    every state that a schedule reaches, a chain that is not settled has an
    operation in flight whose completion can be delivered at once, whatever
    the other chains are doing. *)
Theorem generation_waits_for_enhancement s sched run :
  roomImages s <> [] -> trim (stylePrompt s) <> "" ->
  run_handleGenerate s sched = Some run ->
  (forall i pre post req,
     (i < List.length (roomImages s))%nat ->
     log run = pre ++ (i, Issued (OpModel req)) :: post ->
     is_decor_request req ->
     exists req', is_enhance_request req' /\ In (i, Completed (OpModel req')) pre)
  /\ log (handleGenerate s) =
     map (fun ir : nat * File => (fst ir, Issued (OpRead (snd ir))))
         (combine (seq 0 (List.length (roomImages s))) (roomImages s))
  /\ (forall i t,
        nth_error (generationPromises run) i = Some t ->
        (exists r, t = Settled r)
        \/ (exists op r run', pending_op t = Some op
                              /\ deliver i r run = Some run')).
Proof.
  intros Hrooms Hprompt Hrun. split; [|split].
  - intros i pre post req Hi Hlog Hreq.
    eapply decor_request_after_enhancement; eauto.
  - rewrite handleGenerate_valid by assumption. simpl.
    apply announce_all_start.
  - intros i t Hi.
    destruct t as [r|f k|fs k|req k].
    + left. exists r. reflexivity.
    + right. exists (OpRead f), ReadEnded. unfold deliver. rewrite Hi. simpl.
      eexists. split; reflexivity.
    + right. exists (OpReadAll fs), ReadEnded. unfold deliver. rewrite Hi. simpl.
      eexists. split; reflexivity.
    + right. exists (OpModel req), (ModelSettled (Rejected JsNonError)).
      unfold deliver. rewrite Hi. simpl.
      eexists. split; reflexivity.
Qed.

Lemma generation_waits_for_enhancement_witness :
  exists run,
    run_handleGenerate Scenario.cozy Scenario.B_before_A = Some run
    /\ (forall i pre post req,
          (i < List.length (roomImages Scenario.cozy))%nat ->
          log run = pre ++ (i, Issued (OpModel req)) :: post ->
          is_decor_request req ->
          exists req', is_enhance_request req'
                       /\ In (i, Completed (OpModel req')) pre)
    /\ log (handleGenerate Scenario.cozy) =
       map (fun ir : nat * File => (fst ir, Issued (OpRead (snd ir))))
           (combine (seq 0 (List.length (roomImages Scenario.cozy)))
                    (roomImages Scenario.cozy))
    /\ (forall i t,
          nth_error (generationPromises run) i = Some t ->
          (exists r, t = Settled r)
          \/ (exists op r run', pending_op t = Some op
                                /\ deliver i r run = Some run')).
Proof.
  eexists. split; [vm_compute; reflexivity|].
  apply (generation_waits_for_enhancement Scenario.cozy Scenario.B_before_A).
  - discriminate.
  - vm_compute. discriminate.
  - vm_compute. reflexivity.
Defined.

(** C7, as stated, fails: with the single room image of the "minimalist"
    scenario no schedule issues the generation request before an
    enhancement request of the same chain has completed. *)
Lemma generation_never_overlaps_enhancement :
  ~ issued_before_enhancement_completed Scenario.minimalist 0.
Proof.
  intros (sched & run & pre & post & req & Hrun & Hlog & Hreq & Hnot).
  apply Hnot.
  apply (decor_request_after_enhancement Scenario.minimalist sched run 0
           pre post req); auto.
  - discriminate.
  - vm_compute. discriminate.
Qed.

(** C10, as amended.  When a run has failed, the result list is empty if
    the input passed validation (the results of an earlier batch are
    cleared before any request is issued and are not restored), and it is
    the list as it was before the run if validation failed, that is, if
    there was no room image or the prompt was blank: empty, or made of
    white space code points only. *)
Theorem failed_run_result_list s sched run :
  run_handleGenerate s sched = Some run ->
  error (state run) <> None ->
  results (state run) = (if passes_validation s then [] else results s)
  /\ passes_validation s
     = negb (List.length (roomImages s) =? 0)%nat && negb (blank (stylePrompt s))
  /\ (roomImages s = [] \/ blank (stylePrompt s) = true ->
      results (state run) = results s).
Proof.
  intros Hrun Herr.
  assert (Hpv : passes_validation s
                = negb (List.length (roomImages s) =? 0)%nat
                  && negb (blank (stylePrompt s))).
  { unfold passes_validation. rewrite trim_empty_eqb. reflexivity. }
  assert (Hmain : results (state run)
                  = if passes_validation s then [] else results s).
  { unfold passes_validation.
    destruct (roomImages s) as [|room rooms] eqn:Hr.
    - simpl. unfold run_handleGenerate, handleGenerate in Hrun.
      rewrite Hr in Hrun. simpl in Hrun.
      destruct sched as [|[i r] sched]; simpl in Hrun.
      + inversion Hrun. reflexivity.
      + unfold deliver in Hrun. simpl in Hrun. destruct i; discriminate.
    - cbn [List.length Nat.eqb negb andb].
      destruct (String.eqb_spec (trim (stylePrompt s)) "") as [E|E]; simpl.
      + unfold run_handleGenerate, handleGenerate in Hrun.
        rewrite Hr, E in Hrun. simpl in Hrun.
        destruct sched as [|[i r] sched]; simpl in Hrun.
        * inversion Hrun. reflexivity.
        * unfold deliver in Hrun. simpl in Hrun. destruct i; discriminate.
      + assert (Hrooms : roomImages s <> []) by (rewrite Hr; discriminate).
        pose proof (run_handleGenerate_invariant _ _ _ Hrooms E Hrun) as Hinv.
        unfold run_invariant in Hinv. destruct (awaiting run).
        * destruct Hinv as (_ & Hnone & _). congruence.
        * destruct Hinv as (_ & [(vs & _ & _ & Hnone & _)|(e & _ & _ & Hres & _)]);
            [congruence|exact Hres]. }
  split; [exact Hmain|]. split; [exact Hpv|].
  intros Hinvalid. rewrite Hmain, Hpv.
  destruct Hinvalid as [Hr|Hb].
  - rewrite Hr. reflexivity.
  - rewrite Hb, andb_false_r. reflexivity.
Qed.

Lemma failed_run_result_list_witness :
  exists run,
    run_handleGenerate Scenario.cozy Scenario.A_succeeds_B_fails = Some run
    /\ results Scenario.cozy = [Scenario.earlier_result]
    /\ results (state run) = []
    /\ passes_validation Scenario.cozy = true.
Proof.
  eexists. split; [vm_compute; reflexivity|]. split; [reflexivity|].
  split; [|reflexivity].
  apply (failed_run_result_list Scenario.cozy Scenario.A_succeeds_B_fails).
  - vm_compute. reflexivity.
  - vm_compute. discriminate.
Defined.

(** C10, as stated, fails: a run that fails validation (here on a prompt of
    white space) leaves the result of the earlier batch on display. *)
Lemma validation_failure_keeps_results :
  run_handleGenerate Scenario.blank_prompt []
  = Some (handleGenerate Scenario.blank_prompt)
  /\ error (state (handleGenerate Scenario.blank_prompt))
     = Some "Please provide a style prompt."
  /\ results (state (handleGenerate Scenario.blank_prompt))
     = [Scenario.earlier_result]
  /\ results (state (handleGenerate Scenario.blank_prompt)) <> [].
Proof.
  repeat split; try reflexivity. vm_compute. discriminate.
Qed.

(** The same on a prompt of wide spaces: [trim] empties it, the run stops
    on the prompt check and the earlier result stays. *)
Example wide_space_prompt_keeps_results :
  passes_validation Scenario.wide_space_prompt = false
  /\ error (state (handleGenerate Scenario.wide_space_prompt))
     = Some "Please provide a style prompt."
  /\ results (state (handleGenerate Scenario.wide_space_prompt))
     = [Scenario.earlier_result]
  /\ log (handleGenerate Scenario.wide_space_prompt) = [].
Proof. repeat split; reflexivity. Qed.

Example handleGenerate_no_rooms :
  error (state (handleGenerate Scenario.no_rooms))
  = Some "Please upload at least one image of your room."
  /\ log (handleGenerate Scenario.no_rooms) = [].
Proof. split; reflexivity. Qed.

(* ===================================================================== *)
(** ** The generation client and the codec helper: properties *)
(* ===================================================================== *)

(** C3, on the run of the "minimalist" scenario in which both model calls
    return an image: the design idea of the result is the bare base64
    string that [generateDecorIdeas] returned.  It is not an object with a
    description and an image, and the result card receives [undefined] as
    its description and as its after-image. *)
Lemma design_idea_is_bare_string :
  exists run r,
    run_handleGenerate Scenario.minimalist Scenario.A_alone = Some run
    /\ results (state run) = [r]
    /\ enhancedBeforeImage r = JString "RUE="
    /\ idea r = JString "REE="
    /\ ~ is_DesignIdea (idea r)
    /\ ResultCard_props r =
       Fulfilled {| card_description := JUndefined;
                    beforeImage := JString "RUE=";
                    afterImage := JUndefined |}.
Proof.
  eexists. eexists. split; [vm_compute; reflexivity|].
  repeat split.
  intros (d & i & Hd & _). discriminate.
Qed.

(** C4.  When the enhancement call raises an error, or its response has no
    part with image data, [enhanceImage] is fulfilled with the payload of
    the input file itself: for a file whose data URL is well formed, its
    base64 text.  The before-image of a result of that room image is then
    this payload.  [enhanceImage] is fulfilled for every outcome of the
    call, so it never aborts the chain. *)
Theorem enhancement_falls_back_to_original imageFile o :
  enhancement_failed o ->
  exec (enhanceImage imageFile) [o] = Some (Fulfilled (original_payload imageFile))
  /\ (forall header base64,
        dataURL imageFile = Some (header ++ "," ++ base64)%string ->
        comma_free header = true -> comma_free base64 = true ->
        exec (enhanceImage imageFile) [o] = Some (Fulfilled (JString base64)))
  /\ (forall decorImages prompt o2 r,
        exec (generationPromise decorImages prompt imageFile) [o; o2]
        = Some (Fulfilled r) ->
        enhancedBeforeImage r = original_payload imageFile)
  /\ (forall o', exists v, exec (enhanceImage imageFile) [o'] = Some (Fulfilled v)).
Proof.
  intros Hfail.
  assert (Hexec : exec (enhanceImage imageFile) [o]
                  = Some (Fulfilled (original_payload imageFile))).
  { rewrite exec_rest_exec, exec_rest_enhanceImage. simpl.
    rewrite (enhance_result_failed _ _ Hfail). reflexivity. }
  split; [exact Hexec|]. split; [|split].
  - intros header base64 Hurl Hh Hb. rewrite Hexec.
    unfold original_payload. rewrite Hurl, onloadend_data_url by assumption.
    reflexivity.
  - intros decorImages prompt o2 r Hr.
    rewrite exec_generationPromise in Hr. unfold chain_result in Hr.
    destruct (decor_result o2) as [v|e]; inversion Hr; subst. simpl.
    apply enhance_result_failed, Hfail.
  - intros o'. eexists.
    rewrite exec_rest_exec, exec_rest_enhanceImage. reflexivity.
Qed.

Lemma enhancement_falls_back_to_original_witness :
  exec (enhanceImage Scenario.roomA) [Fulfilled Scenario.text_only_response]
  = Some (Fulfilled (JString "QUFB"))
  /\ (exec (enhanceImage Scenario.roomA) [Fulfilled Scenario.text_only_response]
      = Some (Fulfilled (original_payload Scenario.roomA))
      /\ (forall header base64,
            dataURL Scenario.roomA = Some (header ++ "," ++ base64)%string ->
            comma_free header = true -> comma_free base64 = true ->
            exec (enhanceImage Scenario.roomA)
                 [Fulfilled Scenario.text_only_response]
            = Some (Fulfilled (JString base64)))
      /\ (forall decorImages prompt o2 r,
            exec (generationPromise decorImages prompt Scenario.roomA)
                 [Fulfilled Scenario.text_only_response; o2]
            = Some (Fulfilled r) ->
            enhancedBeforeImage r = original_payload Scenario.roomA)
      /\ (forall o', exists v,
            exec (enhanceImage Scenario.roomA) [o'] = Some (Fulfilled v))).
Proof.
  split; [reflexivity|].
  apply (enhancement_falls_back_to_original Scenario.roomA
           (Fulfilled Scenario.text_only_response)).
  simpl. intros part [<-|[]]. reflexivity.
Defined.

(** C5.  The outcome of [generateDecorIdeas], by the outcome [o] of its
    model call.  A response without an image-bearing part makes it fail
    with a generation error that carries a message (for a well-formed
    response: that the model did not return an image); it does not fall
    back to the input.  An error of the call is wrapped and raised again as
    a generation error.  When it succeeds, its value is the data of the
    first image-bearing part of the response, in the order of the parts. *)
Theorem generateDecorIdeas_outcome roomImage decorImages prompt o :
  let result := exec (generateDecorIdeas roomImage decorImages prompt) [o] in
  (forall response,
     o = Fulfilled response ->
     find image_bearing (response_parts response) = None ->
     exists message,
       result = Some (Rejected (JsError ("Failed to generate design: " ++ message)))
       /\ (well_formed response -> message = no_image_message))
  /\ (forall e,
        o = Rejected e ->
        exists e',
          result = Some (Rejected e') /\ GenerationError e'
          /\ (forall message, e = JsError message ->
                e' = JsError ("Failed to generate design: " ++ message)))
  /\ (forall v,
        result = Some (Fulfilled v) ->
        exists response part blob,
          o = Fulfilled response
          /\ find image_bearing (response_parts response) = Some part
          /\ inlineData part = Some blob
          /\ v = data blob).
Proof.
  intros result. subst result.
  rewrite exec_rest_exec, exec_rest_generateDecorIdeas. simpl.
  split; [|split].
  - intros response -> Hnone. unfold decor_result.
    unfold response_parts, well_formed in *.
    destruct (first_candidate response) as [c|].
    + unfold scan_candidate. destruct (content c) as [ct|].
      * destruct (parts ct) as [ps|] eqn:Hparts.
        -- rewrite scan_parts_find, Hnone. simpl.
           exists no_image_message. split; reflexivity.
        -- simpl. eexists. split; [reflexivity|].
           intros (c' & ps & Hc & Hps). inversion Hc; subst. congruence.
      * simpl. eexists. split; [reflexivity|].
        intros (c' & ps & Hc & Hps). discriminate.
    + exists no_image_message. split; reflexivity.
  - intros e ->. unfold decor_result. destruct e as [message|].
    + eexists. split; [reflexivity|]. split; [constructor|].
      intros message' H. inversion H. reflexivity.
    + eexists. split; [reflexivity|]. split; [constructor|].
      intros message' H. discriminate.
  - intros v H. inversion H as [Hd]. clear H. unfold decor_result in Hd.
    destruct o as [response|[message|]]; try discriminate.
    exists response. unfold response_parts.
    destruct (first_candidate response) as [c|]; [|discriminate].
    unfold scan_candidate in Hd.
    destruct (content c) as [ct|]; [|discriminate].
    destruct (parts ct) as [ps|]; [|discriminate].
    rewrite scan_parts_find in Hd.
    destruct (find image_bearing ps) as [part|] eqn:Hfind; [|discriminate].
    exists part. apply find_some in Hfind as [_ Hbear].
    unfold image_bearing in Hbear. unfold inlineData_data in Hd.
    destruct (inlineData part) as [blob|]; [|discriminate].
    exists blob. destruct (truthy (data blob)); inversion Hd. auto.
Qed.

Lemma generateDecorIdeas_outcome_witness :
  exec (generateDecorIdeas Scenario.roomA [Scenario.roomB] "cozy")
       [Fulfilled Scenario.text_only_response]
  = Some (Rejected (JsError ("Failed to generate design: " ++ no_image_message)))
  /\ exec (generateDecorIdeas Scenario.roomA [Scenario.roomB] "cozy")
          [Fulfilled (Scenario.image_response "REE=")]
     = Some (Fulfilled (JString "REE="))
  /\ exists message,
       exec (generateDecorIdeas Scenario.roomA [Scenario.roomB] "cozy")
            [Fulfilled Scenario.text_only_response]
       = Some (Rejected (JsError ("Failed to generate design: " ++ message)))
       /\ (well_formed Scenario.text_only_response -> message = no_image_message).
Proof.
  split; [reflexivity|]. split; [reflexivity|].
  destruct (generateDecorIdeas_outcome Scenario.roomA [Scenario.roomB] "cozy"
              (Fulfilled Scenario.text_only_response)) as [Hnone _].
  apply (Hnone Scenario.text_only_response); reflexivity.
Defined.

(** C8, as amended.  The encode operation never fails.  It is fulfilled
    with the file's type as mime type and, as payload, the element of index
    1 of the data URL split at its commas; when the underlying read has
    failed it is fulfilled with the empty payload. *)
Theorem encode_never_fails file :
  exists part,
    exec (fileToGenerativePart file) [] = Some (Fulfilled part)
    /\ mimeType (part_inlineData part) = type file
    /\ (dataURL file = None -> data (part_inlineData part) = JString "")
    /\ (forall url, dataURL file = Some url ->
          data (part_inlineData part) = index (split "," url) 1).
Proof.
  eexists. split; [apply exec_fileToGenerativePart|]. simpl.
  unfold original_payload. split; [reflexivity|]. split.
  - intros ->. reflexivity.
  - intros url ->. reflexivity.
Qed.

(** C8, as stated, fails: on a file whose read fails the encode operation
    is fulfilled, with an empty payload. *)
Lemma encode_unreadable_file_is_fulfilled :
  exec (fileToGenerativePart Scenario.unreadable) []
  = Some (Fulfilled {| part_inlineData :=
                         {| data := JString ""; mimeType := "image/png" |} |}).
Proof. reflexivity. Qed.

(* ===================================================================== *)
(** ** The comparison compositor: properties *)
(* ===================================================================== *)

(** C9, as amended.  For two decoded images the compositor's canvas has the
    height [H = max(before.height, after.height)], a valid canvas
    dimension.  With [Wb] and [Wa] the widths of the two images multiplied,
    in double arithmetic, by the ratio of [H] to the image's own height,
    the before image is drawn first, at x-offset 0 with width [Wb] and
    height [H], and the after image next, at x-offset [Wb] with width [Wa]
    and height [H]; an image whose height is [H] keeps its own width.  The
    width of the canvas is the number [Wb + Wa] converted to an unsigned
    integer: when that sum is finite, not negative and below 2^31 it is its
    integer part, which is less than the sum when the sum has a fraction;
    when the two images have the same height it is the sum of their
    widths. *)
Theorem comparison_image_geometry before after :
  Compositor.decodable before -> Compositor.decodable after ->
  let H := Z.max (Compositor.height before) (Compositor.height after) in
  let Wb := Compositor.scaled_width before H in
  let Wa := Compositor.scaled_width after H in
  exists canvas rest,
    Compositor.createComparisonImage (Some before) (Some after) true
    = Fulfilled canvas
    /\ Compositor.canvas_height canvas = H
    /\ (0 < Compositor.canvas_height canvas < 2 ^ 31)%Z
    /\ Compositor.canvas_width canvas
       = Compositor.to_unsigned_long (Compositor.add Wb Wa)
    /\ Compositor.ops canvas
       = Compositor.DrawImage Compositor.BEFORE
           (Compositor.of_Z 0) (Compositor.of_Z 0) Wb (Compositor.of_Z H)
         :: Compositor.DrawImage Compositor.AFTER
              Wb (Compositor.of_Z 0) Wa (Compositor.of_Z H)
         :: rest
    /\ (Compositor.height before = H ->
        Wb = Compositor.of_Z (Compositor.width before))
    /\ (Compositor.height after = H ->
        Wa = Compositor.of_Z (Compositor.width after))
    /\ (forall m e,
          Compositor.add Wb Wa = S754_finite false m e ->
          (Compositor.number_value (Compositor.add Wb Wa) < inject_Z (2 ^ 31))%Q ->
          (inject_Z (Compositor.canvas_width canvas)
             <= Compositor.number_value (Compositor.add Wb Wa)
           /\ Compositor.number_value (Compositor.add Wb Wa)
             < inject_Z (Compositor.canvas_width canvas) + 1)%Q)
    /\ (Compositor.height before = Compositor.height after ->
        Compositor.canvas_width canvas
        = (Compositor.width before + Compositor.width after)%Z).
Proof.
  intros Hdb Hda H Wb Wa.
  pose proof Hdb as [Hbw Hbh]. pose proof Hda as [Haw Hah].
  eexists. eexists.
  split; [reflexivity|]. cbn [Compositor.canvas_height Compositor.canvas_width
                              Compositor.ops].
  fold H. fold (Compositor.scaled_width before H).
  fold (Compositor.scaled_width after H). fold Wb. fold Wa.
  split; [reflexivity|]. split; [subst H; lia|].
  split; [reflexivity|]. split; [reflexivity|].
  split; [|split; [|split]].
  - intros Heq. subst Wb. rewrite <- Heq.
    apply scaled_width_unscaled; lia.
  - intros Heq. subst Wa. rewrite <- Heq.
    apply scaled_width_unscaled; lia.
  - intros m e Hsum Hlt.
    rewrite Hsum in Hlt |- *. apply to_unsigned_long_floor.
    eapply Qlt_trans; [exact Hlt|]. rewrite <- Zlt_Qlt. reflexivity.
  - intros Heq. subst Wb Wa H. rewrite <- Heq, Z.max_id.
    apply same_height_width; assumption.
Qed.

Lemma comparison_image_geometry_witness :
  exists canvas,
    Compositor.createComparisonImage
      (Some Scenario.tall) (Some Scenario.short) true = Fulfilled canvas
    /\ Compositor.canvas_height canvas = 3%Z
    /\ Compositor.canvas_width canvas = 2%Z
    /\ (inject_Z (Compositor.canvas_width canvas)
          <= Compositor.number_value
               (Compositor.add (Compositor.scaled_width Scenario.tall 3)
                               (Compositor.scaled_width Scenario.short 3))
        /\ Compositor.number_value
             (Compositor.add (Compositor.scaled_width Scenario.tall 3)
                             (Compositor.scaled_width Scenario.short 3))
          < inject_Z (Compositor.canvas_width canvas) + 1)%Q.
Proof.
  destruct (comparison_image_geometry Scenario.tall Scenario.short)
    as (canvas & rest & Hc & Hh & _ & Hw & _ & _ & _ & Hfloor & _);
    [vm_compute; repeat split; reflexivity
    |vm_compute; repeat split; reflexivity|].
  exists canvas. split; [exact Hc|]. split; [exact Hh|].
  split; [rewrite Hw; vm_compute; reflexivity|].
  apply (Hfloor 5629499534213120%positive (-51)%Z).
  - vm_compute. reflexivity.
  - vm_compute. reflexivity.
Defined.

(** C9, as stated, fails: for a before image of 1 x 3 and an after image of
    1 x 2 the common height is 3 and the rescaled widths are 1 and 3/2; the
    canvas is 2 wide, not 5/2. *)
Lemma comparison_width_is_not_the_sum :
  exists canvas,
    Compositor.createComparisonImage
      (Some Scenario.tall) (Some Scenario.short) true = Fulfilled canvas
    /\ Compositor.canvas_height canvas = 3%Z
    /\ Compositor.canvas_width canvas = 2%Z
    /\ (Compositor.proportional_width Scenario.tall 3
        + Compositor.proportional_width Scenario.short 3 == 5 # 2)%Q
    /\ (Compositor.number_value
          (Compositor.add (Compositor.scaled_width Scenario.tall 3)
                          (Compositor.scaled_width Scenario.short 3))
        == 5 # 2)%Q
    /\ ~ (inject_Z (Compositor.canvas_width canvas)
          == Compositor.proportional_width Scenario.tall 3
             + Compositor.proportional_width Scenario.short 3)%Q.
Proof.
  eexists. split; [vm_compute; reflexivity|].
  split; [reflexivity|]. split; [reflexivity|].
  split; [vm_compute; reflexivity|]. split; [vm_compute; reflexivity|].
  intros H. vm_compute in H. discriminate.
Qed.

(** Rounding can also cost a column when the proportional widths add up to
    an integer: 27 x 3 beside 1 x 13 is 117 + 1 = 118 wide in exact
    arithmetic, and the canvas is 117 wide. *)
Example comparison_width_rounding :
  exists canvas,
    Compositor.createComparisonImage
      (Some Scenario.wide) (Some Scenario.narrow) true = Fulfilled canvas
    /\ Compositor.canvas_width canvas = 117%Z
    /\ (Compositor.proportional_width Scenario.wide 13
        + Compositor.proportional_width Scenario.narrow 13 == 118)%Q.
Proof.
  eexists. split; [vm_compute; reflexivity|].
  split; [reflexivity|]. vm_compute. reflexivity.
Qed.

(** An image that fails to decode rejects the promise. *)
Example comparison_decode_failure :
  Compositor.createComparisonImage (Some Scenario.tall) None true
  = Rejected JsNonError.
Proof. reflexivity. Qed.

(** Images of the same height are not rescaled, and the canvas is as wide
    as the two together. *)
Example comparison_same_height :
  exists canvas,
    Compositor.createComparisonImage
      (Some Scenario.photo_before) (Some Scenario.photo_after) true
    = Fulfilled canvas
    /\ Compositor.canvas_height canvas = 768%Z
    /\ Compositor.canvas_width canvas = (1024 + 1365)%Z
    /\ Compositor.scaled_width Scenario.photo_before 768 = Compositor.of_Z 1024
    /\ Compositor.scaled_width Scenario.photo_after 768 = Compositor.of_Z 1365.
Proof.
  eexists. split; [vm_compute; reflexivity|].
  repeat split; vm_compute; reflexivity.
Qed.

(* ===================================================================== *)
(** ** The decor image list *)
(* ===================================================================== *)

Section DecorImages.

Variable size : File -> Z.

Lemma validFile_spec (f : File) :
  DecorImageManager.validFile size f = true <->
  (type f = "image/jpeg" \/ type f = "image/png" \/ type f = "image/webp")
  /\ (size f <= 4194304)%Z.
Proof.
  unfold DecorImageManager.validFile. rewrite andb_true_iff, Z.leb_le.
  change (4 * 1024 * 1024)%Z with 4194304%Z.
  cbn [existsb]. rewrite !orb_true_iff, !String.eqb_eq.
  intuition (try discriminate; auto).
Qed.

Lemma In_filter_index {A} (keep : nat -> bool) (l : list A) : forall i x,
  In x (DecorImageManager.filter_index keep i l) -> In x l.
Proof.
  induction l as [|y l IH]; intros i x H; simpl in *; [assumption|].
  destruct (keep i); simpl in H; [destruct H; eauto|eauto].
Qed.

Lemma filter_index_above {A} (index : nat) (l : list A) : forall k,
  (index < k)%nat ->
  DecorImageManager.filter_index (fun i => negb (i =? index)%nat) k l = l.
Proof.
  induction l as [|x l IH]; intros k Hk; [reflexivity|].
  cbn [DecorImageManager.filter_index].
  destruct (Nat.eqb_spec k index) as [E|E]; [lia|].
  cbn [negb]. f_equal. apply IH. lia.
Qed.

Lemma filter_index_remove {A} (l : list A) : forall index k,
  DecorImageManager.filter_index (fun i => negb (i =? k + index)%nat) k l
  = firstn index l ++ skipn (S index) l.
Proof.
  induction l as [|x l IH]; intros index k.
  - destruct index; reflexivity.
  - cbn [DecorImageManager.filter_index]. destruct index as [|index].
    + rewrite Nat.add_0_r, Nat.eqb_refl. cbn [negb firstn skipn app].
      apply filter_index_above. lia.
    + destruct (Nat.eqb_spec k (k + S index)) as [E|E]; [lia|].
      cbn [negb firstn skipn app]. f_equal.
      replace (k + S index)%nat with (S k + index)%nat by lia. apply IH.
Qed.

Lemma handleRemoveImage_splice (images : list File) (index : nat) :
  DecorImageManager.handleRemoveImage images index
  = firstn index images ++ skipn (S index) images.
Proof. apply (filter_index_remove images index 0). Qed.

(** X1.  A non-empty selection makes [handleFileChange] send the current
    images followed by some of the selected files: exactly those whose type
    is image/jpeg, image/png or image/webp and whose size is at most
    4194304 bytes.  The others are dropped without any report; the images
    already held keep their places. *)
Theorem handleFileChange_adds_valid_files (images files : list File) :
  files <> [] ->
  exists added,
    DecorImageManager.handleFileChange size images (Some files) = Some (images ++ added)
    /\ (forall f, In f added <->
          In f files
          /\ (type f = "image/jpeg" \/ type f = "image/png" \/ type f = "image/webp")
          /\ (size f <= 4194304)%Z)
    /\ (List.length added <= List.length files)%nat
    /\ firstn (List.length images) (images ++ added) = images.
Proof.
  intros Hne. exists (filter (DecorImageManager.validFile size) files).
  split; [|split; [|split]].
  - unfold DecorImageManager.handleFileChange.
    destruct files; [congruence|reflexivity].
  - intros f. rewrite filter_In, validFile_spec. reflexivity.
  - apply filter_length_le.
  - rewrite firstn_app, Nat.sub_diag, firstn_all. simpl. apply app_nil_r.
Qed.

Lemma perform_valid (images : list File) (a : DecorImageManager.action) :
  Forall (fun f => DecorImageManager.validFile size f = true) images ->
  Forall (fun f => DecorImageManager.validFile size f = true)
         (DecorImageManager.perform size images a).
Proof.
  intros H. destruct a as [target|index]; simpl.
  - unfold DecorImageManager.handleFileChange.
    destruct (negb _); [|assumption].
    apply Forall_app. split; [assumption|].
    apply Forall_forall. intros f Hf. apply filter_In in Hf. tauto.
  - rewrite Forall_forall in *. intros f Hf. apply H.
    unfold DecorImageManager.handleRemoveImage in Hf.
    eapply In_filter_index, Hf.
Qed.

Lemma perform_provenance (images : list File) (a : DecorImageManager.action) f :
  In f (DecorImageManager.perform size images a) ->
  In f images
  \/ exists files, a = DecorImageManager.Select (Some files) /\ In f files.
Proof.
  destruct a as [target|index]; simpl.
  - unfold DecorImageManager.handleFileChange.
    destruct target as [files|]; simpl; [|auto].
    destruct (negb _); [|auto].
    intros H. apply in_app_or in H as [H|H]; [auto|].
    apply filter_In in H. right. exists files. tauto.
  - intros H. left. eapply In_filter_index, H.
Qed.

(** X2.  Whatever the user selects and removes, starting from the empty
    list, every image that the list holds has an accepted type and at most
    4194304 bytes, and was among the files of some selection. *)
Theorem decor_images_stay_valid (actions : list DecorImageManager.action) (f : File) :
  In f (fold_left (DecorImageManager.perform size) actions []) ->
  ((type f = "image/jpeg" \/ type f = "image/png" \/ type f = "image/webp")
   /\ (size f <= 4194304)%Z)
  /\ exists files, In (DecorImageManager.Select (Some files)) actions /\ In f files.
Proof.
  assert (G : forall acts images,
            Forall (fun f => DecorImageManager.validFile size f = true) images ->
            forall g, In g (fold_left (DecorImageManager.perform size) acts images) ->
            DecorImageManager.validFile size g = true
            /\ (In g images
                \/ exists files, In (DecorImageManager.Select (Some files)) acts
                                 /\ In g files)).
  { induction acts as [|a acts IH]; intros images Hv g Hg; simpl in Hg.
    - split; [|auto]. rewrite Forall_forall in Hv. auto.
    - destruct (IH _ (perform_valid images a Hv) g Hg) as [Hval [Hin|Hin]].
      + split; [assumption|].
        destruct (perform_provenance images a g Hin) as [H|(files & -> & H)];
          [auto|]. right. exists files. simpl. auto.
      + split; [assumption|]. destruct Hin as (files & Hin & Hf).
        right. exists files. simpl. auto. }
  intros H. destruct (G actions [] (Forall_nil _) f H) as [Hval [[]|Hin]].
  split; [apply validFile_spec, Hval|exact Hin].
Qed.

(** X3.  [handleRemoveImage] removes the image at the given position and
    nothing else: the images before it stay, those after it move up by one
    place, also when the same file is held more than once.  A position past
    the end leaves the list as it is. *)
Theorem handleRemoveImage_removes_position (images : list File) (index : nat) :
  (forall j, nth_error (DecorImageManager.handleRemoveImage images index) j
             = if (j <? index)%nat then nth_error images j
               else nth_error images (S j))
  /\ List.length (DecorImageManager.handleRemoveImage images index)
     = (if (index <? List.length images)%nat then List.length images - 1
        else List.length images)%nat
  /\ ((List.length images <= index)%nat ->
      DecorImageManager.handleRemoveImage images index = images).
Proof.
  rewrite handleRemoveImage_splice. split; [|split].
  - intros j. destruct (Nat.ltb_spec j index) as [Hj|Hj].
    + destruct (Nat.lt_ge_cases index (List.length images)) as [Hi|Hi].
      * rewrite nth_error_app1 by (rewrite length_firstn; lia).
        rewrite nth_error_firstn.
        destruct (Nat.ltb_spec j index); [reflexivity|lia].
      * rewrite firstn_all2, skipn_all2 by lia. rewrite app_nil_r. reflexivity.
    + destruct (Nat.lt_ge_cases index (List.length images)) as [Hi|Hi].
      * rewrite nth_error_app2 by (rewrite length_firstn; lia).
        rewrite length_firstn, Nat.min_l by lia.
        rewrite nth_error_skipn. f_equal. lia.
      * rewrite firstn_all2, skipn_all2 by lia. rewrite app_nil_r.
        transitivity (@None File); [|symmetry]; apply nth_error_None; lia.
  - rewrite length_app, length_firstn, length_skipn.
    destruct (Nat.ltb_spec index (List.length images)); lia.
  - intros Hi. rewrite firstn_all2, skipn_all2 by lia. apply app_nil_r.
Qed.

(** X4.  Selecting one file and then removing the position that follows
    the images held before gives back the list as it was: an accepted file
    is appended at that position and removed again, a file that is not
    accepted was never added and the position is past the end. *)
Theorem select_then_remove_restores (images : list File) (f : File) :
  DecorImageManager.perform size
    (DecorImageManager.perform size images (DecorImageManager.Select (Some [f])))
    (DecorImageManager.Remove (List.length images))
  = images.
Proof.
  cbn [DecorImageManager.perform DecorImageManager.handleFileChange
       List.length Nat.eqb negb filter].
  rewrite handleRemoveImage_splice.
  destruct (DecorImageManager.validFile size f).
  - rewrite firstn_app, Nat.sub_diag, firstn_all. cbn [firstn].
    rewrite skipn_app, skipn_all2 by lia.
    replace (S (List.length images) - List.length images)%nat with 1%nat by lia.
    cbn [skipn]. rewrite !app_nil_r. reflexivity.
  - rewrite !app_nil_r, firstn_all, skipn_all2 by lia. apply app_nil_r.
Qed.

End DecorImages.

Lemma handleFileChange_adds_valid_files_witness :
  DecorImageManager.handleFileChange Samples.size [Scenario.roomA]
    (Some [Samples.poster; Samples.sofa; Samples.animation])
  = Some [Scenario.roomA; Samples.sofa]
  /\ exists added,
       DecorImageManager.handleFileChange Samples.size [Scenario.roomA]
         (Some [Samples.poster; Samples.sofa; Samples.animation])
       = Some ([Scenario.roomA] ++ added)
       /\ (forall f, In f added <->
             In f [Samples.poster; Samples.sofa; Samples.animation]
             /\ (type f = "image/jpeg" \/ type f = "image/png" \/ type f = "image/webp")
             /\ (Samples.size f <= 4194304)%Z)
       /\ (List.length added <= 3)%nat
       /\ firstn 1 ([Scenario.roomA] ++ added) = [Scenario.roomA].
Proof.
  split; [reflexivity|].
  apply (handleFileChange_adds_valid_files Samples.size [Scenario.roomA]
           [Samples.poster; Samples.sofa; Samples.animation]).
  discriminate.
Defined.

Lemma decor_images_stay_valid_witness :
  fold_left (DecorImageManager.perform Samples.size)
    [ DecorImageManager.Select (Some [Samples.poster; Samples.sofa]);
      DecorImageManager.Select (Some [Samples.animation; Samples.sofa]);
      DecorImageManager.Remove 0 ] []
  = [Samples.sofa]
  /\ ((type Samples.sofa = "image/jpeg" \/ type Samples.sofa = "image/png"
       \/ type Samples.sofa = "image/webp")
      /\ (Samples.size Samples.sofa <= 4194304)%Z)
  /\ exists files,
       In (DecorImageManager.Select (Some files))
          [ DecorImageManager.Select (Some [Samples.poster; Samples.sofa]);
            DecorImageManager.Select (Some [Samples.animation; Samples.sofa]);
            DecorImageManager.Remove 0 ]
       /\ In Samples.sofa files.
Proof.
  split; [reflexivity|].
  apply (decor_images_stay_valid Samples.size
           [ DecorImageManager.Select (Some [Samples.poster; Samples.sofa]);
             DecorImageManager.Select (Some [Samples.animation; Samples.sofa]);
             DecorImageManager.Remove 0 ] Samples.sofa).
  simpl. auto.
Defined.

(* ===================================================================== *)
(** ** The preview URLs of the decor image list *)
(* ===================================================================== *)

Lemma createObjectURLs_seq (images : list File) : forall st,
  DecorImageManager.createObjectURLs images st
  = (seq (DecorImageManager.next_url st) (List.length images),
     {| DecorImageManager.next_url :=
          DecorImageManager.next_url st + List.length images;
        DecorImageManager.live_urls :=
          DecorImageManager.live_urls st
          ++ seq (DecorImageManager.next_url st) (List.length images) |}).
Proof.
  induction images as [|file images IH]; intros [n live].
  - simpl. rewrite Nat.add_0_r, app_nil_r. reflexivity.
  - cbn [DecorImageManager.createObjectURLs DecorImageManager.createObjectURL].
    rewrite IH. simpl. rewrite <- app_assoc, Nat.add_succ_r. reflexivity.
Qed.

Lemma revokeObjectURLs_seq (k : nat) : forall n next base,
  Forall (fun u => u < n)%nat base ->
  DecorImageManager.revokeObjectURLs (seq n k)
    {| DecorImageManager.next_url := next;
       DecorImageManager.live_urls := base ++ seq n k |}
  = {| DecorImageManager.next_url := next; DecorImageManager.live_urls := base |}.
Proof.
  unfold DecorImageManager.revokeObjectURLs.
  induction k as [|k IH]; intros n next base Hbase.
  - simpl. rewrite app_nil_r. reflexivity.
  - cbn [seq fold_left DecorImageManager.revokeObjectURL
         DecorImageManager.next_url DecorImageManager.live_urls].
    unfold DecorImageManager.revokeObjectURL at 2.
    cbn [DecorImageManager.next_url DecorImageManager.live_urls].
    rewrite remove_app, remove_cons.
    rewrite (notin_remove Nat.eq_dec base n),
            (notin_remove Nat.eq_dec (seq (S n) k) n).
    + apply IH. eapply Forall_impl; [|exact Hbase]. simpl. intros. lia.
    + rewrite in_seq. lia.
    + intros Hin. rewrite Forall_forall in Hbase. apply Hbase in Hin. lia.
Qed.

Lemma last_cons_default {A} (l : list A) : forall x d,
  last (x :: l) d = last l x.
Proof.
  induction l as [|y l IH]; intros x d; [reflexivity|].
  change (last (x :: y :: l) d) with (last (y :: l) d).
  rewrite (IH y d), (IH y x). reflexivity.
Qed.

(** X5.  The component keeps one object URL per image of the last render:
    after the first render and any number of renders with new image lists,
    the URLs alive in the document are those that were alive before the
    component was mounted followed by the current previews, one fresh URL
    for each current image; the URLs of earlier renders have been revoked.
    Unmounting revokes the rest. *)
Theorem preview_urls_are_released (st0 : DecorImageManager.UrlStore)
    (images0 : list File) (renders : list (list File)) :
  Forall (fun u => u < DecorImageManager.next_url st0)%nat
         (DecorImageManager.live_urls st0) ->
  let m := fold_left DecorImageManager.rerender renders
             (DecorImageManager.mount images0 st0) in
  DecorImageManager.live_urls (DecorImageManager.store m)
  = DecorImageManager.live_urls st0 ++ DecorImageManager.previews m
  /\ List.length (DecorImageManager.previews m)
     = List.length (last renders images0)
  /\ NoDup (DecorImageManager.previews m)
  /\ (forall u, In u (DecorImageManager.previews m) ->
                ~ In u (DecorImageManager.live_urls st0))
  /\ DecorImageManager.live_urls (DecorImageManager.unmount m)
     = DecorImageManager.live_urls st0.
Proof.
  intros Hst0.
  set (inv := fun (m : DecorImageManager.Mounted) (imgs : list File) =>
    exists a, (DecorImageManager.next_url st0 <= a)%nat
      /\ DecorImageManager.previews m = seq a (List.length imgs)
      /\ DecorImageManager.newPreviews m = seq a (List.length imgs)
      /\ DecorImageManager.store m
         = {| DecorImageManager.next_url := a + List.length imgs;
              DecorImageManager.live_urls :=
                DecorImageManager.live_urls st0 ++ seq a (List.length imgs) |}).
  assert (Heffect : forall imgs a, (DecorImageManager.next_url st0 <= a)%nat ->
            inv (DecorImageManager.effect imgs
                   {| DecorImageManager.next_url := a;
                      DecorImageManager.live_urls := DecorImageManager.live_urls st0 |})
                imgs).
  { intros imgs a Ha. unfold DecorImageManager.effect.
    rewrite createObjectURLs_seq. simpl. exists a. auto. }
  assert (Hbase : forall a, (DecorImageManager.next_url st0 <= a)%nat ->
            Forall (fun u => u < a)%nat (DecorImageManager.live_urls st0)).
  { intros a Ha. eapply Forall_impl; [|exact Hst0]. simpl. intros. lia. }
  assert (Hcleanup : forall m imgs, inv m imgs ->
            exists a, (DecorImageManager.next_url st0 <= a)%nat
              /\ DecorImageManager.cleanup m
                 = {| DecorImageManager.next_url := a;
                      DecorImageManager.live_urls := DecorImageManager.live_urls st0 |}).
  { intros m imgs (a & Ha & _ & Hnew & Hstore).
    exists (a + List.length imgs)%nat. split; [lia|].
    unfold DecorImageManager.cleanup. rewrite Hnew, Hstore.
    apply revokeObjectURLs_seq, Hbase, Ha. }
  assert (Hfold : forall rs m imgs, inv m imgs ->
            inv (fold_left DecorImageManager.rerender rs m) (last rs imgs)).
  { induction rs as [|imgs' rs IH]; intros m imgs Hm; [exact Hm|].
    cbn [fold_left].
    rewrite last_cons_default.
    apply IH. unfold DecorImageManager.rerender.
    destruct (Hcleanup m imgs Hm) as (a & Ha & ->). apply Heffect, Ha. }
  assert (Hmount : inv (DecorImageManager.mount images0 st0) images0).
  { unfold DecorImageManager.mount. destruct st0 as [n live]. apply Heffect.
    simpl. lia. }
  intros m. subst m.
  pose proof (Hfold renders _ _ Hmount) as Hm.
  destruct (Hcleanup _ _ Hm) as (b & _ & Hclean).
  destruct Hm as (a & Ha & Hprev & _ & Hstore).
  rewrite Hprev, Hstore. simpl.
  split; [reflexivity|]. split; [apply length_seq|].
  split; [apply seq_NoDup|]. split.
  - intros u Hu Hlive. apply in_seq in Hu.
    pose proof (Hbase a Ha) as Hlt. rewrite Forall_forall in Hlt.
    apply Hlt in Hlive. lia.
  - unfold DecorImageManager.unmount. rewrite Hclean. reflexivity.
Qed.

Lemma preview_urls_are_released_witness :
  let m := fold_left DecorImageManager.rerender
             [[Samples.sofa; Samples.poster]; [Samples.poster]]
             (DecorImageManager.mount [Samples.sofa] Samples.empty_store) in
  DecorImageManager.previews m = [3%nat]
  /\ DecorImageManager.live_urls (DecorImageManager.store m)
     = DecorImageManager.live_urls Samples.empty_store ++ DecorImageManager.previews m
  /\ List.length (DecorImageManager.previews m) = 1%nat
  /\ NoDup (DecorImageManager.previews m)
  /\ (forall u, In u (DecorImageManager.previews m) ->
                ~ In u (DecorImageManager.live_urls Samples.empty_store))
  /\ DecorImageManager.live_urls (DecorImageManager.unmount m) = [].
Proof.
  split; [reflexivity|].
  apply (preview_urls_are_released Samples.empty_store [Samples.sofa]
           [[Samples.sofa; Samples.poster]; [Samples.poster]]).
  constructor.
Defined.

(* ===================================================================== *)
(** ** The narration voice *)
(* ===================================================================== *)

Lemma google_female_named voice :
  Speech.google_female voice = true -> Speech.named_female voice = true.
Proof.
  unfold Speech.google_female, Speech.named_female.
  rewrite !andb_true_iff, !orb_true_iff. tauto.
Qed.

Lemma named_female_en_US voice :
  Speech.named_female voice = true -> Speech.en_US voice = true.
Proof.
  unfold Speech.named_female, Speech.en_US. rewrite andb_true_iff. tauto.
Qed.

Lemma find_first_such {A} (p : A -> bool) (l : list A) (x : A) :
  find p l = Some x -> Speech.first_such p l x.
Proof.
  induction l as [|y l IH]; simpl; [discriminate|].
  destruct (p y) eqn:Hy.
  - intros H. inversion H; subst y. exists [], l. repeat split; auto.
    intros z [].
  - intros H. destruct (IH H) as (pre & post & -> & Hx & Hpre).
    exists (y :: pre), post. repeat split; auto.
    intros z [<-|Hz]; auto.
Qed.

(** X6.  From a non-empty list of voices [loadVoices] always selects a voice
    of the list, by preference: the first en-US voice whose name contains
    Google and Female if there is one; else the first en-US voice whose
    name contains Zira, Samantha or Female; else the first en-US voice;
    else the first voice of the list.  Each time it is the first voice of
    the list, in the order of the list, that passes the test.  So an en-US
    voice is selected whenever the list has one, and a voice of another
    language only when it has none. *)
Theorem loadVoices_preference (voices : list Speech.SpeechSynthesisVoice)
    (selected : option Speech.SpeechSynthesisVoice) :
  voices <> [] ->
  exists voice,
    Speech.loadVoices voices selected = Some voice /\ In voice voices
    /\ ((exists v, In v voices /\ Speech.google_female v = true) ->
        Speech.first_such Speech.google_female voices voice)
    /\ ((forall v, In v voices -> Speech.google_female v = false) ->
        (exists v, In v voices /\ Speech.named_female v = true) ->
        Speech.first_such Speech.named_female voices voice)
    /\ ((forall v, In v voices -> Speech.named_female v = false) ->
        (exists v, In v voices /\ Speech.en_US v = true) ->
        Speech.first_such Speech.en_US voices voice)
    /\ ((forall v, In v voices -> Speech.en_US v = false) ->
        exists rest, voices = voice :: rest)
    /\ ((exists v, In v voices /\ Speech.named_female v = true) ->
        Speech.named_female voice = true)
    /\ ((exists v, In v voices /\ Speech.en_US v = true) ->
        Speech.en_US voice = true).
Proof.
  intros Hne.
  destruct voices as [|v0 vs]; [congruence|]. clear Hne.
  unfold Speech.loadVoices. cbn [List.length Nat.ltb Nat.leb].
  set (voices := v0 :: vs).
  assert (Hnone : forall p, find p voices = None ->
            forall v, In v voices -> p v = false).
  { intros p Hp v Hv.
    apply (find_none p voices Hp v Hv). }
  assert (Hsome : forall (p : Speech.SpeechSynthesisVoice -> bool) x,
            find p voices = Some x ->
            (forall v, In v voices -> p v = false) -> False).
  { intros p x Hp Hall. apply find_some in Hp as [Hin Hpx].
    rewrite (Hall x Hin) in Hpx. discriminate. }
  destruct (find Speech.google_female voices) as [g|] eqn:Hg.
  - apply find_some in Hg as Hg'. destruct Hg' as [Hin Hgf].
    exists g. cbn [Speech.or_else].
    split; [reflexivity|]. split; [exact Hin|].
    split; [intros _; apply find_first_such, Hg|].
    split; [intros Hall; exfalso; exact (Hsome _ _ Hg Hall)|].
    split.
    { intros Hall. exfalso. apply google_female_named in Hgf.
      rewrite (Hall g Hin) in Hgf. discriminate. }
    split.
    { intros Hall. exfalso. apply google_female_named, named_female_en_US in Hgf.
      rewrite (Hall g Hin) in Hgf. discriminate. }
    split; intros _.
    + apply google_female_named, Hgf.
    + apply named_female_en_US, google_female_named, Hgf.
  - cbn [Speech.or_else].
    destruct (find Speech.named_female voices) as [n|] eqn:Hn.
    + apply find_some in Hn as Hn'. destruct Hn' as [Hin Hnf].
      exists n. split; [reflexivity|]. split; [exact Hin|].
      split.
      { intros (v & Hv & Hvg). rewrite (Hnone _ Hg v Hv) in Hvg. discriminate. }
      split; [intros _ _; apply find_first_such, Hn|].
      split; [intros Hall; exfalso; exact (Hsome _ _ Hn Hall)|].
      split.
      { intros Hall. exfalso. apply named_female_en_US in Hnf.
        rewrite (Hall n Hin) in Hnf. discriminate. }
      split; intros _; [exact Hnf|apply named_female_en_US, Hnf].
    + destruct (find Speech.en_US voices) as [e|] eqn:He.
      * apply find_some in He as He'. destruct He' as [Hin Hen].
        exists e. split; [reflexivity|]. split; [exact Hin|].
        split.
        { intros (v & Hv & Hvg). rewrite (Hnone _ Hg v Hv) in Hvg. discriminate. }
        split.
        { intros _ (v & Hv & Hvn). rewrite (Hnone _ Hn v Hv) in Hvn. discriminate. }
        split; [intros _ _; apply find_first_such, He|].
        split; [intros Hall; exfalso; exact (Hsome _ _ He Hall)|].
        split.
        { intros (v & Hv & Hvn). rewrite (Hnone _ Hn v Hv) in Hvn. discriminate. }
        intros _. exact Hen.
      * exists v0. cbn [nth_error]. split; [reflexivity|].
        split; [left; reflexivity|].
        split.
        { intros (v & Hv & Hvg). rewrite (Hnone _ Hg v Hv) in Hvg. discriminate. }
        split.
        { intros _ (v & Hv & Hvn). rewrite (Hnone _ Hn v Hv) in Hvn. discriminate. }
        split.
        { intros _ (v & Hv & Hve). rewrite (Hnone _ He v Hv) in Hve. discriminate. }
        split; [intros _; exists vs; reflexivity|].
        split.
        { intros (v & Hv & Hvn). rewrite (Hnone _ Hn v Hv) in Hvn. discriminate. }
        intros (v & Hv & Hve). rewrite (Hnone _ He v Hv) in Hve. discriminate.
Qed.

Lemma loadVoices_preference_witness :
  Speech.loadVoices Samples.voices None
  = Some {| Speech.lang := "en-US"; Speech.name := "Samantha" |}
  /\ exists voice,
       Speech.loadVoices Samples.voices None = Some voice /\ In voice Samples.voices
       /\ ((exists v, In v Samples.voices /\ Speech.google_female v = true) ->
           Speech.first_such Speech.google_female Samples.voices voice)
       /\ ((forall v, In v Samples.voices -> Speech.google_female v = false) ->
           (exists v, In v Samples.voices /\ Speech.named_female v = true) ->
           Speech.first_such Speech.named_female Samples.voices voice)
       /\ ((forall v, In v Samples.voices -> Speech.named_female v = false) ->
           (exists v, In v Samples.voices /\ Speech.en_US v = true) ->
           Speech.first_such Speech.en_US Samples.voices voice)
       /\ ((forall v, In v Samples.voices -> Speech.en_US v = false) ->
           exists rest, Samples.voices = voice :: rest)
       /\ ((exists v, In v Samples.voices /\ Speech.named_female v = true) ->
           Speech.named_female voice = true)
       /\ ((exists v, In v Samples.voices /\ Speech.en_US v = true) ->
           Speech.en_US voice = true).
Proof.
  split; [reflexivity|].
  apply (loadVoices_preference Samples.voices None). discriminate.
Defined.

(** Of two voices that pass the same test the earlier one is selected, and
    a voice that passes an earlier test wins over one before it in the
    list. *)
Example loadVoices_takes_the_first :
  Speech.loadVoices
    [ {| Speech.lang := "en-US"; Speech.name := "Alex" |};
      {| Speech.lang := "en-US"; Speech.name := "Microsoft Zira" |};
      {| Speech.lang := "en-US"; Speech.name := "Samantha" |} ] None
  = Some {| Speech.lang := "en-US"; Speech.name := "Microsoft Zira" |}
  /\ Speech.loadVoices
       [ {| Speech.lang := "en-US"; Speech.name := "Samantha" |};
         {| Speech.lang := "en-US"; Speech.name := "Google US English Female" |};
         {| Speech.lang := "en-US"; Speech.name := "Google Female 2" |} ] None
     = Some {| Speech.lang := "en-US"; Speech.name := "Google US English Female" |}.
Proof. split; reflexivity. Qed.

(** With no voice available the selection is left as it was. *)
Example loadVoices_none selected : Speech.loadVoices [] selected = selected.
Proof. reflexivity. Qed.

(* ===================================================================== *)
(** ** The commentary call *)
(* ===================================================================== *)

Lemma commentary_prompt_quotes_style :
  exists head tail,
    forall stylePrompt,
      commentary_prompt stylePrompt
      = (head ++ "The user's style goal was: " ++ dq ++ stylePrompt ++ dq ++ tail)%string.
Proof.
  exists (substring 0 148 (commentary_prompt "")),
         (substring 177 534 (commentary_prompt "")).
  intros stylePrompt. reflexivity.
Qed.

(** X7.  [generateCommentary] never fails once the model has answered: when
    the call raises an error, whatever it is, the commentary is the fixed
    fallback sentence; when the call returns a response, the commentary is
    the text of that response as it is, also when the response has no
    text.  The request it sends goes to the model gemini-2.5-flash without
    a configuration and holds, in this order, the caption "Before image:",
    the original image (the payload that the read of the file yields,
    with the type of the file), the caption "After image:", the generated
    image declared as image/png, and the instructions, which quote the
    style prompt after the words "The user's style goal was: ". *)
Theorem generateCommentary_never_fails
    (response_text : GenerateContentResponse -> jsval)
    (originalImage : File) (generatedImage stylePrompt : string)
    (o : settled GenerateContentResponse) :
  exec (generateCommentary response_text originalImage generatedImage stylePrompt) [o]
  = Some (Fulfilled
            match o with
            | Fulfilled response => response_text response
            | Rejected _ => JString "Here is your beautiful new room design, created just for you!"
            end)
  /\ exists k instructions head tail,
       resume (generateCommentary response_text originalImage generatedImage
                 stylePrompt) ReadEnded
       = Some (AwaitModel
                 {| model := "gemini-2.5-flash";
                    contents :=
                      {| parts := Some
                           [ {| inlineData := None; text := Some "Before image:" |};
                             {| inlineData :=
                                  Some {| data :=
                                            match dataURL originalImage with
                                            | Some url => index (split "," url) 1
                                            | None => JString ""
                                            end;
                                          mimeType := type originalImage |};
                                text := None |};
                             {| inlineData := None; text := Some "After image:" |};
                             {| inlineData :=
                                  Some {| data := JString generatedImage;
                                          mimeType := "image/png" |};
                                text := None |};
                             {| inlineData := None; text := Some instructions |} ] |};
                    config := None |} k)
       /\ instructions
          = (head ++ "The user's style goal was: " ++ dq ++ stylePrompt ++ dq
             ++ tail)%string.
Proof.
  split.
  - destruct o; reflexivity.
  - destruct commentary_prompt_quotes_style as (head & tail & Hprompt).
    eexists. exists (commentary_prompt stylePrompt), head, tail.
    split; [reflexivity|apply Hprompt].
Qed.

(* ===================================================================== *)
(** ** The comparison image and the downloads of a result card *)
(* ===================================================================== *)

(** X8.  The promise of [createComparisonImage] does not depend on which
    image element fires its event first: once both elements have fired, it
    is fulfilled with the composed canvas if both images were decoded and a
    2D context was available, and rejected otherwise, also when the image
    that cannot be decoded fires after the other one has loaded.  After the
    first event it is still pending unless that event was an error. *)
Theorem comparison_image_event_order
    (before after : option Compositor.HTMLImage) (has_context : bool) :
  let fire := ResultCard.fire before after has_context in
  let b := ResultCard.event_of before Compositor.BEFORE in
  let a := ResultCard.event_of after Compositor.AFTER in
  ResultCard.promise (fold_left fire [b; a] ResultCard.new_loader)
  = Some (Compositor.createComparisonImage before after has_context)
  /\ ResultCard.promise (fold_left fire [a; b] ResultCard.new_loader)
     = Some (Compositor.createComparisonImage before after has_context)
  /\ ResultCard.promise (fire ResultCard.new_loader b)
     = match before with Some _ => None | None => Some (Rejected JsNonError) end
  /\ ResultCard.promise (fire ResultCard.new_loader a)
     = match after with Some _ => None | None => Some (Rejected JsNonError) end.
Proof.
  destruct before as [b|], after as [a|]; repeat split; reflexivity.
Qed.

(** X9.  "Download Both" always saves the after image first, under the name
    ai-design-after.png, and then the comparison image, under the name
    ai-design-comparison.png, if it could be composed.  When an image
    cannot be decoded or no 2D context is available, the comparison is
    skipped without an error and the after image has still been saved.  In
    every case the menu is closed and the earlier downloads are kept. *)
Theorem handleDownloadBoth_downloads (toDataURL : Compositor.Canvas -> string)
    (afterImage : jsval) (before after : option Compositor.HTMLImage)
    (has_context : bool) (c : ResultCard.Card) :
  let c' := ResultCard.handleDownloadBoth toDataURL afterImage before after
              has_context c in
  let after_download :=
    (("data:image/png;base64," ++ ResultCard.template_text afterImage)%string,
     "ai-design-after.png") in
  ResultCard.isDropdownOpen c' = false
  /\ ResultCard.downloads c'
     = ResultCard.downloads c
       ++ after_download
       :: match Compositor.createComparisonImage before after has_context with
          | Fulfilled canvas => [(toDataURL canvas, "ai-design-comparison.png")]
          | Rejected _ => []
          end
  /\ (before = None \/ after = None \/ has_context = false ->
      ResultCard.downloads c' = ResultCard.downloads c ++ [after_download])
  /\ (forall b a, before = Some b -> after = Some a -> has_context = true ->
      exists canvas,
        ResultCard.downloads c'
        = ResultCard.downloads c
          ++ [after_download; (toDataURL canvas, "ai-design-comparison.png")]).
Proof.
  cbv zeta.
  assert (H : ResultCard.downloads
                (ResultCard.handleDownloadBoth toDataURL afterImage before after
                   has_context c)
              = ResultCard.downloads c
                ++ (("data:image/png;base64,"
                     ++ ResultCard.template_text afterImage)%string,
                    "ai-design-after.png")
                :: match Compositor.createComparisonImage before after has_context with
                   | Fulfilled canvas =>
                       [(toDataURL canvas, "ai-design-comparison.png")]
                   | Rejected _ => []
                   end).
  { unfold ResultCard.handleDownloadBoth, ResultCard.handleDownloadComparison,
      ResultCard.handleDownloadAfter.
    destruct (Compositor.createComparisonImage before after has_context);
      cbn [ResultCard.downloads ResultCard.setIsDropdownOpen
           ResultCard.downloadImage].
    - rewrite <- app_assoc. reflexivity.
    - reflexivity. }
  split; [reflexivity|]. split; [exact H|]. split.
  - intros Hfail. rewrite H.
    destruct before as [b|], after as [a|]; try reflexivity.
    destruct has_context; [|reflexivity].
    destruct Hfail as [Hf|[Hf|Hf]]; discriminate.
  - intros b a -> -> ->. rewrite H. eexists. reflexivity.
Qed.

(* ===================================================================== *)
(** ** What a chain issues, and how much *)
(* ===================================================================== *)

Lemma issues_only_bind {A B} (P : ext_op -> Prop) (t : task A) (f : A -> task B) :
  issues_only P t -> (forall a, issues_only P (f a)) -> issues_only P (bind t f).
Proof.
  intros Ht Hf. induction Ht as [[a|e]| | |]; simpl.
  - apply Hf.
  - constructor.
  - constructor; assumption.
  - constructor; assumption.
  - constructor; assumption.
Qed.

Lemma issues_only_try_catch {A} (P : ext_op -> Prop) (t : task A)
    (handler : thrown -> task A) :
  issues_only P t -> (forall e, issues_only P (handler e)) ->
  issues_only P (try_catch t handler).
Proof.
  intros Ht Hh. induction Ht as [[a|e]| | |]; simpl.
  - constructor.
  - apply Hh.
  - constructor; assumption.
  - constructor; assumption.
  - constructor; assumption.
Qed.

Lemma issues_only_fileToGenerativePart (P : ext_op -> Prop) (file : File) :
  P (OpRead file) -> issues_only P (fileToGenerativePart file).
Proof. intros H. constructor; [assumption|constructor]. Qed.

Lemma issues_only_generateContent (P : ext_op -> Prop) req :
  P (OpModel req) -> issues_only P (generateContent req).
Proof. intros H. constructor; [assumption|]. intros o. constructor. Qed.

Lemma issues_only_lift {A} (P : ext_op -> Prop) (r : settled A) :
  issues_only P (lift r).
Proof. constructor. Qed.

Lemma fileToGenerativeParts_part_of (files : list File) :
  map (fun fr : File * option string =>
         {| part_inlineData :=
              {| data := onloadend (snd fr); mimeType := type (fst fr) |} |})
      (combine files (map dataURL files))
  = map part_of files.
Proof.
  induction files as [|f files IH]; simpl; [reflexivity|].
  rewrite IH. reflexivity.
Qed.

Lemma issues_only_enhanceImage (P : ext_op -> Prop) (imageFile : File) :
  P (OpRead imageFile) -> P (OpModel (enhance_request (part_of imageFile))) ->
  issues_only P (enhanceImage imageFile).
Proof.
  intros Hread Hcall. unfold enhanceImage.
  cbn [fileToGenerativePart bind ret].
  constructor; [assumption|].
  apply issues_only_try_catch.
  - apply issues_only_bind.
    + apply issues_only_generateContent. exact Hcall.
    + intros response. destruct (find_image_part response) as [part|];
        [destruct (truthy (inlineData_data part))|]; constructor.
  - intros e. constructor; [assumption|constructor].
Qed.

Lemma issues_only_generateDecorIdeas (P : ext_op -> Prop) roomImage decorImages prompt :
  P (OpRead roomImage) -> P (OpReadAll decorImages) ->
  P (OpModel (decor_request (part_of roomImage) (map part_of decorImages) prompt)) ->
  issues_only P (generateDecorIdeas roomImage decorImages prompt).
Proof.
  intros Hread Hall Hcall. unfold generateDecorIdeas.
  cbn [fileToGenerativePart bind ret].
  constructor; [assumption|].
  fold (original_payload roomImage). fold (part_of roomImage).
  assert (Hrest : issues_only P
            (try_catch
               (response <- generateContent
                              (decor_request (part_of roomImage)
                                 (map part_of decorImages) prompt) ;;
                image <- match first_candidate response with
                         | Some c => lift (scan_candidate c (JString ""))
                         | None => ret (JString "")
                         end ;;
                if negb (truthy image) then throw (JsError no_image_message)
                else ret image)
               (fun error =>
                  match error with
                  | JsError message =>
                      throw (JsError ("Failed to generate design: " ++ message))
                  | JsNonError =>
                      throw (JsError
                        "An unknown error occurred while generating the design.")
                  end))).
  { apply issues_only_try_catch.
    - apply issues_only_bind.
      + apply issues_only_generateContent. exact Hcall.
      + intros response. apply issues_only_bind.
        * destruct (first_candidate response); constructor.
        * intros image. destruct (negb (truthy image)); constructor.
    - intros [message|]; constructor. }
  destruct decorImages as [|f fs].
  - exact Hrest.
  - cbn [fileToGenerativeParts bind ret].
    constructor; [assumption|].
    rewrite fileToGenerativeParts_part_of. exact Hrest.
Qed.

Lemma issues_only_generationPromise decorImages prompt roomImage :
  issues_only (fun op => In op (chain_ops decorImages prompt roomImage))
              (generationPromise decorImages prompt roomImage).
Proof.
  unfold generationPromise. apply issues_only_bind.
  - apply issues_only_enhanceImage; simpl; auto.
  - intros enhanced. apply issues_only_bind.
    + apply issues_only_generateDecorIdeas; simpl; auto.
    + intros idea. constructor.
Qed.

Lemma issues_only_resume (P : ext_op -> Prop) (t t' : task Result) r :
  issues_only P t -> resume t r = Some t' -> issues_only P t'.
Proof.
  intros Ht Hr. destruct Ht as [res|f k Hp Hk|fs k Hp Hk|req k Hp Hk];
    destruct r as [|o]; simpl in Hr; inversion Hr; subst; auto.
Qed.

Lemma issues_only_announce1 (P : ext_op -> Prop) (t : task Result) op :
  issues_only P t -> In (Issued op) (announce1 t) -> P op.
Proof.
  intros Ht Hin. destruct Ht as [res|f k Hp Hk|fs k Hp Hk|req k Hp Hk];
    simpl in Hin; destruct Hin as [Hin|[]]; inversion Hin; subst; assumption.
Qed.

Lemma issues_only_solo_log (P : ext_op -> Prop) (rs : list reply) :
  forall (t : task Result) op,
    issues_only P t -> In (Issued op) (solo_log t rs) -> P op.
Proof.
  induction rs as [|r rs IH]; intros t op Ht Hin; simpl in Hin; [contradiction|].
  destruct (pending_op t) as [op0|]; [|contradiction].
  destruct (resume t r) as [t'|] eqn:Hr; [|contradiction].
  pose proof (issues_only_resume P t t' r Ht Hr) as Ht'.
  destruct Hin as [Hin|Hin]; [discriminate|].
  apply in_app_or in Hin as [Hin|Hin].
  - eapply issues_only_announce1; eassumption.
  - eapply IH; eassumption.
Qed.

Lemma In_events_of_iff i e l : In e (events_of i l) <-> In (i, e) l.
Proof.
  unfold events_of. rewrite in_map_iff. split.
  - intros ([j e'] & He & Hin). simpl in He. subst e'.
    apply filter_In in Hin as [Hin Hj]. simpl in Hj.
    apply Nat.eqb_eq in Hj. subst j. exact Hin.
  - intros Hin. exists (i, e). split; [reflexivity|].
    apply filter_In. split; [exact Hin|]. simpl. apply Nat.eqb_refl.
Qed.

(** The pool that [handleGenerate] creates. *)
Lemma handleGenerate_pool s :
  generationPromises (handleGenerate s)
  = if passes_validation s
    then map (generationPromise (decorImages s) (stylePrompt s)) (roomImages s)
    else [].
Proof.
  unfold handleGenerate, passes_validation.
  destruct (List.length (roomImages s) =? 0)%nat; [reflexivity|].
  destruct (String.eqb (trim (stylePrompt s)) ""); [reflexivity|].
  rewrite poll_generationPromises. reflexivity.
Qed.

Lemma handleGenerate_chain s i t :
  nth_error (generationPromises (handleGenerate s)) i = Some t ->
  exists roomImage,
    nth_error (roomImages s) i = Some roomImage
    /\ t = generationPromise (decorImages s) (stylePrompt s) roomImage.
Proof.
  rewrite handleGenerate_pool. destruct (passes_validation s).
  - intros H. rewrite nth_error_map in H.
    destruct (nth_error (roomImages s) i) as [room|]; [|discriminate].
    inversion H. eauto.
  - destruct i; discriminate.
Qed.

Lemma handleGenerate_log s :
  log (handleGenerate s)
  = announce_all 0 (generationPromises (handleGenerate s)).
Proof.
  unfold handleGenerate.
  destruct (List.length (roomImages s) =? 0)%nat; [reflexivity|].
  destruct (String.eqb (trim (stylePrompt s)) ""); [reflexivity|].
  rewrite poll_generationPromises, poll_log. reflexivity.
Qed.

(** The events of chain [i] in a run are those of the chain on its own. *)
Lemma run_chain_events s sched run i e :
  run_handleGenerate s sched = Some run ->
  In (i, e) (log run) ->
  exists roomImage,
    nth_error (roomImages s) i = Some roomImage
    /\ solo_state (generationPromise (decorImages s) (stylePrompt s) roomImage)
         (replies_to i sched) <> None
    /\ In e (announce1 (generationPromise (decorImages s) (stylePrompt s) roomImage)
             ++ solo_log (generationPromise (decorImages s) (stylePrompt s) roomImage)
                  (replies_to i sched)).
Proof.
  intros Hrun Hin. unfold run_handleGenerate in Hrun.
  destruct (nth_error (generationPromises (handleGenerate s)) i) as [t|] eqn:Hi.
  - destruct (handleGenerate_chain s i t Hi) as (room & Hroom & ->).
    destruct (deliver_all_chain _ _ _ i _ Hrun Hi) as (t' & _ & Hsolo & Hev).
    exists room. split; [exact Hroom|]. split; [congruence|].
    rewrite handleGenerate_log in Hev.
    pose proof (events_of_announce_all _ 0 i _ Hi) as Ha.
    change (0 + i)%nat with i in Ha. rewrite Ha in Hev.
    rewrite <- Hev. apply In_events_of_iff, Hin.
  - exfalso. apply nth_error_None in Hi.
    assert (G : forall sc r r', deliver_all sc r = Some r' ->
              (List.length (generationPromises r) <= i)%nat ->
              In (i, e) (log r') -> In (i, e) (log r)).
    { induction sc as [|[j rp] sc IH]; simpl; intros r r' Hd Hlen Hl.
      - inversion Hd; subst. exact Hl.
      - destruct (deliver j rp r) as [r1|] eqn:Hd1; [|discriminate].
        pose proof (deliver_length _ _ _ _ Hd1) as Hlen1.
        specialize (IH r1 r' Hd ltac:(lia) Hl).
        apply deliver_inv in Hd1 as (tj & op & tj' & Hj & _ & _ & ->).
        rewrite poll_log in IH. simpl in IH.
        assert (Hji : (j < i)%nat).
        { apply Nat.lt_le_trans with (List.length (generationPromises r));
            [|exact Hlen]. apply nth_error_Some. congruence. }
        apply in_app_or in IH as [IH|IH]; [exact IH|].
        destruct IH as [IH|IH]; [inversion IH; lia|].
        unfold announce in IH.
        destruct tj'; simpl in IH; destruct IH as [IH|[]]; inversion IH; lia. }
    specialize (G sched _ _ Hrun Hi Hin).
    rewrite handleGenerate_log in G.
    assert (Hlow : forall ts n, In (i, e) (announce_all n ts) ->
              (n <= i < n + List.length ts)%nat).
    { induction ts as [|t ts IH]; simpl; intros n H; [contradiction|].
      apply in_app_or in H as [H|H].
      - unfold announce in H.
        destruct t; simpl in H; destruct H as [H|[]]; inversion H; lia.
      - apply IH in H. lia. }
    apply Hlow in G. lia.
Qed.

(** X10.  Whatever the schedule, the chain of the i-th room image reads no
    file but that room image and the decor images, and sends nothing but
    two kinds of request to the image model, both with image and text as
    response modalities.  The enhancement request holds one image, made
    from the read of that room image (its payload and the type of its
    file), and the enhancement instructions.  The generation request holds
    a caption, the image made from that room image, a caption, one image
    per decor image in the order of the decor list, and the instructions
    built from the style prompt.  So every image that a chain sends is made
    from its own room image or from a decor image. *)
Theorem chain_issues_own_operations s sched run i op :
  run_handleGenerate s sched = Some run ->
  In (i, Issued op) (log run) ->
  exists roomImage,
    nth_error (roomImages s) i = Some roomImage
    /\ let image (file : File) :=
         {| inlineData :=
              Some {| data := match dataURL file with
                              | Some url => index (split "," url) 1
                              | None => JString ""
                              end;
                      mimeType := type file |};
            text := None |} in
       let caption (t : string) := {| inlineData := None; text := Some t |} in
       match op with
       | OpRead f => f = roomImage
       | OpReadAll fs => fs = decorImages s
       | OpModel req =>
           model req = "gemini-2.5-flash-image-preview"
           /\ config req = Some {| responseModalities := [IMAGE; TEXT] |}
           /\ (parts (contents req)
               = Some [image roomImage; caption enhance_prompt]
               \/ parts (contents req)
                  = Some ([caption "Here is the image of the room:";
                           image roomImage;
                           caption "Here are the decor items to incorporate:"]
                          ++ map image (decorImages s)
                          ++ [caption (decor_prompt (stylePrompt s))]))
       end.
Proof.
  intros Hrun Hin.
  destruct (run_chain_events s sched run i _ Hrun Hin) as (room & Hroom & _ & He).
  exists room. split; [exact Hroom|].
  pose proof (issues_only_generationPromise (decorImages s) (stylePrompt s) room)
    as Hchain.
  assert (Hop : In op (chain_ops (decorImages s) (stylePrompt s) room)).
  { apply in_app_or in He as [He|He].
    - eapply (issues_only_announce1 _ _ _ Hchain), He.
    - eapply (issues_only_solo_log _ _ _ _ Hchain), He. }
  cbv zeta. destruct Hop as [<-|[<-|[<-|[<-|[]]]]].
  - reflexivity.
  - split; [reflexivity|]. split; [reflexivity|]. left. reflexivity.
  - reflexivity.
  - split; [reflexivity|]. split; [reflexivity|]. right.
    cbn [decor_request contents parts]. rewrite map_map. reflexivity.
Qed.

Lemma chain_issues_own_operations_witness :
  exists run,
    run_handleGenerate Scenario.cozy [(1%nat, ReadEnded)] = Some run
    /\ In (1%nat, Issued (OpModel (enhance_request (part_of Scenario.roomB))))
          (log run)
    /\ exists roomImage,
         nth_error (roomImages Scenario.cozy) 1 = Some roomImage
         /\ roomImage = Scenario.roomB
         /\ model (enhance_request (part_of Scenario.roomB))
            = "gemini-2.5-flash-image-preview"
         /\ parts (contents (enhance_request (part_of Scenario.roomB)))
            = Some [ {| inlineData := Some {| data := JString "QkJC";
                                              mimeType := "image/jpeg" |};
                        text := None |};
                     {| inlineData := None; text := Some enhance_prompt |} ].
Proof.
  destruct (run_handleGenerate Scenario.cozy [(1%nat, ReadEnded)]) as [run|] eqn:Hrun;
    [|discriminate Hrun].
  assert (Hin : In (1%nat, Issued (OpModel (enhance_request (part_of Scenario.roomB))))
                   (log run)).
  { inversion Hrun as [Hr]. simpl. auto 6. }
  exists run. split; [reflexivity|]. split; [exact Hin|].
  destruct (chain_issues_own_operations Scenario.cozy [(1%nat, ReadEnded)] run 1 _
              Hrun Hin) as (roomImage & Hroom & _).
  exists roomImage. split; [exact Hroom|].
  split; [inversion Hroom; reflexivity|]. split; reflexivity.
Defined.

(* --------------------------------------------------------------------- *)

Lemma settles_within_weaken {A} (t : task A) reads calls :
  settles_within reads calls t ->
  forall reads' calls', (reads <= reads')%nat -> (calls <= calls')%nat ->
  settles_within reads' calls' t.
Proof.
  induction 1 as [reads calls r|reads calls f k _ IH|reads calls fs k _ IH
                  |reads calls req k _ IH]; intros reads' calls' Hr Hc.
  - constructor.
  - destruct reads' as [|reads']; [lia|]. constructor. apply IH; lia.
  - destruct reads' as [|reads']; [lia|]. constructor. apply IH; lia.
  - destruct calls' as [|calls']; [lia|]. constructor. intros o. apply IH; lia.
Qed.

Lemma settles_within_bind {A B} (t : task A) (f : A -> task B) r1 c1 r2 c2 :
  settles_within r1 c1 t -> (forall a, settles_within r2 c2 (f a)) ->
  settles_within (r1 + r2) (c1 + c2) (bind t f).
Proof.
  intros Ht Hf.
  induction Ht as [reads calls [a|e]|reads calls file k _ IH|reads calls fs k _ IH
                   |reads calls req k _ IH]; simpl.
  - apply (settles_within_weaken _ _ _ (Hf a)); lia.
  - constructor.
  - constructor. exact IH.
  - constructor. exact IH.
  - constructor. exact IH.
Qed.

Lemma settles_within_try_catch {A} (t : task A) (handler : thrown -> task A)
    r1 c1 r2 c2 :
  settles_within r1 c1 t -> (forall e, settles_within r2 c2 (handler e)) ->
  settles_within (r1 + r2) (c1 + c2) (try_catch t handler).
Proof.
  intros Ht Hh.
  induction Ht as [reads calls [a|e]|reads calls file k _ IH|reads calls fs k _ IH
                   |reads calls req k _ IH]; simpl.
  - constructor.
  - apply (settles_within_weaken _ _ _ (Hh e)); lia.
  - constructor. exact IH.
  - constructor. exact IH.
  - constructor. exact IH.
Qed.

Lemma settles_within_fileToGenerativePart (file : File) :
  settles_within 1 0 (fileToGenerativePart file).
Proof. repeat constructor. Qed.

Lemma settles_within_fileToGenerativeParts (files : list File) :
  settles_within 1 0 (fileToGenerativeParts files).
Proof. destruct files; repeat constructor. Qed.

Lemma settles_within_generateContent req :
  settles_within 0 1 (generateContent req).
Proof. constructor. intros o. constructor. Qed.

(** [enhanceImage]: the read, the call, and the read of the fallback. *)
Lemma settles_within_enhanceImage (imageFile : File) :
  settles_within 2 1 (enhanceImage imageFile).
Proof.
  unfold enhanceImage.
  apply (settles_within_bind _ _ 1 0 1 1 (settles_within_fileToGenerativePart _)).
  intros imagePart.
  apply (settles_within_try_catch _ _ 0 1 1 0).
  - apply (settles_within_bind _ _ 0 1 0 0 (settles_within_generateContent _)).
    intros response. destruct (find_image_part response) as [part|];
      [destruct (truthy (inlineData_data part))|]; constructor.
  - intros e.
    apply (settles_within_bind _ _ 1 0 0 0 (settles_within_fileToGenerativePart _)).
    intros a. constructor.
Qed.

(** [generateDecorIdeas]: the read of the room image, the reads of the
    decor images, and the call. *)
Lemma settles_within_generateDecorIdeas roomImage decorImages prompt :
  settles_within 2 1 (generateDecorIdeas roomImage decorImages prompt).
Proof.
  unfold generateDecorIdeas.
  apply (settles_within_bind _ _ 1 0 1 1 (settles_within_fileToGenerativePart _)).
  intros roomImagePart.
  apply (settles_within_bind _ _ 1 0 0 1 (settles_within_fileToGenerativeParts _)).
  intros decorImageParts.
  apply (settles_within_try_catch _ _ 0 1 0 0).
  - apply (settles_within_bind _ _ 0 1 0 0 (settles_within_generateContent _)).
    intros response.
    apply (settles_within_bind _ _ 0 0 0 0).
    + destruct (first_candidate response); constructor.
    + intros image. destruct (negb (truthy image)); constructor.
  - intros [message|]; constructor.
Qed.

Lemma settles_within_generationPromise decorImages prompt roomImage :
  settles_within 4 2 (generationPromise decorImages prompt roomImage).
Proof.
  unfold generationPromise.
  apply (settles_within_bind _ _ 2 1 2 1 (settles_within_enhanceImage _)).
  intros enhanced.
  apply (settles_within_bind _ _ 2 1 0 0 (settles_within_generateDecorIdeas _ _ _)).
  intros idea. constructor.
Qed.

Lemma outcomes_model_replies (rs : list reply) :
  List.length (outcomes rs) = List.length (filter is_model_reply rs).
Proof.
  induction rs as [|[|o] rs IH]; simpl; auto.
Qed.

(** A chain that settles within [reads] suspensions on reads and [calls]
    calls accepts at most that many completions of each kind. *)
Lemma solo_state_within (rs : list reply) : forall (t t' : task Result) reads calls,
  settles_within reads calls t -> solo_state t rs = Some t' ->
  (List.length (filter is_model_reply rs) <= calls
   /\ List.length rs <= reads + calls)%nat.
Proof.
  induction rs as [|r rs IH]; intros t t' reads calls Ht Hs; simpl in *; [lia|].
  destruct (pending_op t) as [op|]; [|discriminate].
  destruct (resume t r) as [t1|] eqn:Hr; [|discriminate].
  destruct Ht as [reads calls res|reads calls f k Hk|reads calls fs k Hk
                  |reads calls req k Hk];
    destruct r as [|o]; simpl in Hr; inversion Hr; subst t1; clear Hr.
  - destruct (IH _ _ _ _ Hk Hs). simpl. lia.
  - destruct (IH _ _ _ _ Hk Hs). simpl. lia.
  - destruct (IH _ _ _ _ (Hk o) Hs). simpl. lia.
Qed.

Lemma deliver_all_indices sched : forall run run',
  deliver_all sched run = Some run' ->
  Forall (fun c => fst c < List.length (generationPromises run))%nat sched.
Proof.
  induction sched as [|[i r] sched IH]; simpl; intros run run' H; [constructor|].
  destruct (deliver i r run) as [run1|] eqn:Hd; [|discriminate].
  constructor.
  - simpl. apply deliver_inv in Hd as (t & _ & _ & Hi & _).
    apply nth_error_Some. congruence.
  - rewrite <- (deliver_length _ _ _ _ Hd). eapply IH, H.
Qed.

Section Counting.

Variable q : reply -> bool.

Lemma list_sum_indicator (j c : nat) : forall n a,
  (a <= j < a + n)%nat ->
  list_sum (map (fun i => if (j =? i)%nat then c else 0%nat) (seq a n)) = c.
Proof.
  induction n as [|n IH]; intros a Hj; [lia|].
  simpl. destruct (Nat.eqb_spec j a) as [->|Hne].
  - assert (Hz : forall m b, (a < b)%nat ->
              list_sum (map (fun i => if (a =? i)%nat then c else 0%nat) (seq b m))
              = 0%nat).
    { induction m as [|m IHm]; intros b Hb; [reflexivity|].
      simpl. destruct (Nat.eqb_spec a b); [lia|]. apply IHm. lia. }
    rewrite Hz by lia. lia.
  - rewrite IH by lia. reflexivity.
Qed.

Lemma list_sum_map_add {A} (f g : A -> nat) (l : list A) :
  list_sum (map (fun x => f x + g x)%nat l)
  = (list_sum (map f l) + list_sum (map g l))%nat.
Proof. induction l as [|x l IH]; simpl; [reflexivity|]. rewrite IH. lia. Qed.

(** The completions of a schedule, counted chain by chain. *)
Lemma count_by_chain (n : nat) (sched : schedule) :
  Forall (fun c => fst c < n)%nat sched ->
  List.length (filter q (map snd sched))
  = list_sum (map (fun i => List.length (filter q (replies_to i sched))) (seq 0 n)).
Proof.
  induction sched as [|[j r] sched IH]; intros Hall.
  - simpl. induction (seq 0 n); simpl; auto.
  - inversion Hall as [|c l Hj Hrest]; subst. simpl in Hj.
    rewrite (map_ext
               (fun i => List.length (filter q (replies_to i ((j, r) :: sched))))
               (fun i => ((if (j =? i)%nat then (if q r then 1 else 0) else 0)
                          + List.length (filter q (replies_to i sched)))%nat)).
    + rewrite list_sum_map_add, list_sum_indicator by lia.
      rewrite <- IH by assumption. simpl. destruct (q r); reflexivity.
    + intros i. unfold replies_to. simpl.
      destruct (Nat.eqb_spec j i); simpl; [destruct (q r)|]; reflexivity.
Qed.

Lemma list_sum_bound {A} (f : A -> nat) (c : nat) (l : list A) :
  (forall x, In x l -> f x <= c)%nat ->
  (list_sum (map f l) <= c * List.length l)%nat.
Proof.
  induction l as [|x l IH]; intros H; simpl; [lia|].
  assert (f x <= c)%nat by (apply H; left; reflexivity).
  assert (list_sum (map f l) <= c * List.length l)%nat
    by (apply IH; intros; apply H; right; assumption).
  lia.
Qed.

End Counting.

(** X11.  A chain never makes more than two model calls.  Whatever the
    model returns, the chain of a room image is answered at most two
    calls: no failure leads to a third attempt.  So a batch costs at most
    twice as many model calls as there are room images, and a chain that
    has settled, with a result or with an error, has been answered exactly
    two. *)
Theorem model_calls_are_bounded s sched run :
  run_handleGenerate s sched = Some run ->
  (List.length (outcomes (map snd sched)) <= 2 * List.length (roomImages s))%nat
  /\ (forall i, List.length (outcomes (replies_to i sched)) <= 2)%nat
  /\ (forall i r, nth_error (generationPromises run) i = Some (Settled r) ->
        List.length (outcomes (replies_to i sched)) = 2%nat).
Proof.
  intros Hrun. unfold run_handleGenerate in Hrun.
  assert (Hchain : forall i,
            (List.length (filter is_model_reply (replies_to i sched)) <= 2)%nat).
  { intros i.
    destruct (nth_error (generationPromises (handleGenerate s)) i) as [t|] eqn:Hi.
    - destruct (handleGenerate_chain s i t Hi) as (room & _ & ->).
      destruct (deliver_all_chain _ _ _ i _ Hrun Hi) as (t' & _ & Hsolo & _).
      apply (solo_state_within _ _ _ 4 2
               (settles_within_generationPromise _ _ _) Hsolo).
    - apply nth_error_None in Hi.
      pose proof (deliver_all_indices _ _ _ Hrun) as Hall.
      assert (Hnil : replies_to i sched = []).
      { unfold replies_to. rewrite Forall_forall in Hall.
        clear Hrun. induction sched as [|[j r] sc IH]; [reflexivity|].
        simpl. assert (Hj : (j < List.length
                               (generationPromises (handleGenerate s)))%nat)
          by (apply (Hall (j, r)); left; reflexivity).
        destruct (Nat.eqb_spec j i); [lia|].
        apply IH. intros c Hc. apply Hall. right. exact Hc. }
      rewrite Hnil. simpl. lia. }
  assert (Hlen : (List.length (generationPromises (handleGenerate s))
                  <= List.length (roomImages s))%nat).
  { rewrite handleGenerate_pool. destruct (passes_validation s).
    - rewrite length_map. lia.
    - simpl. lia. }
  assert (Hall : Forall (fun c => fst c < List.length (roomImages s))%nat sched).
  { eapply Forall_impl; [|apply (deliver_all_indices _ _ _ Hrun)].
    simpl. intros. lia. }
  split; [|split].
  - rewrite outcomes_model_replies, (count_by_chain _ _ _ Hall).
    rewrite <- (length_seq (List.length (roomImages s)) 0) at 2.
    apply list_sum_bound. intros i _. apply Hchain.
  - intros i. rewrite outcomes_model_replies. apply Hchain.
  - intros i r Hi.
    destruct (nth_error (generationPromises (handleGenerate s)) i) as [t|] eqn:Ht.
    + destruct (handleGenerate_chain s i t Ht) as (room & _ & ->).
      destruct (deliver_all_chain _ _ _ i _ Hrun Ht) as (t' & Ht' & Hsolo & _).
      rewrite Hi in Ht'. inversion Ht'; subst t'.
      pose proof (solo_state_exec _ _ _ [] Hsolo) as Hexec.
      rewrite app_nil_r in Hexec. cbn [exec] in Hexec.
      pose proof (Hchain i) as Hle. rewrite <- outcomes_model_replies in Hle.
      destruct (Nat.lt_ge_cases (List.length (outcomes (replies_to i sched))) 2)
        as [Hlt|Hge]; [|lia].
      rewrite (exec_generationPromise_short _ _ _ _ Hlt) in Hexec. discriminate.
    + apply nth_error_None in Ht.
      rewrite <- (deliver_all_length _ _ _ Hrun) in Ht.
      apply nth_error_None in Ht. congruence.
Qed.

Lemma model_calls_are_bounded_witness :
  exists run,
    run_handleGenerate Scenario.cozy Scenario.A_succeeds_B_fails = Some run
    /\ List.length (outcomes (map snd Scenario.A_succeeds_B_fails)) = 4%nat
    /\ (List.length (outcomes (map snd Scenario.A_succeeds_B_fails)) <= 2 * 2)%nat
    /\ (forall i, List.length (outcomes (replies_to i Scenario.A_succeeds_B_fails))
                  <= 2)%nat
    /\ (forall i r, nth_error (generationPromises run) i = Some (Settled r) ->
          List.length (outcomes (replies_to i Scenario.A_succeeds_B_fails)) = 2%nat).
Proof.
  eexists. split; [vm_compute; reflexivity|]. split; [reflexivity|].
  apply (model_calls_are_bounded Scenario.cozy Scenario.A_succeeds_B_fails).
  vm_compute. reflexivity.
Defined.

(* ===================================================================== *)
(** ** What the page shows during and after a run *)
(* ===================================================================== *)

Lemma Promise_all_of_fulfilled {A} (vs : list A) :
  Promise_all (map (fun v => Settled (Fulfilled v)) vs) = Some (Fulfilled vs).
Proof. induction vs as [|v vs IH]; simpl; [reflexivity|]. rewrite IH. reflexivity. Qed.

Lemma Promise_all_of_rejected {A} (ps : list (task A)) e :
  In (Settled (Rejected e)) ps -> Promise_all ps <> None.
Proof.
  intros Hin Hnone.
  apply (Promise_all_pending_none_rejected ps Hnone e Hin).
Qed.

Lemma GenerationError_message e : GenerationError e -> error_text e <> "".
Proof. intros [message|]; simpl; discriminate. Qed.

Lemma poll_inputs run :
  roomImages (state (poll run)) = roomImages (state run)
  /\ decorImages (state (poll run)) = decorImages (state run)
  /\ stylePrompt (state (poll run)) = stylePrompt (state run).
Proof.
  unfold poll. destruct (awaiting run); [|auto].
  destruct (Promise_all (generationPromises run)) as [[vs|e]|]; simpl; auto.
Qed.

Lemma deliver_all_inputs sched : forall run run',
  deliver_all sched run = Some run' ->
  roomImages (state run') = roomImages (state run)
  /\ decorImages (state run') = decorImages (state run)
  /\ stylePrompt (state run') = stylePrompt (state run).
Proof.
  induction sched as [|[i r] sched IH]; simpl; intros run run' H.
  - inversion H; auto.
  - destruct (deliver i r run) as [run1|] eqn:Hd; [|discriminate].
    destruct (IH _ _ H) as (H1 & H2 & H3).
    apply deliver_inv in Hd as (t & op & t' & _ & _ & _ & ->).
    destruct (poll_inputs {| state := state run;
                             generationPromises := update i t' (generationPromises run);
                             awaiting := awaiting run;
                             log := log run ++ (i, Completed op) :: announce i t' |})
      as (P1 & P2 & P3).
    simpl in P1, P2, P3. rewrite H1, H2, H3. auto.
Qed.

Lemma handleGenerate_inputs s :
  roomImages (state (handleGenerate s)) = roomImages s
  /\ decorImages (state (handleGenerate s)) = decorImages s
  /\ stylePrompt (state (handleGenerate s)) = stylePrompt s.
Proof.
  unfold handleGenerate.
  destruct (List.length (roomImages s) =? 0)%nat; [simpl; auto|].
  destruct (String.eqb (trim (stylePrompt s)) ""); [simpl; auto|].
  match goal with |- context [poll ?r] => destruct (poll_inputs r) as (P1 & P2 & P3) end.
  simpl in P1, P2, P3. auto.
Qed.

Lemma passes_validation_true s :
  passes_validation s = true <-> roomImages s <> [] /\ trim (stylePrompt s) <> "".
Proof.
  unfold passes_validation. rewrite andb_true_iff, !negb_true_iff.
  rewrite Nat.eqb_neq, String.eqb_neq.
  destruct (roomImages s); simpl; intuition congruence.
Qed.

Lemma invalid_run_is_immediate s sched run :
  passes_validation s = false ->
  run_handleGenerate s sched = Some run ->
  sched = [] /\ run = handleGenerate s
  /\ exists message, ValidationError message
                     /\ state (handleGenerate s) = setError s (Some message).
Proof.
  intros Hv Hrun. unfold run_handleGenerate in Hrun.
  pose proof (deliver_all_indices _ _ _ Hrun) as Hall.
  rewrite handleGenerate_pool, Hv in Hall.
  destruct sched as [|c sched].
  - simpl in Hrun. inversion Hrun. split; [reflexivity|]. split; [reflexivity|].
    unfold passes_validation in Hv. unfold handleGenerate.
    destruct (List.length (roomImages s) =? 0)%nat.
    + eexists. split; [constructor 1|reflexivity].
    + destruct (String.eqb (trim (stylePrompt s)) ""); [|discriminate].
      eexists. split; [constructor 2|reflexivity].
  - inversion Hall; subst. simpl in *. lia.
Qed.

(** X12.  A run never ends silently.  When [handleGenerate] has finished
    (loading is off), either the alert is shown, with a message that is not
    empty, and then no card is shown if the input had passed validation;
    or no alert is shown and there is one card for every room image, at
    least one. *)
Theorem finished_run_shows_cards_or_alert s sched run :
  run_handleGenerate s sched = Some run ->
  isLoading (state run) = false ->
  (alert_shown (state run) = true
   /\ (passes_validation s = true -> cards_shown (state run) = 0%nat))
  \/ (alert_shown (state run) = false
      /\ cards_shown (state run) = List.length (roomImages s)
      /\ (0 < cards_shown (state run))%nat).
Proof.
  intros Hrun Hload. unfold alert_shown, cards_shown.
  destruct (passes_validation s) eqn:Hv.
  - apply passes_validation_true in Hv as [Hrooms Hprompt].
    pose proof (run_handleGenerate_invariant _ _ _ Hrooms Hprompt Hrun) as Hinv.
    unfold run_invariant in Hinv. destruct (awaiting run).
    + destruct Hinv as (_ & _ & Hl & _). congruence.
    + destruct Hinv as (_ & [(vs & Hps & Hres & Herr & _)|(e & _ & Herr & Hres & Hin)]).
      * right. rewrite Herr, Hres.
        pose proof (deliver_all_length _ _ _ Hrun) as Hlen.
        rewrite handleGenerate_valid in Hlen by assumption. simpl in Hlen.
        rewrite Hps, !length_map in Hlen.
        split; [reflexivity|]. split; [exact Hlen|].
        rewrite Hlen. destruct (roomImages s); [congruence|simpl; lia].
      * left. rewrite Herr, Hres. split; [|reflexivity].
        apply In_nth_error in Hin as [j Hj].
        destruct (settled_chain_exec s sched run j (Rejected e) Hrooms Hprompt
                    Hrun Hj) as (room & _ & Hexec).
        apply generationPromise_rejected, GenerationError_message in Hexec.
        apply String.eqb_neq in Hexec. rewrite Hexec. reflexivity.
  - left. destruct (invalid_run_is_immediate s sched run Hv Hrun)
      as (_ & -> & message & Hmsg & Hstate).
    rewrite Hstate. simpl. split; [|discriminate].
    destruct Hmsg; reflexivity.
Qed.

Lemma finished_run_shows_cards_or_alert_witness :
  exists run,
    run_handleGenerate Scenario.cozy Scenario.B_before_A = Some run
    /\ cards_shown (state run) = 2%nat
    /\ ((alert_shown (state run) = true
         /\ (passes_validation Scenario.cozy = true -> cards_shown (state run) = 0%nat))
        \/ (alert_shown (state run) = false
            /\ cards_shown (state run) = List.length (roomImages Scenario.cozy)
            /\ (0 < cards_shown (state run))%nat)).
Proof.
  eexists. split; [vm_compute; reflexivity|]. split; [reflexivity|].
  apply (finished_run_shows_cards_or_alert Scenario.cozy Scenario.B_before_A).
  - vm_compute. reflexivity.
  - reflexivity.
Defined.

Lemma Promise_all_of_settled {A} (ps : list (task A)) :
  (forall t, In t ps -> exists r, t = Settled r) -> Promise_all ps <> None.
Proof.
  induction ps as [|p ps IH]; intros Hall; simpl; [discriminate|].
  destruct (Hall p (or_introl eq_refl)) as [[a|e] ->]; [|discriminate].
  assert (Hrest : Promise_all ps <> None)
    by (apply IH; intros t Ht; apply Hall; right; exact Ht).
  destruct (Promise_all ps) as [[l|e]|]; congruence.
Qed.

(** X13.  For an input that passed validation, loading is on exactly as
    long as [Promise.all] over the chains is pending.  While it is
    pending, the button that starts a run is disabled, no alert is shown
    and no card is shown: the alert and the cards of the run before are
    gone from the first moment.  Loading is off as soon as a chain is
    rejected, and at the latest when every chain has settled.  The room
    images, the decor images and the prompt are never changed by a run. *)
Theorem loading_until_all_settled s sched run :
  roomImages s <> [] -> trim (stylePrompt s) <> "" ->
  run_handleGenerate s sched = Some run ->
  (Promise_all (generationPromises run) = None ->
   isLoading (state run) = true /\ generate_disabled (state run) = true
   /\ alert_shown (state run) = false /\ cards_shown (state run) = 0%nat)
  /\ (Promise_all (generationPromises run) <> None ->
      isLoading (state run) = false)
  /\ ((exists e, In (Settled (Rejected e)) (generationPromises run))
      \/ (forall t, In t (generationPromises run) -> exists r, t = Settled r) ->
      isLoading (state run) = false)
  /\ roomImages (state run) = roomImages s
  /\ decorImages (state run) = decorImages s
  /\ stylePrompt (state run) = stylePrompt s.
Proof.
  intros Hrooms Hprompt Hrun.
  pose proof (run_handleGenerate_invariant _ _ _ Hrooms Hprompt Hrun) as Hinv.
  unfold run_invariant in Hinv.
  assert (Hsettled : Promise_all (generationPromises run) <> None ->
                     isLoading (state run) = false).
  { intros Hs. destruct (awaiting run).
    - destruct Hinv as (_ & _ & _ & Hp & _). congruence.
    - apply Hinv. }
  split; [|split; [exact Hsettled|split]].
  - intros Hpending. destruct (awaiting run).
    + destruct Hinv as (Hres & Herr & Hl & _).
      unfold generate_disabled, alert_shown, cards_shown.
      rewrite Hres, Herr, Hl. auto.
    + exfalso.
      destruct Hinv as (_ & [(vs & Hps & _)|(e & _ & _ & _ & Hin)]).
      * rewrite Hps, Promise_all_of_fulfilled in Hpending. discriminate.
      * exact (Promise_all_of_rejected _ _ Hin Hpending).
  - intros [[e He]|Hall]; apply Hsettled.
    + exact (Promise_all_of_rejected _ _ He).
    + exact (Promise_all_of_settled _ Hall).
  - unfold run_handleGenerate in Hrun.
    destruct (deliver_all_inputs _ _ _ Hrun) as (H1 & H2 & H3).
    destruct (handleGenerate_inputs s) as (G1 & G2 & G3).
    rewrite H1, H2, H3. auto.
Qed.

Lemma loading_until_all_settled_witness :
  exists run,
    run_handleGenerate Scenario.cozy [(0%nat, ReadEnded)] = Some run
    /\ results Scenario.cozy = [Scenario.earlier_result]
    /\ (Promise_all (generationPromises run) = None ->
        isLoading (state run) = true /\ generate_disabled (state run) = true
        /\ alert_shown (state run) = false /\ cards_shown (state run) = 0%nat)
    /\ (Promise_all (generationPromises run) <> None ->
        isLoading (state run) = false)
    /\ ((exists e, In (Settled (Rejected e)) (generationPromises run))
        \/ (forall t, In t (generationPromises run) -> exists r, t = Settled r) ->
        isLoading (state run) = false)
    /\ roomImages (state run) = roomImages Scenario.cozy
    /\ decorImages (state run) = decorImages Scenario.cozy
    /\ stylePrompt (state run) = stylePrompt Scenario.cozy.
Proof.
  eexists. split; [vm_compute; reflexivity|]. split; [reflexivity|].
  apply (loading_until_all_settled Scenario.cozy [(0%nat, ReadEnded)]).
  - discriminate.
  - vm_compute. discriminate.
  - vm_compute. reflexivity.
Defined.

Lemma deliver_all_app (a b : schedule) : forall run,
  deliver_all (a ++ b) run
  = match deliver_all a run with
    | Some run1 => deliver_all b run1
    | None => None
    end.
Proof.
  induction a as [|[i r] a IH]; intros run; simpl; [reflexivity|].
  destruct (deliver i r run); [apply IH|reflexivity].
Qed.

Lemma deliver_all_finished (sched : schedule) : forall run run',
  awaiting run = false -> deliver_all sched run = Some run' ->
  state run' = state run /\ awaiting run' = false.
Proof.
  induction sched as [|[i r] sched IH]; simpl; intros run run' Ha H.
  - inversion H; subst. auto.
  - destruct (deliver i r run) as [run1|] eqn:Hd; [|discriminate].
    apply deliver_inv in Hd as (t & op & t' & _ & _ & _ & Hrun1).
    assert (H1 : state run1 = state run /\ awaiting run1 = false).
    { rewrite Hrun1. unfold poll. simpl. rewrite Ha. simpl. auto. }
    destruct H1 as [Hs1 Ha1]. destruct (IH _ _ Ha1 H) as [Hs Ha'].
    rewrite Hs, Hs1. auto.
Qed.

(** X14.  What a finished run has put on the page stays: the chains that
    are still running when [handleGenerate] has returned (after the first
    rejection) can complete their operations, but neither their results
    nor their errors change the cards, the alert or the loading state. *)
Theorem finished_run_is_final s sched more run run' :
  run_handleGenerate s sched = Some run ->
  isLoading (state run) = false ->
  run_handleGenerate s (sched ++ more) = Some run' ->
  state run' = state run.
Proof.
  intros Hrun Hload Hmore. unfold run_handleGenerate in *.
  rewrite deliver_all_app, Hrun in Hmore.
  destruct (passes_validation s) eqn:Hv.
  - apply passes_validation_true in Hv as [Hrooms Hprompt].
    pose proof (run_handleGenerate_invariant _ _ _ Hrooms Hprompt Hrun) as Hinv.
    unfold run_invariant in Hinv.
    destruct (awaiting run) eqn:Ha.
    + destruct Hinv as (_ & _ & Hl & _). congruence.
    + apply (deliver_all_finished _ _ _ Ha Hmore).
  - pose proof (deliver_all_indices _ _ _ Hmore) as Hall.
    rewrite (deliver_all_length _ _ _ Hrun), handleGenerate_pool, Hv in Hall.
    destruct more as [|c more].
    + simpl in Hmore. inversion Hmore. reflexivity.
    + inversion Hall; subst. simpl in *. lia.
Qed.

Lemma finished_run_is_final_witness :
  exists run run',
    run_handleGenerate Scenario.cozy LateCompletion.B_fails_first = Some run
    /\ run_handleGenerate Scenario.cozy
         (LateCompletion.B_fails_first ++ LateCompletion.A_completes) = Some run'
    /\ nth_error (generationPromises run') 0
       = Some (Settled (Fulfilled {| enhancedBeforeImage := JString "RUE=";
                                     idea := JString "REE=" |}))
    /\ results (state run') = []
    /\ state run' = state run.
Proof.
  eexists. eexists. split; [vm_compute; reflexivity|].
  split; [vm_compute; reflexivity|]. split; [reflexivity|]. split; [reflexivity|].
  apply (finished_run_is_final Scenario.cozy LateCompletion.B_fails_first
           LateCompletion.A_completes).
  - vm_compute. reflexivity.
  - reflexivity.
  - vm_compute. reflexivity.
Defined.

(* ===================================================================== *)
(** ** Which part of a response is the image *)
(* ===================================================================== *)

Lemma has_image_data_bearing part :
  has_image_data part = true -> image_bearing part = true.
Proof.
  unfold has_image_data, image_bearing, inlineData_data.
  destruct (inlineData part); [reflexivity|discriminate].
Qed.

Lemma decor_result_parts response first :
  find image_bearing (response_parts response) = Some first ->
  decor_result (Fulfilled response)
  = if has_image_data first then Fulfilled (inlineData_data first)
    else Rejected (JsError ("Failed to generate design: " ++ no_image_message)).
Proof.
  unfold response_parts, decor_result, scan_candidate, has_image_data.
  destruct (first_candidate response) as [candidate|]; [|discriminate].
  destruct (content candidate) as [c|]; [|discriminate].
  destruct (parts c) as [ps|]; [|discriminate].
  intros Hfind. rewrite scan_parts_find, Hfind. reflexivity.
Qed.

(** X15.  The two calls do not look for the image in the same way.  When
    some part of the response carries image data, [enhanceImage] returns
    the data of the first part whose data is not empty.
    [generateDecorIdeas] takes the first part that has an inlineData
    member, whatever its data: it returns that data if it is not empty,
    and fails with the message that the model did not return an image if
    it is empty, even though a later part carries an image. *)
Theorem image_part_selection imageFile roomImage decorImages prompt response part :
  find has_image_data (response_parts response) = Some part ->
  exec (enhanceImage imageFile) [Fulfilled response]
  = Some (Fulfilled (inlineData_data part))
  /\ truthy (inlineData_data part) = true
  /\ exists first,
       find image_bearing (response_parts response) = Some first
       /\ exec (generateDecorIdeas roomImage decorImages prompt) [Fulfilled response]
          = Some (if has_image_data first then Fulfilled (inlineData_data first)
                  else Rejected (JsError ("Failed to generate design: "
                                          ++ no_image_message))).
Proof.
  intros Hfind. split; [|split].
  - rewrite exec_rest_exec, exec_rest_enhanceImage. simpl.
    rewrite find_image_part_response_parts, Hfind. reflexivity.
  - apply find_some in Hfind. apply Hfind.
  - destruct (find image_bearing (response_parts response)) as [first|] eqn:Hfirst.
    + exists first. split; [reflexivity|].
      rewrite exec_rest_exec, exec_rest_generateDecorIdeas. cbn [option_map fst].
      rewrite (decor_result_parts _ _ Hfirst).
      destruct (has_image_data first); reflexivity.
    + exfalso. apply find_some in Hfind as [Hin Hdata].
      apply has_image_data_bearing in Hdata.
      rewrite (find_none _ _ Hfirst _ Hin) in Hdata. discriminate.
Qed.

Lemma image_part_selection_witness :
  exec (enhanceImage Scenario.roomA) [Fulfilled Samples.empty_then_image]
  = Some (Fulfilled (JString "REE="))
  /\ exec (generateDecorIdeas Scenario.roomA [] "cozy")
          [Fulfilled Samples.empty_then_image]
     = Some (Rejected (JsError ("Failed to generate design: " ++ no_image_message)))
  /\ exists first,
       find image_bearing (response_parts Samples.empty_then_image) = Some first
       /\ exec (generateDecorIdeas Scenario.roomA [] "cozy")
               [Fulfilled Samples.empty_then_image]
          = Some (if has_image_data first then Fulfilled (inlineData_data first)
                  else Rejected (JsError ("Failed to generate design: "
                                          ++ no_image_message))).
Proof.
  split; [reflexivity|]. split; [reflexivity|].
  apply (image_part_selection Scenario.roomA Scenario.roomA [] "cozy"
           Samples.empty_then_image
           {| inlineData := Some {| data := JString "REE="; mimeType := "image/png" |};
              text := None |}).
  reflexivity.
Defined.

(* ===================================================================== *)
(** ** A click on the button *)
(* ===================================================================== *)

(** X16.  The button that calls [handleGenerate] is enabled only when
    loading is off and there is a room image, so a click never meets the
    check on the room images.  If the prompt consists of white space only,
    the click sets the prompt message and does nothing else.  Any other
    prompt is accepted: the click turns loading on, which disables the
    button at once, removes the alert and the cards, and starts one chain
    per room image, each on the read of its room image. *)
Theorem click_on_enabled_button s :
  generate_disabled s = false ->
  if blank (stylePrompt s) then
    handleGenerate s
    = {| state := setError s (Some "Please provide a style prompt.");
         generationPromises := []; awaiting := false; log := [] |}
  else
    isLoading (state (handleGenerate s)) = true
    /\ generate_disabled (state (handleGenerate s)) = true
    /\ alert_shown (state (handleGenerate s)) = false
    /\ cards_shown (state (handleGenerate s)) = 0%nat
    /\ generationPromises (handleGenerate s)
       = map (generationPromise (decorImages s) (stylePrompt s)) (roomImages s)
    /\ log (handleGenerate s)
       = map (fun ir : nat * File => (fst ir, Issued (OpRead (snd ir))))
             (combine (seq 0 (List.length (roomImages s))) (roomImages s)).
Proof.
  unfold generate_disabled. intros Hen.
  apply orb_false_iff in Hen as [_ Hrooms].
  destruct (blank (stylePrompt s)) eqn:Hb.
  - apply trim_blank in Hb. unfold handleGenerate. rewrite Hrooms, Hb. reflexivity.
  - assert (Hprompt : trim (stylePrompt s) <> "").
    { intros E. apply trim_blank in E. congruence. }
    assert (Hne : roomImages s <> []).
    { intros E. rewrite E in Hrooms. discriminate. }
    rewrite handleGenerate_valid by assumption. simpl.
    unfold generate_disabled, alert_shown, cards_shown. simpl.
    repeat split; auto. apply announce_all_start.
Qed.

Lemma click_on_enabled_button_witness :
  blank (stylePrompt Scenario.cozy) = false
  /\ isLoading (state (handleGenerate Scenario.cozy)) = true
  /\ generate_disabled (state (handleGenerate Scenario.cozy)) = true
  /\ alert_shown (state (handleGenerate Scenario.cozy)) = false
  /\ cards_shown (state (handleGenerate Scenario.cozy)) = 0%nat
  /\ generationPromises (handleGenerate Scenario.cozy)
     = map (generationPromise (decorImages Scenario.cozy) (stylePrompt Scenario.cozy))
           (roomImages Scenario.cozy)
  /\ log (handleGenerate Scenario.cozy)
     = map (fun ir : nat * File => (fst ir, Issued (OpRead (snd ir))))
           (combine (seq 0 (List.length (roomImages Scenario.cozy)))
                    (roomImages Scenario.cozy)).
Proof.
  split; [reflexivity|].
  exact (click_on_enabled_button Scenario.cozy eq_refl).
Defined.

(** A prompt of wide spaces is blank: the click sets the prompt message,
    starts nothing, and the card of the earlier run stays beside the
    alert. *)
Example click_with_wide_space_prompt :
  generate_disabled Scenario.wide_space_prompt = false
  /\ blank (stylePrompt Scenario.wide_space_prompt) = true
  /\ handleGenerate Scenario.wide_space_prompt
     = {| state := setError Scenario.wide_space_prompt
                     (Some "Please provide a style prompt.");
          generationPromises := []; awaiting := false; log := [] |}
  /\ alert_shown (state (handleGenerate Scenario.wide_space_prompt)) = true
  /\ cards_shown (state (handleGenerate Scenario.wide_space_prompt)) = 1%nat.
Proof. repeat split; reflexivity. Qed.
